(** * Fused multi-tensor Adam update and oneDNN matmul kernels

    A shallow embedding of

    - [paddle/phi/kernels/gpu/multi_tensor_adam_kernel.cu]
      ([CudaKernelFunctor], [UpdateBetaPow], [MultiTensorAdamKernel]);
    - the oneDNN matmul operator ([MatMulMKLDNNHandler],
      [MatMulV2MKLDNNKernel], [MatMulGradMKLDNNKernel]).

    C++ [int] and [size_t] quantities are modelled by [nat] and [Z] without
    wrap-around: every size that occurs is a tensor extent.  The wide
    floating-point type [MT] of the Adam kernel is a type parameter with its
    arithmetic as a class, since the kernel is a template over it. *)

From Stdlib Require Import ZArith Reals Lra Lia Bool List.
From stdpp Require Import base option list.

(** ** Arrays *)

(** [b[j]] for a C pointer or vector [b] of [length b] elements: an index
    outside the array is an access the program must not make. *)
Definition rd {A : Type} (b : list A) (j : Z) : option A :=
  if (j <? 0)%Z then None else b !! Z.to_nat j.

Definition wr {A : Type} (b : list A) (j : Z) (x : A) : option (list A) :=
  if ((0 <=? j) && (j <? Z.of_nat (length b)))%Z
  then Some (<[Z.to_nat j := x]> b)
  else None.

(** ** Wide arithmetic *)

(** The operations the kernel uses on its compute type [MT]
    ([float] for [float16]/[float] storage, [double] for [double]). *)
Class WideArith (MT : Type) := {
  w_zero : MT;
  w_one : MT;
  w_add : MT -> MT -> MT;
  w_sub : MT -> MT -> MT;
  w_mul : MT -> MT -> MT;
  w_div : MT -> MT -> MT;
  w_neg : MT -> MT;
  w_sqrt : MT -> MT
}.

Declare Scope wide_scope.
Delimit Scope wide_scope with W.
Infix "+" := w_add : wide_scope.
Infix "-" := w_sub : wide_scope.
Infix "*" := w_mul : wide_scope.
Infix "/" := w_div : wide_scope.
Notation "- x" := (w_neg x) : wide_scope.

(** The identities of exact arithmetic that relate the kernel's expression
    tree to the textbook formula.  IEEE arithmetic satisfies them only up to
    rounding. *)
Class WideLaws (MT : Type) `{WideArith MT} : Prop := {
  w_mul_comm : forall a b : MT, (a * b = b * a)%W;
  w_sub_def : forall a b : MT, (a - b = a + - b)%W;
  w_mul_div_assoc : forall a b c : MT, (a * b / c = a * (b / c))%W;
  w_mul_neg_r : forall a b : MT, (a * - b = - (a * b))%W;
  w_mul_0_r : forall a : MT, (a * w_zero = w_zero)%W;
  w_sub_0_r : forall a : MT, (a - w_zero = a)%W;
  w_mul_1_r : forall a : MT, (a * w_one = a)%W
}.

#[global] Instance R_arith : WideArith R := {|
  w_zero := 0%R;
  w_one := 1%R;
  w_add := Rplus;
  w_sub := Rminus;
  w_mul := Rmult;
  w_div := Rdiv;
  w_neg := Ropp;
  w_sqrt := sqrt
|}.

(** ** The Adam element update *)

Module Adam.

Section Element.

Context {MT : Type} `{WideArith MT}.

Local Open Scope wide_scope.

(** The scalar arguments of [CudaKernelFunctor::operator()], after the
    dereferences of [learning_rate], [beta1_pow_] and [beta2_pow_]. *)
Record Hyper := {
  h_beta1 : MT;
  h_beta2 : MT;
  h_beta1_pow : MT;
  h_beta2_pow : MT;
  h_epsilon : MT;
  h_lr : MT;
  h_mode : bool;
  h_decay : MT
}.

(** Lines 100-125: the register computation for one element,
    returning the new [(p, m, v)]. *)
Definition adam_element (h : Hyper) (p g m v : MT) : MT * MT * MT :=
  if negb (h_mode h) then
    let m := h_beta1 h * m + (w_one - h_beta1 h) * g in
    let v := h_beta2 h * v + (w_one - h_beta2 h) * g * g in
    let denom := (w_sqrt v / w_sqrt (w_one - h_beta2_pow h)) + h_epsilon h in
    let p := p + (m / denom) * (- (h_lr h / (w_one - h_beta1_pow h))) in
    (p, m, v)
  else
    let p := p * (w_one - h_lr h * h_decay h) in
    let m := h_beta1 h * m + (w_one - h_beta1 h) * g in
    let v := h_beta2 h * v + (w_one - h_beta2 h) * g * g in
    let denom := (w_sqrt v / w_sqrt (w_one - h_beta2_pow h)) + h_epsilon h in
    let p := p + (m / denom) * (- (h_lr h / (w_one - h_beta1_pow h))) in
    (p, m, v).







End Element.

Arguments Hyper MT : clear implicits.

(** *** Device memory and the outcome of a run *)

(** A run finishes, or stops on a [PADDLE_ENFORCE_EQ] on the size of
    [SkipUpdate], on an access outside a buffer or a vector, or (in the
    embedding only) on an exhausted loop fuel. *)
Inductive Run (A : Type) : Type :=
  | Finished (a : A)
  | InvalidArgument (got : Z)
  | MemFault
  | Timeout.

Arguments Finished {A} a.
Arguments InvalidArgument {A} got.
Arguments MemFault {A}.
Arguments Timeout {A}.

#[global] Instance run_bind : MBind Run := fun A B k r =>
  match r with
  | Finished a => k a
  | InvalidArgument got => InvalidArgument got
  | MemFault => MemFault
  | Timeout => Timeout
  end.

(** [for (i in ixs) s = body(i, s)]. *)
Fixpoint for_each {S : Type} (ixs : list Z) (body : Z -> S -> Run S) (s : S)
    : Run S :=
  match ixs with
  | [] => Finished s
  | i :: ixs' => s' ← body i s; for_each ixs' body s'
  end.

Definition of_access {A : Type} (o : option A) : Run A :=
  match o with
  | Some a => Finished a
  | None => MemFault
  end.

(** A memory access of the element loop, by position in the tensor. *)
Inductive Access : Type :=
  | Load (j : Z)
  | Store (j : Z).

(** The device work of a launch: the accesses made, each with the
    [tensor_id] of the buffers it went to. *)
Definition Trace : Type := list (Z * Access).




Definition BLOCK_SIZE : Z := 512.
Definition PARALLEL_SIZE : Z := 4.

Section Functor.

Context {T MT : Type} `{WideArith MT}.

(** [static_cast<MT>] on a stored element and [static_cast<T>] back. *)
Variable to_MT : T -> MT.
Variable to_T : MT -> T.

Local Open Scope Z_scope.

(** The five co-indexed device buffers of one tensor, as the functor
    fetches them: [tabi.grad[tensor_id]] and
    [tabi.tensors_addr[0..3][tensor_id]]. *)
Record TensorBuffers := {
  buf_g : list T;
  buf_p : list T;
  buf_m : list MT;
  buf_v : list MT;
  buf_mp : list MT
}.

(** [TensorAndBlockInf<N>] is declared in
    [multi_tensor_adam_utility_kernel.cuh]; these are the fields the functor
    reads.  Its pointer tables [grad] and [tensors_addr] address the device
    memory, a list of buffer groups in which [tensor_id] is the position. *)
Record TensorAndBlockInf := {
  tenosr_for_this_block : list Z;
  compute_group_for_this_block : list Z;
  start_compute_group_this_tensor : Z;
  sizes : list Z
}.

(** The device memory the launch works on, and the trace of its
    accesses. *)
Definition DeviceState : Type := list TensorBuffers * Trace.

(** The per-thread register file of one unrolled lane. *)
Record Regs := {
  r_g : MT;
  r_p : MT;
  r_m : MT;
  r_v : MT
}.

Definition zero_regs : Regs :=
  {| r_g := w_zero; r_p := w_zero; r_m := w_zero; r_v := w_zero |}.

(** The guard of lines 87 and 129. *)
Definition in_group (n compute_group_size i : Z) : bool :=
  (i <? n) && (i <? compute_group_size).

(** The loads of lines 88-91 at position [j] of the tensor. *)
Definition read_elem (multi_precision : bool) (b : TensorBuffers) (j : Z)
    : option Regs :=
  g ← rd (buf_g b) j;
  p ← (if multi_precision then rd (buf_mp b) j
       else to_MT <$> rd (buf_p b) j);
  m ← rd (buf_m b) j;
  v ← rd (buf_v b) j;
  Some {| r_g := to_MT g; r_p := p; r_m := m; r_v := v |}.

(** The stores of lines 130-135 at position [j] of the tensor. *)
Definition write_elem (multi_precision : bool) (b : TensorBuffers) (j : Z)
    (r : Regs) : option TensorBuffers :=
  p' ← wr (buf_p b) j (to_T (r_p r));
  m' ← wr (buf_m b) j (r_m r);
  v' ← wr (buf_v b) j (r_v r);
  mp' ← (if multi_precision then wr (buf_mp b) j (r_p r)
         else Some (buf_mp b));
  Some {| buf_g := buf_g b; buf_p := p'; buf_m := m'; buf_v := v';
          buf_mp := mp' |}.

(** Lines 86-97, one lane.  [off] is
    [compute_group_idx * compute_group_size], already added to the
    pointers. *)
Definition load_lane (multi_precision : bool) (n compute_group_size off : Z)
    (b : TensorBuffers) (i : Z) : option Regs :=
  if in_group n compute_group_size i
  then read_elem multi_precision b (off + i)
  else Some zero_regs.

(** Lines 101-124, one lane. *)
Definition compute_lane (h : Hyper MT) (r : Regs) : Regs :=
  let '(p, m, v) := adam_element h (r_p r) (r_g r) (r_m r) (r_v r) in
  {| r_g := r_g r; r_p := p; r_m := m; r_v := v |}.

(** Lines 128-136, one lane. *)
Definition store_lane (multi_precision : bool) (n compute_group_size off : Z)
    (b : TensorBuffers) (i : Z) (r : Regs) : option TensorBuffers :=
  if in_group n compute_group_size i
  then write_elem multi_precision b (off + i) r
  else Some b.

(** The position a lane touches: none outside the guard. *)
Definition lane_pos (n compute_group_size off i : Z) : list Z :=
  if in_group n compute_group_size i then [off + i] else [].

Definition lane_log (mk : Z -> Access) (n compute_group_size off i : Z)
    : list Access :=
  mk <$> lane_pos n compute_group_size off i.

(** [ii = 0 .. PARALLEL_SIZE - 1]. *)
Definition lanes : list Z := [0; 1; 2; 3].

(** Line 86 and line 128. *)
Definition lane_index (i_start threadIdx blockDim ii : Z) : Z :=
  i_start + threadIdx + ii * blockDim.

Fixpoint load_phase (multi_precision : bool) (n compute_group_size off : Z)
    (b : TensorBuffers) (ixs : list Z) : option (list Regs) :=
  match ixs with
  | [] => Some []
  | i :: ixs' =>
      r ← load_lane multi_precision n compute_group_size off b i;
      rs ← load_phase multi_precision n compute_group_size off b ixs';
      Some (r :: rs)
  end.

Fixpoint store_phase (multi_precision : bool) (n compute_group_size off : Z)
    (b : TensorBuffers) (ixs : list Z) (rs : list Regs)
    : option TensorBuffers :=
  match ixs, rs with
  | i :: ixs', r :: rs' =>
      b' ← store_lane multi_precision n compute_group_size off b i r;
      store_phase multi_precision n compute_group_size off b' ixs' rs'
  | _, _ => Some b
  end.

(** The state a thread threads through its loop: the tensor's buffers and
    the log of accesses made so far. *)
Definition ThreadState : Type := TensorBuffers * list Access.

(** One trip of the loop of line 78: the body for a given [i_start]. *)
Definition loop_body (h : Hyper MT) (multi_precision : bool)
    (n compute_group_size off threadIdx blockDim i_start : Z)
    (st : ThreadState) : Run ThreadState :=
  let ixs := lane_index i_start threadIdx blockDim <$> lanes in
  rs ← of_access
          (load_phase multi_precision n compute_group_size off st.1 ixs);
  let rs' := compute_lane h <$> rs in
  b' ← of_access
          (store_phase multi_precision n compute_group_size off st.1 ixs rs');
  Finished (b', st.2
                ++ (ixs ≫= lane_log Load n compute_group_size off)
                ++ (ixs ≫= lane_log Store n compute_group_size off)).

(** Lines 78-138.  The C loop has no fuel; [Timeout] is the answer when
    [fuel] trips are not enough. *)
Fixpoint element_loop (fuel : nat) (h : Hyper MT) (multi_precision : bool)
    (n compute_group_size off threadIdx blockDim i_start : Z)
    (st : ThreadState) : Run ThreadState :=
  if (i_start <? n) && (i_start <? compute_group_size) then
    match fuel with
    | O => Timeout
    | S fuel' =>
        st' ← loop_body h multi_precision n compute_group_size off
                 threadIdx blockDim i_start st;
        element_loop fuel' h multi_precision n compute_group_size off
          threadIdx blockDim (i_start + blockDim * PARALLEL_SIZE) st'
    end
  else Finished st.

(** [CudaKernelFunctor::operator()] for the thread [threadIdx] of block
    [blockIdx]: lines 50-52 read the scalars, lines 54-76 select the tensor
    and the compute group, then the loop runs on that tensor's buffers. *)
Definition CudaKernelFunctor (fuel : nat) (compute_group_size : Z)
    (tabi : TensorAndBlockInf) (beta1 beta2 : MT)
    (beta1_pow_ beta2_pow_ : list MT) (epsilon : MT)
    (learning_rate : list MT) (mode multi_precision : bool) (decay : MT)
    (blockIdx threadIdx blockDim : Z) (st : DeviceState)
    : Run DeviceState :=
  lr ← of_access (rd learning_rate 0);
  beta1_pow ← of_access (rd beta1_pow_ 0);
  beta2_pow ← of_access (rd beta2_pow_ 0);
  let h := {| h_beta1 := beta1; h_beta2 := beta2;
              h_beta1_pow := beta1_pow; h_beta2_pow := beta2_pow;
              h_epsilon := epsilon; h_lr := lr; h_mode := mode;
              h_decay := decay |} in
  tensor_id ← of_access (rd (tenosr_for_this_block tabi) blockIdx);
  cg ← of_access (rd (compute_group_for_this_block tabi) blockIdx);
  let compute_group_idx := cg + start_compute_group_this_tensor tabi in
  n ← of_access (rd (sizes tabi) tensor_id);
  b ← of_access (rd st.1 tensor_id);
  let off := compute_group_idx * compute_group_size in
  let n := n - off in
  r ← element_loop fuel h multi_precision n compute_group_size off
        threadIdx blockDim 0 (b, []);
  Finished (<[Z.to_nat tensor_id := r.1]> st.1,
            st.2 ++ (pair tensor_id <$> r.2)).

(** *** The sequential reading of the element loop *)

(** One element updated in place: lines 88-91, 101-124 and 130-135 at a
    single position. *)
Definition update_elem (h : Hyper MT) (multi_precision : bool) (j : Z)
    (b : TensorBuffers) : option TensorBuffers :=
  r ← read_elem multi_precision b j;
  write_elem multi_precision b j (compute_lane h r).

Fixpoint run_updates (h : Hyper MT) (multi_precision : bool) (js : list Z)
    (b : TensorBuffers) : option TensorBuffers :=
  match js with
  | [] => Some b
  | j :: js' =>
      b' ← update_elem h multi_precision j b;
      run_updates h multi_precision js' b'
  end.

(** The buffers after the stores of one element. *)
Definition put_elem (multi_precision : bool) (b : TensorBuffers) (j : Z)
    (r : Regs) : TensorBuffers :=
  {| buf_g := buf_g b;
     buf_p := <[Z.to_nat j := to_T (r_p r)]> (buf_p b);
     buf_m := <[Z.to_nat j := r_m r]> (buf_m b);
     buf_v := <[Z.to_nat j := r_v r]> (buf_v b);
     buf_mp := if multi_precision
               then <[Z.to_nat j := r_p r]> (buf_mp b)
               else buf_mp b |}.

(** What the four written buffers hold at position [j], and what the
    stores of registers [r] leave there. *)
Definition elem_view (multi_precision : bool) (b : TensorBuffers) (j : Z)
    : option T * option MT * option MT * option MT :=
  (rd (buf_p b) j, rd (buf_m b) j, rd (buf_v b) j,
   if multi_precision then rd (buf_mp b) j else None).

Definition stored_view (multi_precision : bool) (r : Regs)
    : option T * option MT * option MT * option MT :=
  (Some (to_T (r_p r)), Some (r_m r), Some (r_v r),
   if multi_precision then Some (r_p r) else None).

(** The invariant of the tensor group: the buffers of one tensor all hold
    [size] elements (the master copy when it is in use). *)
Definition wf_buffers (multi_precision : bool) (size : Z)
    (b : TensorBuffers) : Prop :=
  Z.of_nat (length (buf_g b)) = size /\
  Z.of_nat (length (buf_p b)) = size /\
  Z.of_nat (length (buf_m b)) = size /\
  Z.of_nat (length (buf_v b)) = size /\
  (multi_precision = true -> Z.of_nat (length (buf_mp b)) = size).

(** [b'] is [b] with every element updated once: the gradient is left
    alone, and each position holds what the stores of its own update
    leave. *)
Definition updated (h : Hyper MT) (multi_precision : bool)
    (b b' : TensorBuffers) : Prop :=
  buf_g b' = buf_g b /\
  wf_buffers multi_precision (Z.of_nat (length (buf_p b))) b' /\
  (multi_precision = false -> buf_mp b' = buf_mp b) /\
  forall j, 0 <= j < Z.of_nat (length (buf_p b)) ->
    exists r, read_elem multi_precision b j = Some r /\
      elem_view multi_precision b' j
      = stored_view multi_precision (compute_lane h r).

(** The positions a thread touches, trip by trip, following
    [element_loop]. *)
Fixpoint trips (fuel : nat)
    (n compute_group_size off threadIdx blockDim i_start : Z)
    : list (list Z) :=
  if (i_start <? n) && (i_start <? compute_group_size) then
    match fuel with
    | O => []
    | S fuel' =>
        ((lane_index i_start threadIdx blockDim <$> lanes)
           ≫= lane_pos n compute_group_size off)
        :: trips fuel' n compute_group_size off threadIdx blockDim
             (i_start + blockDim * PARALLEL_SIZE)
    end
  else [].

(** The log a thread leaves for its trips. *)
Definition trips_log (ts : list (list Z)) : list Access :=
  ts ≫= (fun zs => (Load <$> zs) ++ (Store <$> zs)).

(** The positions and the log of the work-unit of chunk [c] of a tensor of
    [size] elements: all the threads of the block, in order. *)
Definition block_positions (fuel : nat)
    (compute_group_size size c blockDim : Z) : list Z :=
  seqZ 0 blockDim ≫= fun threadIdx =>
    concat (trips fuel (size - c * compute_group_size) compute_group_size
              (c * compute_group_size) threadIdx blockDim 0).

Definition block_log (fuel : nat)
    (compute_group_size size c blockDim : Z) : list Access :=
  seqZ 0 blockDim ≫= fun threadIdx =>
    trips_log (trips fuel (size - c * compute_group_size) compute_group_size
                 (c * compute_group_size) threadIdx blockDim 0).

(** The same for a unit [(tensor_id, c)] of the mapping table: its trace,
    and the positions it touches in tensor [t]. *)
Definition unit_log (fuel : nat) (compute_group_size : Z) (sizes : list Z)
    (blockDim : Z) (u : Z * Z) : Trace :=
  pair u.1 <$> block_log fuel compute_group_size (default 0 (rd sizes u.1))
                 u.2 blockDim.

Definition unit_positions (fuel : nat) (compute_group_size : Z)
    (sizes : list Z) (blockDim : Z) (t : Z) (u : Z * Z) : list Z :=
  if decide (u.1 = t)
  then block_positions fuel compute_group_size (default 0 (rd sizes t))
         u.2 blockDim
  else [].

(** *** The launch *)

(** Modelled from the spec: [multi_tensor_adam_utility_kernel], the
    [__global__] entry of [multi_tensor_adam_utility_kernel.cuh], is not in
    the sources.  Every thread of every work-unit runs the functor; the
    work-units have no data dependency, so the grid is run block after
    block and thread after thread. *)
Definition multi_tensor_adam_utility_kernel (fuel : nat)
    (gridDim blockDim : Z) (compute_group_size : Z)
    (beta1 beta2 : MT) (beta1_pow_ beta2_pow_ : list MT) (epsilon : MT)
    (learning_rate : list MT) (mode multi_precision : bool) (decay : MT)
    (tabi : TensorAndBlockInf) (st : DeviceState) : Run DeviceState :=
  for_each (seqZ 0 gridDim) (fun blockIdx =>
    for_each (seqZ 0 blockDim) (fun threadIdx =>
      CudaKernelFunctor fuel compute_group_size tabi beta1 beta2 beta1_pow_
        beta2_pow_ epsilon learning_rate mode multi_precision decay
        blockIdx threadIdx blockDim)) st.

(** Modelled from the spec: the number of compute groups of a tensor of
    [numel] elements, the last one possibly partial. *)
Definition compute_groups (compute_group_size numel : Z) : Z :=
  (numel + compute_group_size - 1) / compute_group_size.

(** Modelled from the spec: the compute-group partition, one work-unit per
    (tensor, chunk) with a dense index, in tensor order. *)
Fixpoint partition (compute_group_size : Z) (tensor_id : Z)
    (numels : list Z) : list (Z * Z) :=
  match numels with
  | [] => []
  | numel :: rest =>
      ((fun c => (tensor_id, c))
         <$> seqZ 0 (compute_groups compute_group_size numel))
      ++ partition compute_group_size (tensor_id + 1) rest
  end.

(** The tensor lists handed to the launch: [tensor_and_block_inf] and
    [grads]. *)
Record TensorLists := {
  tl_grads : list (list T);
  tl_params : list (list T);
  tl_moments1 : list (list MT);
  tl_moments2 : list (list MT);
  tl_master : list (list MT)
}.

Definition gather (multi_precision : bool) (tl : TensorLists) (t : nat)
    : option TensorBuffers :=
  g ← tl_grads tl !! t;
  p ← tl_params tl !! t;
  m ← tl_moments1 tl !! t;
  v ← tl_moments2 tl !! t;
  mp ← (if multi_precision then tl_master tl !! t else Some []);
  Some {| buf_g := g; buf_p := p; buf_m := m; buf_v := v; buf_mp := mp |}.

Definition scatter {A : Type} (new old : list A) : list A :=
  new ++ drop (length new) old.

(** The invariant of the tensor group on the lists of a launch: every
    tensor of [params] has its gradient, its moments and (when in use) its
    master copy, all of its element count. *)
Definition wf_lists (multi_precision : bool) (tl : TensorLists) : Prop :=
  forall t, (t < length (tl_params tl))%nat ->
    exists b, gather multi_precision tl t = Some b /\
      wf_buffers multi_precision (Z.of_nat (length (buf_p b))) b.

(** Modelled from the spec: [multi_tensor_adam_utility], the host side of
    [multi_tensor_adam_utility_kernel.cuh], is not in the sources.  It
    builds the mapping table over the tensors of [params_out] and
    dispatches one work-unit per compute group in a single launch of
    [block_size] threads per unit. *)
Definition multi_tensor_adam_utility (fuel : nat) (block_size : Z)
    (compute_group_size : Z) (tl : TensorLists)
    (beta1 beta2 : MT) (beta1_pow_ beta2_pow_ : list MT) (epsilon : MT)
    (learning_rate : list MT) (mode multi_precision : bool) (decay : MT)
    : Run (TensorLists * Trace) :=
  bufs ← of_access
           (mapM (gather multi_precision tl) (seq 0 (length (tl_params tl))));
  let numels := (fun b => Z.of_nat (length (buf_p b))) <$> bufs in
  let units := partition compute_group_size 0 numels in
  let tabi := {| tenosr_for_this_block := fst <$> units;
                 compute_group_for_this_block := snd <$> units;
                 start_compute_group_this_tensor := 0;
                 sizes := numels |} in
  r ← multi_tensor_adam_utility_kernel fuel (Z.of_nat (length units))
        block_size compute_group_size beta1 beta2 beta1_pow_ beta2_pow_
        epsilon learning_rate mode multi_precision decay tabi (bufs, []);
  let bufs' := r.1 in
  Finished
    ({| tl_grads := tl_grads tl;
        tl_params := scatter (buf_p <$> bufs') (tl_params tl);
        tl_moments1 := scatter (buf_m <$> bufs') (tl_moments1 tl);
        tl_moments2 := scatter (buf_v <$> bufs') (tl_moments2 tl);
        tl_master := if multi_precision
                     then scatter (buf_mp <$> bufs') (tl_master tl)
                     else tl_master tl |}, r.2).

(** *** The kernel entry *)

(** [UpdateBetaPow]: every thread of the launch stores the same two
    products. *)
Definition UpdateBetaPow (beta1 beta2 : MT) (beta1_pow_ beta2_pow_ : list MT)
    (beta1_pow_out beta2_pow_out : list MT) : Run (list MT * list MT) :=
  b1 ← of_access (rd beta1_pow_ 0);
  o1 ← of_access (wr beta1_pow_out 0 (beta1 * b1)%W);
  b2 ← of_access (rd beta2_pow_ 0);
  o2 ← of_access (wr beta2_pow_out 0 (beta2 * b2)%W);
  Finished (o1, o2).

(** The read-only tensor arguments of [MultiTensorAdamKernel]. *)
Record Inputs := {
  params : list (list T);
  grads : list (list T);
  moments1 : list (list MT);
  moments2 : list (list MT);
  master_param : option (list (list MT));
  beta1_pow : list MT;
  beta2_pow : list MT;
  learning_rate : list MT;
  skip_update : option (list bool)
}.

(** The scalar arguments, after the conversions of lines 182-185. *)
Record Attrs := {
  beta1_ : MT;
  beta2_ : MT;
  epsilon_ : MT;
  compute_group_size : Z;
  weight_decay_ : MT;
  mode : bool;
  multi_precision : bool;
  use_global_beta_pow : bool
}.

(** The output tensors, which the kernel updates in place, and the
    device work it has launched. *)
Record Outputs := {
  params_out : list (list T);
  moments1_out : list (list MT);
  moments2_out : list (list MT);
  master_param_out : list (list MT);
  beta1_pow_out : list MT;
  beta2_pow_out : list MT;
  launched : Trace
}.

(** [phi::Copy(src, ..., dst[i])] into the [i]-th tensor of a vector. *)
Definition copy_to {A : Type} (src : option (list A)) (dst : list (list A))
    (i : Z) : Run (list (list A)) :=
  x ← of_access src;
  of_access (wr dst i x).

(** The body of the loop of lines 203-209. *)
Definition skip_copy (inp : Inputs) (i : Z) (o : Outputs) : Run Outputs :=
  p ← copy_to (rd (params inp) i) (params_out o) i;
  m ← copy_to (rd (moments1 inp) i) (moments1_out o) i;
  v ← copy_to (rd (moments2 inp) i) (moments2_out o) i;
  Finished {| params_out := p; moments1_out := m; moments2_out := v;
              master_param_out := master_param_out o;
              beta1_pow_out := beta1_pow_out o;
              beta2_pow_out := beta2_pow_out o;
              launched := launched o |}.

(** Lines 187-197. *)
Definition resolve_skip_update (inp : Inputs) : Run bool :=
  match skip_update inp with
  | None => Finished false
  | Some sk =>
      if Z.of_nat (length sk) =? 1
      then of_access (rd sk 0)
      else InvalidArgument (Z.of_nat (length sk))
  end.

(** The tensor lists of a launch, as lines 215-222 collect them. *)
Definition lists_of (inp : Inputs) (o : Outputs) : TensorLists :=
  {| tl_grads := grads inp;
     tl_params := params_out o;
     tl_moments1 := moments1_out o;
     tl_moments2 := moments2_out o;
     tl_master := master_param_out o |}.

Definition MultiTensorAdamKernel (fuel : nat) (inp : Inputs) (a : Attrs)
    (o : Outputs) : Run Outputs :=
  skip_update_ ← resolve_skip_update inp;
  if skip_update_ : bool then
    o' ← for_each (seqZ 0 (Z.of_nat (length (params inp))))
           (skip_copy inp) o;
    Finished {| params_out := params_out o';
                moments1_out := moments1_out o';
                moments2_out := moments2_out o';
                master_param_out := master_param_out o';
                beta1_pow_out := beta1_pow inp;
                beta2_pow_out := beta2_pow inp;
                launched := launched o' |}
  else
    let tl := lists_of inp o in
    r ← multi_tensor_adam_utility fuel BLOCK_SIZE (compute_group_size a) tl
          (beta1_ a) (beta2_ a) (beta1_pow inp) (beta2_pow inp) (epsilon_ a)
          (learning_rate inp) (mode a) (multi_precision a) (weight_decay_ a);
    let o' := {| params_out := tl_params r.1;
                 moments1_out := tl_moments1 r.1;
                 moments2_out := tl_moments2 r.1;
                 master_param_out := tl_master r.1;
                 beta1_pow_out := beta1_pow_out o;
                 beta2_pow_out := beta2_pow_out o;
                 launched := launched o ++ r.2 |} in
    if negb (use_global_beta_pow a) then
      bp ← UpdateBetaPow (beta1_ a) (beta2_ a) (beta1_pow inp)
             (beta2_pow inp) (beta1_pow_out o') (beta2_pow_out o');
      Finished {| params_out := params_out o';
                  moments1_out := moments1_out o';
                  moments2_out := moments2_out o';
                  master_param_out := master_param_out o';
                  beta1_pow_out := bp.1;
                  beta2_pow_out := bp.2;
                  launched := launched o' |}
    else Finished o'.

(** What a caller owes the update path: co-indexed tensors of equal
    element count, a positive chunk size, one-element scalar tensors, and
    (in the embedding) fuel for the longest element loop. *)
Definition update_ready (fuel : nat) (inp : Inputs) (a : Attrs)
    (o : Outputs) : Prop :=
  wf_lists (multi_precision a) (lists_of inp o) /\
  0 < compute_group_size a /\
  compute_group_size a <= Z.of_nat fuel /\
  is_Some (rd (learning_rate inp) 0) /\
  is_Some (rd (beta1_pow inp) 0) /\
  is_Some (rd (beta2_pow inp) 0) /\
  (use_global_beta_pow a = false ->
     0 < Z.of_nat (length (beta1_pow_out o)) /\
     0 < Z.of_nat (length (beta2_pow_out o))).

(** Element [j] of tensor [t] in a list of tensors. *)
Definition elem_at {A : Type} (l : list (list A)) (t : nat) (j : Z)
    : option A :=
  x ← l !! t; rd x j.




(** The inputs of a second call that is fed the outputs of a first. *)
Definition fed_back (inp : Inputs) (o : Outputs) : Inputs :=
  {| params := params_out o; grads := grads inp;
     moments1 := moments1_out o; moments2 := moments2_out o;
     master_param := master_param inp;
     beta1_pow := beta1_pow_out o; beta2_pow := beta2_pow_out o;
     learning_rate := learning_rate inp; skip_update := skip_update inp |}.

(** What a caller owes the skip path: all the tensor lists it copies share
    the count of [params]. *)
Definition skip_ready (inp : Inputs) (o : Outputs) : Prop :=
  length (moments1 inp) = length (params inp) /\
  length (moments2 inp) = length (params inp) /\
  length (params_out o) = length (params inp) /\
  length (moments1_out o) = length (params inp) /\
  length (moments2_out o) = length (params inp).

(** The scalars the functor works with in a launch of the kernel. *)
Definition hyper_of (inp : Inputs) (a : Attrs) (lr b1p b2p : MT) : Hyper MT :=
  {| h_beta1 := beta1_ a; h_beta2 := beta2_ a; h_beta1_pow := b1p;
     h_beta2_pow := b2p; h_epsilon := epsilon_ a; h_lr := lr;
     h_mode := mode a; h_decay := weight_decay_ a |}.

End Functor.

Arguments TensorBuffers : clear implicits.
Arguments TensorAndBlockInf : clear implicits.
Arguments Regs : clear implicits.
Arguments TensorLists : clear implicits.
Arguments Inputs : clear implicits.
Arguments Attrs : clear implicits.
Arguments Outputs : clear implicits.

End Adam.

(** ** The oneDNN matmul operator *)

Module MatMul.

Local Open Scope Z_scope.

(** *** Errors, and the state a kernel call works on *)

(** What a [PADDLE_ENFORCE] of the file reports, and the faults of the
    embedding: a missing attribute, a null output dereferenced, an index
    outside a vector, a shape without two trailing dimensions. *)
Inductive Error : Type :=
  | Unimplemented (head_number : Z)
  | InvalidArgument (i x_dim y_dim : Z)
  | AttrNotFound
  | NullPointer
  | OutOfRange
  | BadRank.

(** A computation on state [S] that may raise; the state it leaves behind
    is kept also when it raises, as the C++ objects are. *)
Definition M (S A : Type) : Type := S -> (Error + A) * S.

#[global] Instance M_ret {S : Type} : MRet (M S) := fun A a s => (inr a, s).

#[global] Instance M_bind {S : Type} : MBind (M S) := fun A B k m s =>
  match m s with
  | (inr a, s') => k a s'
  | (inl e, s') => (inl e, s')
  end.

Definition raise {S A : Type} (e : Error) : M S A := fun s => (inl e, s).

Definition get {S : Type} : M S S := fun s => (inr s, s).

Definition put {S : Type} (s' : S) : M S unit := fun _ => (inr tt, s').

Definition lift {S A : Type} (e : Error) (o : option A) : M S A :=
  match o with
  | Some a => mret a
  | None => raise e
  end.

Definition when {S : Type} (c : bool) (m : M S unit) : M S unit :=
  if c then m else mret tt.

(** *** Tensors and attributes *)

(** A dense tensor: its shape, its elements in storage order, and the
    shape of the memory descriptor last set on it.  Elements are integers:
    the arithmetic of the multiply is taken exact. *)
Record Tensor : Type := {
  dims : list Z;
  data : list Z;
  mem_desc : list Z
}.

Definition Resize (t : Tensor) (d : list Z) : Tensor :=
  {| dims := d; data := data t; mem_desc := mem_desc t |}.

Definition set_mem_desc (t : Tensor) (md : list Z) : Tensor :=
  {| dims := dims t; data := data t; mem_desc := md |}.

Definition rank (t : Tensor) : Z := Z.of_nat (length (dims t)).

(** The attributes the kernels read from the execution context; an
    attribute the op does not carry is [None]. *)
Record Attrs : Type := {
  head_number : option Z;
  trans_x : option bool;
  trans_y : option bool;
  transpose_X : option bool;
  transpose_Y : option bool;
  fused_reshape_X : list Z;
  fused_transpose_X : list Z;
  fused_reshape_Y : list Z;
  fused_transpose_Y : list Z;
  fused_reshape_Out : list Z;
  fused_transpose_Out : list Z;
  force_fp32_output : option bool;
  alpha : option Z
}.

(** The value [ctx.HasAttr(a) ? ctx.Attr(a) : ctx.Attr(b)] reads, if
    any. *)
Definition attr_value {A : Type} (a b : option A) : option A :=
  match a with
  | Some v => Some v
  | None => b
  end.

(** [ctx.HasAttr(a) ? ctx.Attr(a) : ctx.Attr(b)]. *)
Definition attr_or {S A : Type} (a b : option A) : M S A :=
  match a with
  | Some v => mret v
  | None => lift AttrNotFound b
  end.

(** Lines 389-397 and 524-532. *)
Definition check_head_number {S : Type} (ctx : Attrs) : M S unit :=
  match head_number ctx with
  | Some n => if n =? 1 then mret tt else raise (Unimplemented n)
  | None => mret tt
  end.

(** [IsOutputFused]. *)
Definition IsOutputFused (ctx : Attrs) : bool :=
  negb (bool_decide (fused_reshape_Out ctx = []))
  && negb (bool_decide (fused_transpose_Out ctx = [])).

(** *** Matrix descriptors *)

Record MatDescriptor : Type := {
  height_ : Z;
  width_ : Z;
  batch_size_ : Z;
  trans_ : bool
}.

Definition product (ds : list Z) : Z := foldr Z.mul 1 ds.

(** Modelled from the spec: [phi::funcs::CreateMatrixDescriptor] is
    declared in the blas headers, which are not in the sources.  The
    descriptor has the trailing two dimensions as height and width, swapped
    under [trans], and the product of the leading dimensions as batch size;
    a matrix has batch size 0, which is what the callers test for.  Every
    call in this file passes [num_flatten_cols = 0]. *)
Definition CreateMatrixDescriptor (tensor_dim : list Z)
    (num_flatten_cols : Z) (trans : bool) : option MatDescriptor :=
  match rev tensor_dim with
  | w :: h :: lead =>
      Some {| height_ := if trans then w else h;
              width_ := if trans then h else w;
              batch_size_ := match lead with
                             | [] => 0
                             | _ => product lead
                             end;
              trans_ := trans |}
  | _ => None
  end.

(** Modelled from the spec: [phi::funcs::RowMatrixDimsFromVector] and
    [ColumnMatrixDimsFromVector], declared in the blas headers: a vector on
    the left is a row, a vector on the right is a column. *)
Definition RowMatrixDimsFromVector (x_dim : list Z) : list Z :=
  match x_dim with
  | [n] => [1; n]
  | _ => x_dim
  end.

Definition ColumnMatrixDimsFromVector (y_dim : list Z) : list Z :=
  match y_dim with
  | [n] => [n; 1]
  | _ => y_dim
  end.

(** [ReshapeTensorToMatrixSequence]. *)
Definition ReshapeTensorToMatrixSequence (x : Tensor)
    (descriptor : MatDescriptor) : Tensor :=
  let h := height_ descriptor in
  let w := width_ descriptor in
  let '(h, w) := if trans_ descriptor then (w, h) else (h, w) in
  if batch_size_ descriptor =? 0
  then Resize x [h; w]
  else Resize x [batch_size_ descriptor; h; w].

(** [ReshapeXYOutToMatrixSequence]: the reshaped [(x, y, out)]. *)
Definition ReshapeXYOutToMatrixSequence (x y out : Tensor)
    (trans_x trans_y : bool) : option (Tensor * Tensor * Tensor) :=
  let x_dim := RowMatrixDimsFromVector (dims x) in
  let y_dim := ColumnMatrixDimsFromVector (dims y) in
  mat_dim_x ← CreateMatrixDescriptor x_dim 0 trans_x;
  mat_dim_y ← CreateMatrixDescriptor y_dim 0 trans_y;
  let out' :=
    if (batch_size_ mat_dim_x =? 0) && (batch_size_ mat_dim_y =? 0)
    then Resize out [height_ mat_dim_x; width_ mat_dim_y]
    else Resize out [Z.max (batch_size_ mat_dim_x) (batch_size_ mat_dim_y);
                     height_ mat_dim_x; width_ mat_dim_y] in
  Some (ReshapeTensorToMatrixSequence x mat_dim_x,
        ReshapeTensorToMatrixSequence y mat_dim_y, out').

(** *** The handler and the primitive *)

(** A oneDNN memory descriptor: extents and strides of a 3-D view. *)
Record MemDesc : Type := {
  md_dims : Z * Z * Z;
  md_strides : Z * Z * Z
}.

(** What the constructor of [MatMulMKLDNNHandler] hands to
    [AcquireForwardPrimitiveDescriptor]. *)
Record Handler : Type := {
  x_md : MemDesc;
  y_md : MemDesc;
  out_md : MemDesc;
  output_scale : option Z
}.

(** The constructor, lines 92-132. *)
Definition MatMulMKLDNNHandler (x : Tensor) (trans_x : bool) (y : Tensor)
    (trans_y : bool) (out : Tensor) (scale : Z) : option Handler :=
  mat_dim_x ← CreateMatrixDescriptor (dims x) 0 trans_x;
  mat_dim_y ← CreateMatrixDescriptor (dims y) 0 trans_y;
  let x_bs := batch_size_ mat_dim_x in
  let y_bs := batch_size_ mat_dim_y in
  let out_bs := if negb (x_bs =? 0) || negb (y_bs =? 0)
                then Z.max x_bs y_bs else 1 in
  let M := height_ mat_dim_x in
  let N := width_ mat_dim_y in
  let K := width_ mat_dim_x in
  let x_dims := (if 0 <? x_bs then x_bs else 1, M, K) in
  let y_dims := (if 0 <? y_bs then y_bs else 1, K, N) in
  let out_dims := (out_bs, M, N) in
  let x_strides := if negb trans_x then (M * K, K, 1) else (M * K, 1, M) in
  let y_strides := if negb trans_y then (N * K, N, 1) else (N * K, 1, K) in
  let out_strides := (M * N, N, 1) in
  Some {| x_md := {| md_dims := x_dims; md_strides := x_strides |};
          y_md := {| md_dims := y_dims; md_strides := y_strides |};
          out_md := {| md_dims := out_dims; md_strides := out_strides |};
          output_scale := if scale =? 1 then None else Some scale |}.

(** The element of a strided view of a buffer; a view of batch extent 1 is
    shared by all the batches of the product. *)
Definition view_at (md : MemDesc) (buf : list Z) (b i j : Z) : Z :=
  let '(bs, _, _) := md_dims md in
  let '(s0, s1, s2) := md_strides md in
  let b := if bs =? 1 then 0 else b in
  nth (Z.to_nat (b * s0 + i * s1 + j * s2)) buf 0.

Definition sum_over (K : Z) (f : Z -> Z) : Z :=
  foldr Z.add 0 (f <$> seqZ 0 K).

Definition scaled (s : option Z) (v : Z) : Z :=
  match s with
  | Some c => c * v
  | None => v
  end.

(** The contract of the [dnnl::matmul] primitive of the backend library,
    for the descriptors of a handler: the destination, in its row-major
    order, holds the scaled strided batched product. *)
Definition matmul_primitive (h : Handler) (src weights : list Z) : list Z :=
  let '(out_bs, M, N) := md_dims (out_md h) in
  let '(_, _, K) := md_dims (x_md h) in
  b ← seqZ 0 out_bs;
  i ← seqZ 0 M;
  j ← seqZ 0 N;
  [scaled (output_scale h)
     (sum_over K (fun k => view_at (x_md h) src b i k
                           * view_at (y_md h) weights b k j))].

(** One call of [matmul_p->execute]: the descriptors it ran with. *)
Record Execution : Type := {
  ex_handler : Handler
}.

(** *** [MatMulMKLDNNHandler::Execute] *)





(** *** The gradient kernel *)

Section Grad.

(** The contract of the backend reorder of [FoldFirstAndLastDims], from
    format [abc] to format [bac] over the given extents: the data it
    leaves in the new buffer. *)
Variable reorder_abc_bac : list Z -> list Z -> list Z.

(** [FoldOuterDims]. *)
Definition FoldOuterDims (input : Tensor) : Tensor :=
  match dims input with
  | [d0; d1; d2] => Resize input [d0 * d1; d2]
  | _ => input
  end.

(** [FoldFirstAndLastDims]. *)
Definition FoldFirstAndLastDims (input : Tensor) : Tensor :=
  match dims input with
  | [d0; d1; d2] =>
      {| dims := [d1; d0 * d2];
         data := reorder_abc_bac [d1; d0; d2] (data input);
         mem_desc := [d1; d0; d2] |}
  | _ => input
  end.

(** The outputs of the gradient kernel, null when not requested, and the
    executions of the primitive so far. *)
Record GradState : Type := {
  dx : option Tensor;
  dy : option Tensor;
  executed : list Execution
}.

(** Which output pointer a call of [ExecuteMatMulGrad] was given. *)
Inductive OutSel : Type := DX | DY.

Definition out_of (sel : OutSel) (st : GradState) : option Tensor :=
  match sel with
  | DX => dx st
  | DY => dy st
  end.

Definition set_out (sel : OutSel) (t : Tensor) (st : GradState) : GradState :=
  match sel with
  | DX => {| dx := Some t; dy := dy st; executed := executed st |}
  | DY => {| dx := dx st; dy := Some t; executed := executed st |}
  end.

Definition log_execution (h : Handler) (st : GradState) : GradState :=
  {| dx := dx st; dy := dy st;
     executed := executed st ++ [{| ex_handler := h |}] |}.

(** [ExecuteMatMulGrad], lines 641-694. *)
Definition ExecuteMatMulGrad (ctx : Attrs) (x : Tensor)
    (trans_x is_fold_init_dims_x : bool) (y : Tensor)
    (trans_y is_fold_init_dims_y : bool) (sel : OutSel) : M GradState unit :=
  st ← get;
  out ← lift NullPointer (out_of sel st);
  let need_combine :=
    ((rank x =? 3) || (rank y =? 3)) && (rank out =? 2) in
  let x_combined :=
    if negb need_combine then x
    else if is_fold_init_dims_x then FoldOuterDims x
         else FoldFirstAndLastDims x in
  let y_combined :=
    if negb need_combine then y
    else if is_fold_init_dims_y then FoldOuterDims y
         else FoldFirstAndLastDims y in
  let alpha := default 1 (alpha ctx) in
  handler ← lift BadRank
              (MatMulMKLDNNHandler x_combined trans_x y_combined trans_y out
                 alpha);
  let dst := matmul_primitive handler (data x_combined) (data y_combined) in
  put (log_execution handler
         (set_out sel {| dims := dims out; data := dst;
                         mem_desc := dims out |} st)).

(** Lines 556-570: an output is resized to the shape of its operand. *)
Definition resize_to (sel : OutSel) (x : Tensor) : M GradState (list Z) :=
  st ← get;
  match out_of sel st with
  | Some d =>
      _ ← when (negb (bool_decide (dims d = dims x)))
            (put (set_out sel (Resize d (dims x)) st));
      mret (dims d)
  | None => mret []
  end.

(** Lines 626-637: and back to its declared shape. *)
Definition restore_dims (sel : OutSel) (d_dims : list Z) (x : Tensor)
    : M GradState unit :=
  st ← get;
  match out_of sel st with
  | Some d =>
      when (negb (bool_decide (d_dims = dims x)))
        (put (set_out sel (set_mem_desc (Resize d d_dims) (mem_desc x)) st))
  | None => mret tt
  end.

(** [MatMulGradMKLDNNKernel::Compute], lines 523-638. *)
Definition MatMulGrad_Compute (ctx : Attrs) (x0 y0 dout0 : Tensor)
    : M GradState unit :=
  _ ← check_head_number ctx;
  transpose_x ← attr_or (transpose_X ctx) (trans_x ctx);
  transpose_y ← attr_or (transpose_Y ctx) (trans_y ctx);
  r ← lift BadRank
        (ReshapeXYOutToMatrixSequence x0 y0 dout0 transpose_x transpose_y);
  let '(x, y, dout) := r in
  dx_dims ← resize_to DX x;
  dy_dims ← resize_to DY y;
  _ ← (if transpose_x && transpose_y then
         _ ← ExecuteMatMulGrad ctx y true true dout true false DX;
         ExecuteMatMulGrad ctx dout true true x true false DY
       else if transpose_x then
         _ ← ExecuteMatMulGrad ctx y false false dout true false DX;
         ExecuteMatMulGrad ctx x false false dout false true DY
       else if transpose_y then
         _ ← ExecuteMatMulGrad ctx dout false false y false true DX;
         ExecuteMatMulGrad ctx dout true true x false true DY
       else
         _ ← ExecuteMatMulGrad ctx dout false false y true false DX;
         ExecuteMatMulGrad ctx x true true dout false true DY);
  _ ← restore_dims DX dx_dims x;
  restore_dims DY dy_dims y.

End Grad.

(** *** The table of the specification *)

(** The element [(r, c)] of a matrix stored row-major. *)
Definition mat_at (t : Tensor) (r c : Z) : Z :=
  match dims t with
  | [_; cols] => nth (Z.to_nat (r * cols + c)) (data t) 0
  | _ => 0
  end.

(** A factor of a product: a matrix, taken transposed or not. *)
Definition factor_rows (t : Tensor) (tr : bool) : Z :=
  match dims t with
  | [r; c] => if tr then c else r
  | _ => 0
  end.

Definition factor_cols (t : Tensor) (tr : bool) : Z :=
  match dims t with
  | [r; c] => if tr then r else c
  | _ => 0
  end.

Definition factor_at (t : Tensor) (tr : bool) (i k : Z) : Z :=
  if tr then mat_at t k i else mat_at t i k.

(** The matrix product of two factors, row-major. *)
Definition mat_product (A : Tensor) (tA : bool) (B : Tensor) (tB : bool)
    : list Z :=
  i ← seqZ 0 (factor_rows A tA);
  j ← seqZ 0 (factor_cols B tB);
  [sum_over (factor_cols A tA)
     (fun k => factor_at A tA i k * factor_at B tB k j)].






(** The output scale an [alpha] attribute stands for: none when the
    attribute is absent or is 1. *)
Definition alpha_scale (alpha : option Z) : option Z :=
  match alpha with
  | Some v => if v =? 1 then None else Some v
  | None => None
  end.


(** An output brought back to its declared shape, lines 626-637. *)
Definition restored (d : Tensor) (d_dims : list Z) (x : Tensor) : Tensor :=
  if bool_decide (d_dims = dims x) then d
  else set_mem_desc (Resize d d_dims) (mem_desc x).

(** *** The forward kernel *)

(** The element type [T] of a kernel instance and the output type
    [T_out] it executes with. *)
Inductive ElemType : Type := Float32 | BFloat16 | Int8 | UInt8.

Inductive OutType : Type := OutFloat | OutBFloat16 | OutUInt8 | OutInt8.

Definition is_int8 (T : ElemType) : bool :=
  match T with
  | Int8 | UInt8 => true
  | _ => false
  end.

Definition is_bfloat16 (T : ElemType) : bool :=
  match T with
  | BFloat16 => true
  | _ => false
  end.

(** The output of the forward kernel and the executions so far. *)
Record FwdState : Type := {
  out : Tensor;
  fwd_executed : list OutType
}.

(** A loop over indices that threads a value through [M]. *)
Fixpoint for_loop {S A : Type} (ixs : list Z) (body : Z -> A -> M S A)
    (a : A) : M S A :=
  match ixs with
  | [] => mret a
  | i :: ixs' => a' ← body i a; for_loop ixs' body a'
  end.

Definition len (v : list Z) : Z := Z.of_nat (length v).

(** Lines 477-486 for [x] and 487-496 for [y]: the shape is written into
    the tail of the broadcast vector.  [slot1] is where a vector's only
    extent goes: the last slot for [x], the slot before it for [y] (line
    488 indexes with the size of [x_bd_dims]). *)
Definition place_dims (v_dims bd_dims : list Z) (slot1 : Z)
    : option (list Z) :=
  if len v_dims =? 1 then
    d0 ← rd v_dims 0;
    wr bd_dims slot1 d0
  else if len v_dims =? 2 then
    d1 ← rd v_dims 1;
    bd ← wr bd_dims (len bd_dims - 1) d1;
    d0 ← rd v_dims 0;
    wr bd (len bd - 2) d0
  else
    foldl (fun acc i =>
             bd ← acc;
             d ← rd v_dims i;
             wr bd (len bd - len v_dims + i) d)
      (Some bd_dims) (seqZ 0 (len v_dims)).

(** The shape right-aligned in [ndims] slots, the leading ones filled with
    1; the rank both operands are brought to; and when two extents
    broadcast. *)
Definition bd_dims (ndims : Z) (v_dims : list Z) : list Z :=
  replicate (Z.to_nat ndims - length v_dims) 1 ++ v_dims.

Definition ndims_of (x_dims y_dims : list Z) : Z :=
  Z.max (Z.max (len x_dims) (len y_dims)) 3.

Definition compatible (xd yd : Z) : bool :=
  (xd =? yd) || (xd =? 1) || (yd =? 1).

(** The body of the loop of lines 500-514. *)
Definition check_batch_dim (x_bd_dims y_bd_dims : list Z) (i : Z)
    (out_dims : list Z) : M FwdState (list Z) :=
  xd ← lift OutOfRange (rd x_bd_dims i);
  yd ← lift OutOfRange (rd y_bd_dims i);
  if (xd =? yd) || (xd =? 1) || (yd =? 1)
  then lift OutOfRange (wr out_dims i (Z.max xd yd))
  else raise (InvalidArgument i xd yd).

(** [MatMulV2MKLDNNKernel::CalculateMatrixDims], lines 471-517; the two
    broadcast vectors it fills are returned. *)
Definition CalculateMatrixDims (ctx : Attrs) (x_dims y_dims : list Z)
    (x_bd_dims y_bd_dims : list Z) : M FwdState (list Z * list Z) :=
  x_bd ← lift OutOfRange
           (place_dims x_dims x_bd_dims (len x_bd_dims - 1));
  y_bd ← lift OutOfRange
           (place_dims y_dims y_bd_dims (len x_bd - 2));
  _ ← when (negb (IsOutputFused ctx) && (2 <? len x_dims)
            && (2 <? len y_dims))
        (st ← get;
         out_dims ← for_loop (seqZ 0 (len x_bd - 2))
                      (check_batch_dim x_bd y_bd) (dims (out st));
         put {| out := Resize (out st) out_dims;
                fwd_executed := fwd_executed st |});
  mret (x_bd, y_bd).

Section Forward.

(** [DDim::reshape] and [DDim::transpose], declared with [phi::DDim]. *)
Variable ddim_reshape : list Z -> list Z -> list Z.
Variable ddim_transpose : list Z -> list Z -> list Z.

(** [ExecuteMatMulV2<T, T_out>], lines 328-383, runs the primitive of
    [MatMulV2MKLDNNHandler], a class of [mkldnn_reuse.h] that is not in
    the sources: its effect on the output is a parameter. *)
Variable ExecuteMatMulV2 :
  OutType -> Attrs -> Tensor -> list Z -> bool -> Tensor -> list Z -> bool ->
  M FwdState unit.

(** [GetDimForInput]. *)
Definition GetDimForInput (shape axis : list Z) (input : Tensor) : list Z :=
  if negb (bool_decide (shape = [])) && negb (bool_decide (axis = []))
  then ddim_transpose (ddim_reshape (dims input) shape) axis
  else dims input.

(** [MatMulV2MKLDNNKernel<T>::Compute], lines 388-468. *)
Definition MatMulV2_Compute (T : ElemType) (ctx : Attrs) (x y : Tensor)
    : M FwdState unit :=
  _ ← check_head_number ctx;
  let force_fp32_output := default false (force_fp32_output ctx) in
  let fuse_relu := false in
  trans_x ← attr_or (trans_x ctx) (transpose_X ctx);
  trans_y ← attr_or (trans_y ctx) (transpose_Y ctx);
  let x_dims :=
    GetDimForInput (fused_reshape_X ctx) (fused_transpose_X ctx) x in
  let y_dims :=
    GetDimForInput (fused_reshape_Y ctx) (fused_transpose_Y ctx) y in
  let ndims := ndims_of x_dims y_dims in
  let x_bd_dims := replicate (Z.to_nat ndims) 1 in
  let y_bd_dims := replicate (Z.to_nat ndims) 1 in
  bd ← CalculateMatrixDims ctx x_dims y_dims x_bd_dims y_bd_dims;
  let '(x_bd_dims, y_bd_dims) := bd in
  if force_fp32_output || (negb (is_int8 T) && negb (is_bfloat16 T)) then
    ExecuteMatMulV2 OutFloat ctx x x_bd_dims trans_x y y_bd_dims trans_y
  else if is_bfloat16 T then
    ExecuteMatMulV2 OutBFloat16 ctx x x_bd_dims trans_x y y_bd_dims trans_y
  else if fuse_relu then
    ExecuteMatMulV2 OutUInt8 ctx x x_bd_dims trans_x y y_bd_dims trans_y
  else
    ExecuteMatMulV2 OutInt8 ctx x x_bd_dims trans_x y y_bd_dims trans_y.

End Forward.

(** *** Stride overrides of the fused inputs *)

(** What [Transpose] reports, in the order of its three checks, and the
    fault of an index outside a vector. *)
Inductive TransposeError : Type :=
  | AxisNotUnique
  | AxisSizeMismatch (in_rank axis_size : Z)
  | AxisTooLarge
  | BadIndex.

(** An [int] converted to [size_t], as the operands of a comparison with a
    vector's size are. *)
Definition size_t_of (v : Z) : Z := v mod 2 ^ 64.

(** The value [std::max_element] points at; there is nothing to
    dereference on an empty range. *)
Definition max_element (l : list Z) : option Z :=
  match l with
  | [] => None
  | a :: l' => Some (foldl Z.max a l')
  end.

(** [Transpose], lines 250-281.  [axis_set] keeps one copy of each
    element of [axis]. *)
Definition Transpose (x axis : list Z) : TransposeError + list Z :=
  let in_rank := len x in
  let axis_size := len axis in
  let axis_set := remove_dups axis in
  if negb (len axis_set =? axis_size) then inl AxisNotUnique
  else if negb (in_rank =? axis_size)
  then inl (AxisSizeMismatch in_rank axis_size)
  else
    match max_element axis with
    | None => inl BadIndex
    | Some largest =>
        if negb (size_t_of largest <? axis_size) then inl AxisTooLarge
        else
          match mapM (fun i => a ← rd axis i; rd x a) (seqZ 0 (len x)) with
          | Some new_x => inr new_x
          | None => inl BadIndex
          end
    end.

(** An [axis] that [Transpose] accepts for a vector of [n] entries: each of
    the positions [0 .. n-1] once. *)
Definition axis_of_rank (n : Z) (axis : list Z) : Prop :=
  NoDup axis /\ len axis = n /\ Forall (fun a => 0 <= a < n) axis.

(** Lines 307-311: starting from [{1}], the stride of each
    dimension of [shape2] but the first is pushed to the front. *)
Definition push_stride (shape2 : list Z) (strides : option (list Z))
    (i : Z) : option (list Z) :=
  s ← strides;
  front ← rd s 0;
  d ← rd shape2 i;
  Some (front * d :: s).

Definition shape_strides (shape2 : list Z) : option (list Z) :=
  foldl (push_stride shape2) (Some [1]) (reverse (seqZ 1 (len shape2 - 1))).

(** The [std::swap] of line 317: the last two entries of [strides]
    change places. *)
Definition swap_last_two (strides : list Z) : option (list Z) :=
  match reverse strides with
  | a :: b :: rest => Some (reverse (b :: a :: rest))
  | _ => None
  end.

(** The two inputs [GetInputStrides] is called for. *)
Inductive InputName : Type := InputX | InputY.

(** The transposition attribute of lines 299-302: the family is chosen by
    the presence of [trans_x], for either input. *)
Definition trans_attr (ctx : Attrs) (input_name : InputName)
    : option bool :=
  match trans_x ctx with
  | Some _ =>
      match input_name with
      | InputX => trans_x ctx
      | InputY => trans_y ctx
      end
  | None =>
      match input_name with
      | InputX => transpose_X ctx
      | InputY => transpose_Y ctx
      end
  end.

(** What stops [GetInputStrides]. *)
Inductive StridesError : Type :=
  | MissingAttr
  | NoDescriptor
  | TransposeFailed (e : TransposeError)
  | BadStride.

Section Strides.

(** [DDim::reshape] and [DDim::transpose], as in the forward kernel. *)
Variable ddim_reshape : list Z -> list Z -> list Z.
Variable ddim_transpose : list Z -> list Z -> list Z.

(** [GetInputStrides], lines 283-320.  The descriptor is built for its
    [trans_] field alone; the store to its [stride_] reads [strides[0]]. *)
Definition GetInputStrides (ctx : Attrs) (input_name : InputName)
    (input : Tensor) : StridesError + list Z :=
  let shape := match input_name with
               | InputX => fused_reshape_X ctx
               | InputY => fused_reshape_Y ctx
               end in
  let axis := match input_name with
              | InputX => fused_transpose_X ctx
              | InputY => fused_transpose_Y ctx
              end in
  let input_dims := dims input in
  let new_dims :=
    if negb (bool_decide (shape = [])) && negb (bool_decide (axis = []))
    then ddim_transpose (ddim_reshape input_dims shape) axis
    else input_dims in
  let MatrixDimsFromVector :=
    match input_name with
    | InputX => RowMatrixDimsFromVector
    | InputY => ColumnMatrixDimsFromVector
    end in
  match trans_attr ctx input_name with
  | None => inl MissingAttr
  | Some trans =>
      match CreateMatrixDescriptor (MatrixDimsFromVector new_dims) 0 trans
      with
      | None => inl NoDescriptor
      | Some mat_dim =>
          if bool_decide (shape = []) then inr []
          else
            let shape2 := ddim_reshape input_dims shape in
            match shape_strides shape2 with
            | None => inl BadStride
            | Some strides =>
                match Transpose strides axis with
                | inl e => inl (TransposeFailed e)
                | inr strides =>
                    let strides :=
                      if len shape =? 2
                      then default 0 (rd shape 0) * default 0 (rd shape 1)
                           :: strides
                      else strides in
                    match rd strides 0 with
                    | None => inl BadStride
                    | Some _ =>
                        if trans_ mat_dim
                        then match swap_last_two strides with
                             | Some s => inr s
                             | None => inl BadStride
                             end
                        else inr strides
                    end
                end
            end
      end
  end.

End Strides.

(** *** Element access for batched operands *)

(** The element [(p, r, c)] of a rank-3 tensor stored row-major. *)
Definition tensor3_at (t : Tensor) (p r c : Z) : Z :=
  match dims t with
  | [_; rows; cols] => nth (Z.to_nat ((p * rows + r) * cols + c)) (data t) 0
  | _ => 0
  end.

End MatMul.

(** ** Sample calls *)

(** Small calls of the two kernels, on which the statements below are
    exercised. *)
Module Samples.

Import Adam.

Local Open Scope R_scope.

Definition adam_inp (skip : option (list bool)) : Inputs R R :=
  {| params := [[1; 2; 3]];
     grads := [[1; 1; 1]];
     moments1 := [[0; 0; 0]];
     moments2 := [[0; 0; 0]];
     master_param := Some [[5; 5; 5]];
     beta1_pow := [1 / 2];
     beta2_pow := [1 / 2];
     learning_rate := [1];
     skip_update := skip |}.

Definition adam_attrs (multi_precision use_global : bool) : Attrs R :=
  {| beta1_ := 1 / 2;
     beta2_ := 1 / 2;
     epsilon_ := 1;
     compute_group_size := 2;
     weight_decay_ := 0;
     mode := false;
     multi_precision := multi_precision;
     use_global_beta_pow := use_global |}.

Definition adam_out : Outputs R R :=
  {| params_out := [[1; 2; 3]];
     moments1_out := [[0; 0; 0]];
     moments2_out := [[0; 0; 0]];
     master_param_out := [[7; 7; 7]];
     beta1_pow_out := [0];
     beta2_pow_out := [0];
     launched := [] |}.

Import MatMul.

Local Open Scope Z_scope.

Definition matrix (d : list Z) (l : list Z) : Tensor :=
  {| dims := d; data := l; mem_desc := d |}.

Definition matmul_ctx (head : option Z) (tx ty : bool)
    (fused_out : list Z) : MatMul.Attrs :=
  {| head_number := head;
     trans_x := Some tx;
     trans_y := Some ty;
     transpose_X := None;
     transpose_Y := None;
     fused_reshape_X := [];
     fused_transpose_X := [];
     fused_reshape_Y := [];
     fused_transpose_Y := [];
     fused_reshape_Out := fused_out;
     fused_transpose_Out := fused_out;
     force_fp32_output := None;
     alpha := None |}.

Definition mat_x : Tensor := matrix [2; 2] [1; 2; 3; 4].
Definition mat_y : Tensor := matrix [2; 2] [5; 6; 7; 8].
Definition mat_dout : Tensor := matrix [2; 2] [1; 0; 2; 3].

Definition grad_state : GradState :=
  {| dx := Some (matrix [2; 2] [0; 0; 0; 0]);
     dy := Some (matrix [2; 2] [0; 0; 0; 0]);
     executed := [] |}.

Definition fwd_state (d : list Z) : FwdState :=
  {| out := matrix d []; fwd_executed := [] |}.

(** A reorder and a forward execution to stand for the backend where a
    sample needs one. *)
Definition no_reorder (d src : list Z) : list Z := src.

Definition no_reshape (d shape : list Z) : list Z := d.

Definition no_execute (t : OutType) (ctx : MatMul.Attrs) (x : Tensor)
    (x_dims : list Z) (trans_x : bool) (y : Tensor) (y_dims : list Z)
    (trans_y : bool) : M FwdState unit :=
  mret tt.

End Samples.

(** Further calls, with fused inputs and batched operands. *)
Module Cases.

Import MatMul.

Local Open Scope Z_scope.

Definition fused_ctx (reshape_X transpose_X' reshape_Y transpose_Y' : list Z)
    (tx ty tX tY : option bool) : Attrs :=
  {| head_number := None;
     trans_x := tx;
     trans_y := ty;
     transpose_X := tX;
     transpose_Y := tY;
     fused_reshape_X := reshape_X;
     fused_transpose_X := transpose_X';
     fused_reshape_Y := reshape_Y;
     fused_transpose_Y := transpose_Y';
     fused_reshape_Out := [];
     fused_transpose_Out := [];
     force_fp32_output := None;
     alpha := None |}.

(** A reshape to a fully given shape, and the permutation of a shape, to
    stand for the two [DDim] methods. *)
Definition reshape_to (d shape : list Z) : list Z := shape.

Definition permute_dims (d axis : list Z) : list Z :=
  (fun a => nth (Z.to_nat a) d 0) <$> axis.

Definition batch_x : Tensor :=
  {| dims := [2; 1; 2]; data := [1; 2; 3; 4]; mem_desc := [2; 1; 2] |}.

Definition batch_dout : Tensor :=
  {| dims := [2; 1; 2]; data := [1; 0; 2; 3]; mem_desc := [2; 1; 2] |}.

Definition batch_grad_state : GradState :=
  {| dx := Some {| dims := [2; 1; 2]; data := [0; 0; 0; 0];
                   mem_desc := [2; 1; 2] |};
     dy := Some {| dims := [2; 2]; data := [0; 0; 0; 0];
                   mem_desc := [2; 2] |};
     executed := [] |}.

End Cases.

(** * Properties *)

#[global] Instance R_laws : WideLaws R.
Proof.
  split; simpl; intros; unfold Rdiv; ring.
Qed.

Section ElementFacts.

Context {MT : Type} `{WideLaws MT}.

Local Open Scope wide_scope.



End ElementFacts.

(** ** Array accesses *)

Section BufferFacts.
Context {A : Type}.
Implicit Types (b : list A) (j k : Z).
Local Open Scope Z_scope.

Lemma rd_in_range b j : 0 <= j < Z.of_nat (length b) -> is_Some (rd b j).
Proof.
  intros Hj. unfold rd. destruct (Z.ltb_spec j 0); [lia|].
  apply lookup_lt_is_Some. lia.
Qed.

Lemma rd_Some_range b j x : rd b j = Some x -> 0 <= j < Z.of_nat (length b).
Proof.
  unfold rd. destruct (Z.ltb_spec j 0); [discriminate|].
  intros Hl. apply lookup_lt_Some in Hl. lia.
Qed.

Lemma wr_in_range b j x :
  0 <= j < Z.of_nat (length b) -> wr b j x = Some (<[Z.to_nat j := x]> b).
Proof.
  intros Hj. unfold wr.
  destruct (Z.leb_spec 0 j); [|lia].
  destruct (Z.ltb_spec j (Z.of_nat (length b))); [reflexivity|lia].
Qed.

Lemma wr_Some_range b j x b' : wr b j x = Some b' -> 0 <= j < Z.of_nat (length b).
Proof.
  unfold wr.
  destruct (Z.leb_spec 0 j); simpl; [|discriminate].
  destruct (Z.ltb_spec j (Z.of_nat (length b))); [lia|discriminate].
Qed.

Lemma rd_insert b j k x :
  0 <= j < Z.of_nat (length b) ->
  rd (<[Z.to_nat j := x]> b) k = if decide (k = j) then Some x else rd b k.
Proof.
  intros Hj. unfold rd. destruct (Z.ltb_spec k 0).
  - destruct (decide (k = j)); [lia|reflexivity].
  - destruct (decide (k = j)) as [->|Hne].
    + apply list_lookup_insert_eq. lia.
    + apply list_lookup_insert_ne. lia.
Qed.

End BufferFacts.

(** ** The Adam kernel *)

Module AdamFacts.

Import Adam.

Section FunctorFacts.
Context {T MT : Type} `{WideArith MT} (to_MT : T -> MT) (to_T : MT -> T).
Variables (h : Hyper MT) (mp : bool).
Local Open Scope Z_scope.
Implicit Types (b : TensorBuffers T MT) (j k : Z) (r : Regs MT).

Lemma read_elem_in_range size b j :
  wf_buffers mp size b -> 0 <= j < size -> is_Some (read_elem to_MT mp b j).
Proof.
  intros (Hg & Hp & Hm & Hv & Hmp) Hj. unfold read_elem.
  assert (is_Some (rd (buf_g b) j)) as [g ->] by (apply rd_in_range; lia).
  assert (is_Some (rd (buf_m b) j)) as [m Em] by (apply rd_in_range; lia).
  assert (is_Some (rd (buf_v b) j)) as [v Ev] by (apply rd_in_range; lia).
  assert (is_Some (rd (buf_p b) j)) as [p Ep] by (apply rd_in_range; lia).
  destruct mp.
  - specialize (Hmp eq_refl).
    assert (is_Some (rd (buf_mp b) j)) as [q Eq] by (apply rd_in_range; lia).
    simpl. rewrite Eq. simpl. rewrite Em. simpl. rewrite Ev. simpl. eauto.
  - simpl. rewrite Ep. simpl. rewrite Em. simpl. rewrite Ev. simpl. eauto.
Qed.

Lemma write_elem_in_range size b j r :
  wf_buffers mp size b -> 0 <= j < size ->
  write_elem to_T mp b j r = Some (put_elem to_T mp b j r).
Proof.
  intros (Hg & Hp & Hm & Hv & Hmp) Hj. unfold write_elem, put_elem.
  rewrite (wr_in_range (buf_p b)), (wr_in_range (buf_m b)),
    (wr_in_range (buf_v b)) by lia.
  simpl. destruct mp; [|reflexivity].
  specialize (Hmp eq_refl).
  rewrite (wr_in_range (buf_mp b)) by lia. reflexivity.
Qed.

Lemma write_elem_Some b j r b' :
  write_elem to_T mp b j r = Some b' ->
  b' = put_elem to_T mp b j r /\ 0 <= j < Z.of_nat (length (buf_p b)) /\
  0 <= j < Z.of_nat (length (buf_m b)) /\
  0 <= j < Z.of_nat (length (buf_v b)) /\
  (mp = true -> 0 <= j < Z.of_nat (length (buf_mp b))).
Proof.
  unfold write_elem, put_elem. intros Hw.
  destruct (wr (buf_p b) j _) as [p'|] eqn:Ep; [|discriminate].
  destruct (wr (buf_m b) j _) as [m'|] eqn:Em; [|discriminate].
  destruct (wr (buf_v b) j _) as [v'|] eqn:Ev; [|discriminate].
  simpl in Hw.
  pose proof (wr_Some_range _ _ _ _ Ep) as Rp.
  pose proof (wr_Some_range _ _ _ _ Em) as Rm.
  pose proof (wr_Some_range _ _ _ _ Ev) as Rv.
  rewrite wr_in_range in Ep by assumption.
  rewrite wr_in_range in Em by assumption.
  rewrite wr_in_range in Ev by assumption.
  destruct mp.
  - destruct (wr (buf_mp b) j _) as [q'|] eqn:Eq; [|discriminate].
    pose proof (wr_Some_range _ _ _ _ Eq) as Rq.
    rewrite wr_in_range in Eq by assumption.
    simpl in Hw. split; [congruence|]. repeat split; auto; lia.
  - simpl in Hw. split; [congruence|]. repeat split; auto; try lia; discriminate.
Qed.

Lemma put_elem_wf size b j r : wf_buffers mp size b -> wf_buffers mp size (put_elem to_T mp b j r).
Proof.
  intros (Hg & Hp & Hm & Hv & Hmp). unfold wf_buffers, put_elem; simpl.
  rewrite !length_insert. repeat split; auto.
  intros ->. rewrite length_insert. auto.
Qed.

(** writing at [j] does not change what is read at [k ≠ j] *)
Lemma read_put_elem_ne b j k r :
  0 <= j < Z.of_nat (length (buf_p b)) ->
  0 <= j < Z.of_nat (length (buf_m b)) ->
  0 <= j < Z.of_nat (length (buf_v b)) ->
  (mp = true -> 0 <= j < Z.of_nat (length (buf_mp b))) ->
  k <> j ->
  read_elem to_MT mp (put_elem to_T mp b j r) k = read_elem to_MT mp b k.
Proof.
  intros Rp Rm Rv Rq Hne. unfold read_elem, put_elem; simpl.
  rewrite !rd_insert by assumption.
  destruct (decide (k = j)); [contradiction|].
  destruct mp; [|reflexivity].
  rewrite rd_insert by auto. destruct (decide (k = j)); [contradiction|reflexivity].
Qed.

Lemma update_elem_in_range size b j :
  wf_buffers mp size b -> 0 <= j < size ->
  exists r, read_elem to_MT mp b j = Some r /\
    update_elem to_MT to_T h mp j b
    = Some (put_elem to_T mp b j (compute_lane h r)).
Proof.
  intros Hwf Hj.
  destruct (read_elem_in_range size b j Hwf Hj) as [r Hr].
  exists r. split; [assumption|].
  unfold update_elem. rewrite Hr. simpl.
  eapply write_elem_in_range; eassumption.
Qed.

Lemma run_updates_app js1 js2 b :
  run_updates to_MT to_T h mp (js1 ++ js2) b
  = run_updates to_MT to_T h mp js1 b ≫= run_updates to_MT to_T h mp js2.
Proof.
  revert b. induction js1 as [|j js1 IH]; intros b; simpl; [reflexivity|].
  destruct (update_elem to_MT to_T h mp j b); simpl; auto.
Qed.

Lemma run_updates_wf size js b :
  wf_buffers mp size b -> Forall (fun j => 0 <= j < size) js ->
  exists b', run_updates to_MT to_T h mp js b = Some b' /\ wf_buffers mp size b'.
Proof.
  intros Hwf Hjs. revert b Hwf.
  induction Hjs as [|j js Hj _ IH]; intros b Hwf; simpl; [eauto|].
  destruct (update_elem_in_range size b j Hwf Hj) as (r & _ & ->). simpl.
  apply IH, put_elem_wf, Hwf.
Qed.

Lemma view_put_elem b j k r :
  0 <= j < Z.of_nat (length (buf_p b)) ->
  0 <= j < Z.of_nat (length (buf_m b)) ->
  0 <= j < Z.of_nat (length (buf_v b)) ->
  (mp = true -> 0 <= j < Z.of_nat (length (buf_mp b))) ->
  elem_view mp (put_elem to_T mp b j r) k
  = if decide (k = j) then stored_view to_T mp r else elem_view mp b k.
Proof.
  intros Rp Rm Rv Rq. unfold elem_view, stored_view, put_elem; simpl.
  rewrite !rd_insert by assumption.
  destruct mp.
  - rewrite rd_insert by auto. destruct (decide (k = j)); reflexivity.
  - destruct (decide (k = j)); reflexivity.
Qed.

Lemma run_updates_pointwise size js : NoDup js ->
  forall b b', wf_buffers mp size b -> Forall (fun j => 0 <= j < size) js ->
  run_updates to_MT to_T h mp js b = Some b' ->
  buf_g b' = buf_g b /\
  wf_buffers mp size b' /\
  (mp = false -> buf_mp b' = buf_mp b) /\
  forall j,
    (j ∈ js -> exists r, read_elem to_MT mp b j = Some r /\
                 elem_view mp b' j = stored_view to_T mp (compute_lane h r)) /\
    (j ∉ js -> elem_view mp b' j = elem_view mp b j).
Proof.
  induction 1 as [|j0 js Hnotin Hnd IH]; intros b b' Hwf Hjs Hrun.
  - simpl in Hrun. injection Hrun as <-.
    split; [reflexivity|]. split; [assumption|]. split; [reflexivity|].
    intros j. split; [intros []%elem_of_nil|reflexivity].
  - apply Forall_cons in Hjs as [Hj0 Hjs]. cbn [run_updates] in Hrun.
    destruct (update_elem_in_range size b j0 Hwf Hj0) as (r0 & Hr0 & Hupd).
    rewrite Hupd in Hrun. cbn [mbind option_bind] in Hrun.
    destruct (IH _ _ (put_elem_wf size b j0 _ Hwf) Hjs Hrun)
      as (Hg & Hwf' & Hmp & Hpt).
    destruct Hwf as (Lg & Lp & Lm & Lv & Lq).
    assert (forall k, elem_view mp (put_elem to_T mp b j0 (compute_lane h r0)) k
              = if decide (k = j0) then stored_view to_T mp (compute_lane h r0)
                else elem_view mp b k) as Hview.
    { intros k. apply view_put_elem; try lia. intros E. specialize (Lq E). lia. }
    split; [exact Hg|]. split; [exact Hwf'|]. split.
    { intros E. rewrite (Hmp E). unfold put_elem; simpl. rewrite E. reflexivity. }
    intros j. destruct (Hpt j) as [Hin Hout]. split.
    + intros [->|Hj]%elem_of_cons.
      * exists r0. split; [assumption|].
        rewrite (proj2 (Hpt j0) Hnotin), Hview, decide_True; reflexivity.
      * destruct (Hin Hj) as (r & Hr & Hv). exists r. split; [|assumption].
        rewrite <- Hr. symmetry. apply read_put_elem_ne; try lia.
        -- intros E. specialize (Lq E). lia.
        -- intros ->. contradiction.
    + intros Hj. apply not_elem_of_cons in Hj as [Hne Hj].
      rewrite (Hout Hj), Hview, decide_False by assumption. reflexivity.
Qed.

Section Trip.

Variables (n compute_group_size off : Z).

Let lane_rel (b0 : TensorBuffers T MT) (i : Z) (r : Regs MT) : Prop :=
  if in_group n compute_group_size i
  then read_elem to_MT mp b0 (off + i) = Some r
  else r = zero_regs.

Lemma load_phase_Some b ixs rs :
  load_phase to_MT mp n compute_group_size off b ixs = Some rs ->
  Forall2 (lane_rel b) ixs rs.
Proof.
  revert rs. induction ixs as [|i ixs IH]; intros rs; simpl.
  - intros [= <-]. constructor.
  - destruct (load_lane to_MT mp n compute_group_size off b i) as [r|] eqn:Er;
      [|discriminate]. simpl.
    destruct (load_phase to_MT mp n compute_group_size off b ixs) as [rs'|];
      [|discriminate]. simpl.
    intros [= <-]. constructor; [|auto].
    unfold lane_rel. unfold load_lane in Er.
    destruct (in_group n compute_group_size i); congruence.
Qed.

Lemma load_phase_in_range size b ixs :
  wf_buffers mp size b -> 0 <= off -> n <= size - off ->
  Forall (fun i => 0 <= i) ixs ->
  is_Some (load_phase to_MT mp n compute_group_size off b ixs).
Proof.
  intros Hwf Hoff Hn Hixs. induction Hixs as [|i ixs Hi _ IH]; simpl; [eauto|].
  destruct IH as [rs ->].
  assert (is_Some (load_lane to_MT mp n compute_group_size off b i))
    as [r ->]; [|simpl; eauto].
  unfold load_lane, in_group.
  destruct (Z.ltb_spec i n); simpl; [|eauto].
  destruct (Z.ltb_spec i compute_group_size); simpl; [|eauto].
  eapply read_elem_in_range; [eassumption|lia].
Qed.

Lemma store_phase_updates b0 ixs rs b :
  Forall2 (lane_rel b0) ixs rs -> NoDup ixs ->
  (forall i, i ∈ ixs -> in_group n compute_group_size i = true ->
     read_elem to_MT mp b (off + i) = read_elem to_MT mp b0 (off + i)) ->
  store_phase to_T mp n compute_group_size off b ixs (compute_lane h <$> rs)
  = run_updates to_MT to_T h mp (ixs ≫= lane_pos n compute_group_size off) b.
Proof.
  intros Hrel. revert b.
  induction Hrel as [|i r ixs rs Hir _ IH]; intros b Hnd Hsame; [reflexivity|].
  apply NoDup_cons in Hnd as [Hnotin Hnd].
  cbn [fmap list_fmap store_phase mbind list_bind].
  unfold store_lane, lane_pos at 1. unfold lane_rel in Hir.
  destruct (in_group n compute_group_size i) eqn:Hg.
  - cbn [app run_updates]. unfold update_elem.
    rewrite Hsame, Hir by (auto; left). cbn [mbind option_bind].
    destruct (write_elem to_T mp b (off + i) (compute_lane h r)) as [b1|] eqn:Hw;
      [|reflexivity].
    cbn [mbind option_bind].
    apply write_elem_Some in Hw as (-> & Rp & Rm & Rv & Rq).
    apply IH; [assumption|].
    intros i' Hi' Hg'.
    assert (off + i' <> off + i) as Hne.
    { intros E. assert (i' = i) as -> by lia. contradiction. }
    rewrite read_put_elem_ne by assumption.
    apply Hsame; [by right|assumption].
  - cbn [app mbind option_bind]. apply IH; [assumption|].
    intros i' Hi' Hg'. apply Hsame; [by right|assumption].
Qed.

Lemma bind_lane_log mk ixs :
  ixs ≫= lane_log mk n compute_group_size off
  = mk <$> (ixs ≫= lane_pos n compute_group_size off).
Proof.
  induction ixs as [|i ixs IH]; [reflexivity|].
  cbn [mbind list_bind]. rewrite fmap_app, <- IH. reflexivity.
Qed.

Lemma elem_of_lane_positions z ixs :
  z ∈ ixs ≫= lane_pos n compute_group_size off <->
  exists i, i ∈ ixs /\ z = off + i /\ i < n /\ i < compute_group_size.
Proof.
  rewrite list_elem_of_bind. unfold lane_pos, in_group. split.
  - intros (i & Hz & Hi). exists i. split; [assumption|].
    destruct (Z.ltb_spec i n); simpl in Hz; [|by apply elem_of_nil in Hz].
    destruct (Z.ltb_spec i compute_group_size); simpl in Hz;
      [|by apply elem_of_nil in Hz].
    apply list_elem_of_singleton in Hz. lia.
  - intros (i & Hi & -> & Hn & Hc). exists i. split; [|assumption].
    destruct (Z.ltb_spec i n); [|lia].
    destruct (Z.ltb_spec i compute_group_size); [|lia].
    simpl. apply list_elem_of_singleton. reflexivity.
Qed.

Lemma NoDup_lane_indices i_start threadIdx blockDim :
  0 < blockDim -> NoDup (lane_index i_start threadIdx blockDim <$> lanes).
Proof.
  intros Hbd. unfold lanes, lane_index. simpl.
  repeat (apply NoDup_cons_2;
    [ intros Hin;
      repeat (apply elem_of_cons in Hin as [Hin|Hin]; [lia|]);
      by apply elem_of_nil in Hin | ]).
  apply NoDup_nil_2.
Qed.

Lemma lane_indices_nonneg i_start threadIdx blockDim :
  0 <= i_start -> 0 <= threadIdx -> 0 < blockDim ->
  Forall (fun i => 0 <= i) (lane_index i_start threadIdx blockDim <$> lanes).
Proof.
  intros. unfold lanes, lane_index. simpl.
  repeat (constructor; [lia|]). constructor.
Qed.

Lemma loop_body_ok size b log threadIdx blockDim i_start :
  wf_buffers mp size b -> 0 <= off -> n <= size - off ->
  0 <= i_start -> 0 <= threadIdx -> 0 < blockDim ->
  let zs := (lane_index i_start threadIdx blockDim <$> lanes)
              ≫= lane_pos n compute_group_size off in
  exists b',
    loop_body to_MT to_T h mp n compute_group_size off threadIdx blockDim
      i_start (b, log)
    = Finished (b', log ++ (Load <$> zs) ++ (Store <$> zs)) /\
    run_updates to_MT to_T h mp zs b = Some b' /\
    wf_buffers mp size b'.
Proof.
  intros Hwf Hoff Hn Hi Ht Hbd zs.
  pose proof (lane_indices_nonneg i_start threadIdx blockDim Hi Ht Hbd) as Hnn.
  destruct (load_phase_in_range size b _ Hwf Hoff Hn Hnn) as [rs Hrs].
  pose proof (load_phase_Some _ _ _ Hrs) as Hrel.
  pose proof (store_phase_updates b _ rs b Hrel
                (NoDup_lane_indices i_start threadIdx blockDim Hbd)
                (fun _ _ _ => eq_refl)) as Hst.
  destruct (run_updates_wf size zs b Hwf) as (b' & Hb' & Hwf').
  { apply Forall_forall. intros z Hz.
    apply elem_of_lane_positions in Hz as (i & Hin & -> & Hlt & _).
    rewrite Forall_forall in Hnn. specialize (Hnn i Hin). lia. }
  exists b'. split; [|split; assumption].
  unfold loop_body. cbn [fst snd]. rewrite Hrs. cbn [of_access mbind run_bind].
  fold zs in Hst. rewrite Hst, Hb'. cbn [of_access].
  rewrite !bind_lane_log. reflexivity.
Qed.

Lemma element_loop_ok fuel size threadIdx blockDim :
  0 <= off -> n <= size - off -> 0 <= threadIdx -> 0 < blockDim ->
  forall b log i_start,
  wf_buffers mp size b -> 0 <= i_start ->
  Z.min n compute_group_size - i_start <= Z.of_nat fuel ->
  let ts := trips fuel n compute_group_size off threadIdx blockDim i_start in
  exists b',
    element_loop to_MT to_T fuel h mp n compute_group_size off threadIdx
      blockDim i_start (b, log)
    = Finished (b', log ++ trips_log ts) /\
    run_updates to_MT to_T h mp (concat ts) b = Some b' /\
    wf_buffers mp size b'.
Proof.
  intros Hoff Hn Ht Hbd.
  induction fuel as [|fuel IH]; intros b log i_start Hwf Hi Hfuel;
    cbn [element_loop trips].
  - destruct (Z.ltb_spec i_start n); simpl.
    + destruct (Z.ltb_spec i_start compute_group_size); simpl; [lia|].
      exists b. rewrite app_nil_r. auto.
    + exists b. rewrite app_nil_r. auto.
  - destruct ((i_start <? n) && (i_start <? compute_group_size)) eqn:Hg.
    2:{ exists b. simpl. rewrite app_nil_r. auto. }
    destruct (loop_body_ok size b log threadIdx blockDim i_start
                Hwf Hoff Hn Hi Ht Hbd) as (b1 & -> & Hb1 & Hwf1).
    cbn [mbind run_bind].
    destruct (IH b1
      (log ++ (Load <$> (lane_index i_start threadIdx blockDim <$> lanes)
                        ≫= lane_pos n compute_group_size off)
           ++ (Store <$> (lane_index i_start threadIdx blockDim <$> lanes)
                        ≫= lane_pos n compute_group_size off))
      (i_start + blockDim * PARALLEL_SIZE) Hwf1)
      as (b' & -> & Hb' & Hwf'); [unfold PARALLEL_SIZE; lia..|].
    exists b'. split; [|split; [|assumption]].
    + unfold trips_log. cbn [mbind list_bind]. rewrite <- !app_assoc.
      reflexivity.
    + cbn [concat]. rewrite run_updates_app, Hb1. exact Hb'.
Qed.

Lemma elem_of_trips z fuel threadIdx blockDim :
  0 <= threadIdx -> 0 < blockDim ->
  forall i_start, 0 <= i_start ->
  Z.min n compute_group_size - i_start <= Z.of_nat fuel ->
  z ∈ concat (trips fuel n compute_group_size off threadIdx blockDim i_start)
  <-> exists q, 0 <= q /\ z = off + (i_start + threadIdx + q * blockDim) /\
        i_start + threadIdx + q * blockDim < n /\
        i_start + threadIdx + q * blockDim < compute_group_size.
Proof.
  intros Ht Hbd. induction fuel as [|fuel IH]; intros i_start Hi Hfuel;
    cbn [trips].
  - destruct ((i_start <? n) && (i_start <? compute_group_size)) eqn:Hg.
    { apply andb_true_iff in Hg as [?%Z.ltb_lt ?%Z.ltb_lt]. lia. }
    split; [intros []%elem_of_nil|].
    intros (q & Hq & _ & Hlt1 & Hlt2).
    apply andb_false_iff in Hg as [?%Z.ltb_ge| ?%Z.ltb_ge]; nia.
  - destruct ((i_start <? n) && (i_start <? compute_group_size)) eqn:Hg.
    + apply andb_true_iff in Hg as [Hg1%Z.ltb_lt Hg2%Z.ltb_lt].
      cbn [concat]. rewrite elem_of_app, elem_of_lane_positions, IH
        by (unfold PARALLEL_SIZE; lia).
      unfold PARALLEL_SIZE. split.
      * intros [(i & Hin & -> & Hlt1 & Hlt2) | (q & Hq & -> & Hlt1 & Hlt2)].
        -- apply list_elem_of_fmap in Hin as (ii & -> & Hii).
           exists ii. unfold lane_index in *. split; [|auto].
           unfold lanes in Hii.
           repeat (apply elem_of_cons in Hii as [-> | Hii]; [lia|]).
           by apply elem_of_nil in Hii.
        -- exists (q + 4). split; [lia|]. split; [lia|]. lia.
      * intros (q & Hq & -> & Hlt1 & Hlt2).
        destruct (Z.lt_ge_cases q 4) as [Hq4|Hq4].
        -- left. exists (lane_index i_start threadIdx blockDim q).
           split; [|unfold lane_index; auto].
           apply list_elem_of_fmap. exists q. split; [reflexivity|].
           unfold lanes. assert (q = 0 \/ q = 1 \/ q = 2 \/ q = 3)
             as [-> | [-> | [-> | ->]]] by lia;
             repeat (first [apply list_elem_of_here|apply list_elem_of_further]).
        -- right. exists (q - 4). split; [lia|]. split; [lia|]. lia.
    + split; [intros []%elem_of_nil|].
      intros (q & Hq & _ & Hlt1 & Hlt2).
      apply andb_false_iff in Hg as [?%Z.ltb_ge| ?%Z.ltb_ge]; nia.
Qed.

Lemma NoDup_trips fuel threadIdx blockDim :
  0 <= threadIdx -> 0 < blockDim ->
  forall i_start, 0 <= i_start ->
  Z.min n compute_group_size - i_start <= Z.of_nat fuel ->
  NoDup (concat (trips fuel n compute_group_size off threadIdx blockDim i_start)).
Proof.
  intros Ht Hbd. induction fuel as [|fuel IH]; intros i_start Hi Hfuel;
    cbn [trips].
  - destruct ((i_start <? n) && (i_start <? compute_group_size));
      apply NoDup_nil_2.
  - destruct ((i_start <? n) && (i_start <? compute_group_size)) eqn:Hg;
      [|apply NoDup_nil_2].
    apply andb_true_iff in Hg as [Hg1%Z.ltb_lt Hg2%Z.ltb_lt].
    cbn [concat]. apply NoDup_app. split; [|split].
    + apply NoDup_bind.
      * intros i1 i2 z _ _ Hz1 Hz2. unfold lane_pos in *.
        destruct (in_group n compute_group_size i1);
          [|by apply elem_of_nil in Hz1].
        destruct (in_group n compute_group_size i2);
          [|by apply elem_of_nil in Hz2].
        apply list_elem_of_singleton in Hz1, Hz2. lia.
      * intros i _. unfold lane_pos.
        destruct (in_group n compute_group_size i);
          [apply NoDup_singleton|apply NoDup_nil_2].
      * apply NoDup_lane_indices, Hbd.
    + intros z Hz1 Hz2.
      apply elem_of_lane_positions in Hz1 as (i & Hin & -> & _).
      apply elem_of_trips in Hz2 as (q & Hq & Hz & _);
        [|assumption..|unfold PARALLEL_SIZE; lia|unfold PARALLEL_SIZE; lia].
      apply list_elem_of_fmap in Hin as (ii & -> & Hii).
      unfold lane_index, PARALLEL_SIZE in *. unfold lanes in Hii.
      repeat (apply elem_of_cons in Hii as [-> | Hii]; [nia|]).
      by apply elem_of_nil in Hii.
    + apply IH; unfold PARALLEL_SIZE; lia.
Qed.

End Trip.

End FunctorFacts.

Section LaunchFacts.
Context {T MT : Type} `{WideArith MT} (to_MT : T -> MT) (to_T : MT -> T).
Variables (fuel : nat) (compute_group_size : Z).
Variables (beta1 beta2 epsilon decay : MT).
Variables (beta1_pow_ beta2_pow_ learning_rate : list MT).
Variables (mode mp : bool).
Variables (lr0 b1p b2p : MT).
Hypothesis Hlr : rd learning_rate 0 = Some lr0.
Hypothesis Hb1p : rd beta1_pow_ 0 = Some b1p.
Hypothesis Hb2p : rd beta2_pow_ 0 = Some b2p.
Hypothesis Hfuel : (compute_group_size <= Z.of_nat fuel)%Z.

Local Open Scope Z_scope.

Let h : Hyper MT :=
  {| h_beta1 := beta1; h_beta2 := beta2; h_beta1_pow := b1p;
     h_beta2_pow := b2p; h_epsilon := epsilon; h_lr := lr0; h_mode := mode;
     h_decay := decay |}.

Let functor (tabi : TensorAndBlockInf) :=
  CudaKernelFunctor to_MT to_T fuel compute_group_size tabi beta1 beta2
    beta1_pow_ beta2_pow_ epsilon learning_rate mode mp decay.

Section Block.

Variables (tabi : TensorAndBlockInf) (blockIdx blockDim t cg sz : Z).
Hypothesis Ht : rd (tenosr_for_this_block tabi) blockIdx = Some t.
Hypothesis Hcg : rd (compute_group_for_this_block tabi) blockIdx = Some cg.
Hypothesis Hsz : rd (sizes tabi) t = Some sz.
Let off := (cg + start_compute_group_this_tensor tabi) * compute_group_size.
Hypothesis Hoff : 0 <= off.
Hypothesis Hbd : 0 < blockDim.

Let thread_trips (threadIdx : Z) :=
  trips fuel (sz - off) compute_group_size off threadIdx blockDim 0.

Lemma functor_ok threadIdx (mem : list (TensorBuffers T MT)) log b :
  rd mem t = Some b -> wf_buffers mp sz b -> 0 <= threadIdx ->
  exists b',
    functor tabi blockIdx threadIdx blockDim (mem, log)
    = Finished (<[Z.to_nat t := b']> mem,
                log ++ (pair t <$> trips_log (thread_trips threadIdx))) /\
    run_updates to_MT to_T h mp (concat (thread_trips threadIdx)) b = Some b' /\
    wf_buffers mp sz b'.
Proof.
  intros Hb Hwf Htid.
  destruct (element_loop_ok to_MT to_T h mp (sz - off) compute_group_size off
              fuel sz threadIdx blockDim Hoff ltac:(lia) Htid Hbd b [] 0 Hwf
              ltac:(lia) ltac:(lia)) as (b' & Hloop & Hrun & Hwf').
  exists b'. split; [|split; assumption].
  unfold functor, CudaKernelFunctor. cbn [fst snd].
  rewrite Hlr, Hb1p, Hb2p, Ht. cbn [of_access mbind run_bind].
  rewrite Hcg. cbn [of_access mbind run_bind].
  rewrite Hsz, Hb. cbn [of_access mbind run_bind].
  fold off. fold h. rewrite Hloop. cbn [mbind run_bind fst snd app].
  reflexivity.
Qed.

Lemma block_ok tids : Forall (fun tid => 0 <= tid) tids ->
  forall (mem : list (TensorBuffers T MT)) log b,
  rd mem t = Some b -> wf_buffers mp sz b ->
  exists b',
    for_each tids (fun threadIdx => functor tabi blockIdx threadIdx blockDim)
      (mem, log)
    = Finished (<[Z.to_nat t := b']> mem,
                log ++ (pair t <$> (tids ≫= fun tid => trips_log (thread_trips tid)))) /\
    run_updates to_MT to_T h mp (tids ≫= fun tid => concat (thread_trips tid)) b
    = Some b' /\
    wf_buffers mp sz b'.
Proof.
  induction 1 as [|tid tids Htid _ IH]; intros mem log b Hb Hwf.
  - exists b. cbn. rewrite app_nil_r. split; [|auto].
    unfold rd in Hb. destruct (t <? 0); [discriminate|].
    rewrite list_insert_id by assumption. reflexivity.
  - destruct (functor_ok tid mem log b Hb Hwf Htid) as (b1 & Hf & Hr1 & Hwf1).
    cbn [for_each]. rewrite Hf. cbn [mbind run_bind].
    pose proof (rd_Some_range _ _ _ Hb) as Hrange.
    destruct (IH (<[Z.to_nat t := b1]> mem)
                 (log ++ (pair t <$> trips_log (thread_trips tid))) b1)
      as (b' & Hfe & Hr' & Hwf'); [|assumption|].
    { rewrite rd_insert by assumption. rewrite decide_True; reflexivity. }
    exists b'. split; [|split; [|assumption]].
    + etransitivity; [exact Hfe|].
      rewrite list_insert_insert_eq. cbn [mbind list_bind].
      rewrite fmap_app, app_assoc. reflexivity.
    + cbn [mbind list_bind]. rewrite run_updates_app, Hr1. exact Hr'.
Qed.

End Block.

Lemma elem_of_block_positions z size c blockDim :
  0 < blockDim ->
  z ∈ block_positions fuel compute_group_size size c blockDim <->
  c * compute_group_size <= z
  < c * compute_group_size
    + Z.min (size - c * compute_group_size) compute_group_size.
Proof.
  intros Hbd. unfold block_positions. rewrite list_elem_of_bind. split.
  - intros (tid & Hz & Htid). apply elem_of_seqZ in Htid.
    apply elem_of_trips in Hz as (q & Hq & -> & Hlt1 & Hlt2); [|lia..].
    nia.
  - intros Hz. set (i := z - c * compute_group_size).
    exists (i mod blockDim).
    pose proof (Z.mod_pos_bound i blockDim Hbd) as Hmod.
    pose proof (Z.div_mod i blockDim ltac:(lia)) as Hdm.
    assert (0 <= i / blockDim) by (apply Z.div_pos; lia).
    split; [|apply elem_of_seqZ; lia].
    apply elem_of_trips; [lia..|].
    exists (i / blockDim). split; [assumption|]. lia.
Qed.

Lemma NoDup_block_positions size c blockDim :
  0 < blockDim ->
  NoDup (block_positions fuel compute_group_size size c blockDim).
Proof.
  intros Hbd. unfold block_positions. apply NoDup_bind.
  - intros tid1 tid2 z Ht1%elem_of_seqZ Ht2%elem_of_seqZ Hz1 Hz2.
    apply elem_of_trips in Hz1 as (q1 & _ & Hz1 & _); [|lia..].
    apply elem_of_trips in Hz2 as (q2 & _ & Hz2 & _); [|lia..].
    assert ((tid1 + q1 * blockDim) mod blockDim
            = (tid2 + q2 * blockDim) mod blockDim) as Hmod
      by (f_equal; lia).
    rewrite !Z_mod_plus_full, !Z.mod_small in Hmod by lia. exact Hmod.
  - intros tid Ht%elem_of_seqZ. apply NoDup_trips; lia.
  - apply NoDup_seqZ.
Qed.

Section Grid.

Variables (blockDim : Z) (numels : list Z).
Hypothesis Hbd : 0 < blockDim.

Let unit_ok (len : nat) (u : Z * Z) : Prop :=
  0 <= u.1 < Z.of_nat len /\ 0 <= u.2 * compute_group_size.

Let block (tabi : TensorAndBlockInf) (blockIdx : Z) :=
  for_each (seqZ 0 blockDim)
    (fun threadIdx => functor tabi blockIdx threadIdx blockDim).

Lemma grid_ok us : forall pre (mem : list (TensorBuffers T MT)) log,
  Forall2 (wf_buffers mp) numels mem ->
  Forall (unit_ok (length mem)) us ->
  let tabi := {| tenosr_for_this_block := fst <$> (pre ++ us);
                 compute_group_for_this_block := snd <$> (pre ++ us);
                 start_compute_group_this_tensor := 0;
                 sizes := numels |} in
  exists mem',
    for_each (seqZ (Z.of_nat (length pre)) (Z.of_nat (length us)))
      (block tabi) (mem, log)
    = Finished (mem', log ++ (us ≫= unit_log fuel compute_group_size numels
                                       blockDim)) /\
    Forall2 (wf_buffers mp) numels mem' /\
    forall t b, rd mem t = Some b ->
      exists b', rd mem' t = Some b' /\
        run_updates to_MT to_T h mp
          (us ≫= unit_positions fuel compute_group_size numels blockDim t) b
        = Some b'.
Proof.
  induction us as [|[t0 c0] us IH]; intros pre mem log Hmem Hus tabi.
  - exists mem. cbn. rewrite app_nil_r. split; [reflexivity|].
    split; [assumption|]. eauto.
  - apply Forall_cons in Hus as [[Ht0 Hc0] Hus]. cbn [fst snd] in Ht0, Hc0.
    cbn [length]. rewrite seqZ_cons by lia. cbn [for_each].
    assert (is_Some (rd mem t0)) as [b0 Hb0] by (apply rd_in_range; lia).
    assert (exists sz, rd numels t0 = Some sz /\ wf_buffers mp sz b0)
      as (sz & Hsz & Hwf0).
    { unfold rd in *. destruct (t0 <? 0); [discriminate|].
      destruct (Forall2_lookup_r _ _ _ _ _ Hmem Hb0) as (sz & ? & ?). eauto. }
    assert (forall (A : Type) (f : Z * Z -> A),
              rd (f <$> (pre ++ (t0, c0) :: us)) (Z.of_nat (length pre))
              = Some (f (t0, c0))) as Htab.
    { intros A f. unfold rd. destruct (Z.ltb_spec (Z.of_nat (length pre)) 0);
        [lia|]. rewrite Nat2Z.id, list_lookup_fmap, lookup_app_r by lia.
      rewrite Nat.sub_diag. reflexivity. }
    destruct (block_ok tabi (Z.of_nat (length pre)) blockDim t0 c0 sz
                (Htab _ fst) (Htab _ snd) Hsz
                ltac:(cbn; rewrite Z.add_0_r; exact Hc0) Hbd
                (seqZ 0 blockDim) ltac:(apply Forall_seqZ; intros; lia)
                mem log b0 Hb0 Hwf0) as (b0' & Hblk & Hrun0 & Hwf0').
    change (start_compute_group_this_tensor tabi) with 0 in Hblk, Hrun0.
    rewrite Z.add_0_r in Hblk, Hrun0.
    replace (block tabi (Z.of_nat (length pre)) (mem, log))
      with (Finished (<[Z.to_nat t0:=b0']> mem,
              log ++ unit_log fuel compute_group_size numels blockDim (t0, c0)))
      by (symmetry; etransitivity; [exact Hblk|];
          unfold unit_log, block_log; cbn [fst snd]; rewrite Hsz;
          reflexivity).
    cbn [mbind run_bind].
    pose proof (rd_Some_range _ _ _ Hsz) as Rsz.
    destruct (IH (pre ++ [(t0, c0)]) (<[Z.to_nat t0:=b0']> mem)
                (log ++ unit_log fuel compute_group_size numels blockDim
                          (t0, c0)))
      as (mem' & Hgrid & Hmem' & Hfinal).
    { rewrite <- (list_insert_id numels (Z.to_nat t0) sz).
      - apply Forall2_insert; assumption.
      - unfold rd in Hsz. destruct (t0 <? 0); [discriminate|assumption]. }
    { rewrite length_insert. assumption. }
    exists mem'. split; [|split; [assumption|]].
    + rewrite <- app_assoc in Hgrid. cbn [app] in Hgrid.
      rewrite length_app, Nat.add_1_r in Hgrid.
      rewrite Nat2Z.inj_succ in Hgrid.
      rewrite Nat2Z.inj_succ, Z.pred_succ.
      etransitivity; [exact Hgrid|].
      cbn [mbind list_bind]. rewrite app_assoc. reflexivity.
    + intros t b Hb. cbn [mbind list_bind].
      unfold unit_positions at 1. cbn [fst snd].
      destruct (decide (t0 = t)) as [<-|Hne].
      * assert (b = b0) as -> by congruence.
        destruct (Hfinal t0 b0') as (b' & Hb' & Hrun').
        { rewrite rd_insert by assumption. rewrite decide_True; reflexivity. }
        exists b'. split; [assumption|].
        rewrite run_updates_app. unfold block_positions. rewrite Hsz.
        cbn [default]. change (Datatypes.id sz) with sz.
        rewrite Hrun0. exact Hrun'.
      * destruct (Hfinal t b) as (b' & Hb' & Hrun').
        { rewrite rd_insert by assumption.
          rewrite decide_False by congruence. assumption. }
        exists b'. split; assumption.
Qed.

End Grid.

End LaunchFacts.

Section PartitionFacts.

Variable compute_group_size : Z.
Hypothesis Hcgs : (0 < compute_group_size)%Z.

Local Open Scope Z_scope.

Lemma rd_cons {A : Type} (x : A) (l : list A) (j : Z) :
  rd (x :: l) j = if decide (j = 0) then Some x else rd l (j - 1).
Proof.
  unfold rd. destruct (decide (j = 0)) as [->|Hne]; [reflexivity|].
  destruct (Z.ltb_spec j 0), (Z.ltb_spec (j - 1) 0); try lia; [reflexivity|].
  replace (Z.to_nat j) with (S (Z.to_nat (j - 1))) by lia. reflexivity.
Qed.

Lemma elem_of_partition t c numels : forall t0,
  (t, c) ∈ partition compute_group_size t0 numels <->
  exists numel, rd numels (t - t0) = Some numel /\
    0 <= c < compute_groups compute_group_size numel.
Proof.
  induction numels as [|numel0 numels IH]; intros t0; cbn [partition].
  - split; [intros []%elem_of_nil|]. intros (numel & Hrd & _).
    unfold rd in Hrd. destruct (t - t0 <? 0); discriminate.
  - rewrite elem_of_app, list_elem_of_fmap, IH. split.
    + intros [(c' & [= -> ->] & Hc%elem_of_seqZ) | (numel & Hrd & Hc)].
      * exists numel0. rewrite rd_cons, decide_True by lia. split; [done|lia].
      * exists numel. pose proof (rd_Some_range _ _ _ Hrd).
        rewrite rd_cons, decide_False by lia.
        replace (t - t0 - 1) with (t - (t0 + 1)) by lia. auto.
    + intros (numel & Hrd & Hc). rewrite rd_cons in Hrd.
      destruct (decide (t - t0 = 0)) as [E|Hne].
      * left. exists c. injection Hrd as ->.
        split; [f_equal; lia|apply elem_of_seqZ; lia].
      * right. exists numel.
        replace (t - (t0 + 1)) with (t - t0 - 1) by lia. auto.
Qed.

Lemma NoDup_partition numels : forall t0,
  NoDup (partition compute_group_size t0 numels).
Proof.
  induction numels as [|numel0 numels IH]; intros t0; cbn [partition];
    [apply NoDup_nil_2|].
  apply NoDup_app. split; [|split; [|apply IH]].
  - apply NoDup_fmap_2_strong; [|apply NoDup_seqZ]. congruence.
  - intros [t c] (c' & [= -> ->] & _)%list_elem_of_fmap
      (numel & Hrd%rd_Some_range & _)%elem_of_partition. lia.
Qed.

Lemma chunk_of_position z size :
  0 <= z < size ->
  0 <= z / compute_group_size < compute_groups compute_group_size size /\
  z / compute_group_size * compute_group_size <= z
  < z / compute_group_size * compute_group_size
    + Z.min (size - z / compute_group_size * compute_group_size)
        compute_group_size.
Proof.
  intros Hz. unfold compute_groups.
  pose proof (Z.div_mod z compute_group_size ltac:(lia)) as Hdm.
  pose proof (Z.mod_pos_bound z compute_group_size Hcgs) as Hmod.
  assert (0 <= z / compute_group_size) by (apply Z.div_pos; lia).
  replace (size + compute_group_size - 1)
    with (size - 1 + 1 * compute_group_size) by lia.
  rewrite Z.div_add by lia.
  assert (z / compute_group_size <= (size - 1) / compute_group_size)
    by (apply Z.div_le_mono; lia).
  lia.
Qed.

Section Schedule.

Variables (fuel : nat) (numels : list Z) (blockDim t size : Z).
Hypothesis Hbd : 0 < blockDim.
Hypothesis Hfuel : compute_group_size <= Z.of_nat fuel.
Hypothesis Hsize : rd numels t = Some size.

Let sched : list Z :=
  partition compute_group_size 0 numels
    ≫= unit_positions fuel compute_group_size numels blockDim t.

Lemma elem_of_unit_positions z u :
  z ∈ unit_positions fuel compute_group_size numels blockDim t u <->
  u.1 = t /\
  u.2 * compute_group_size <= z
  < u.2 * compute_group_size
    + Z.min (size - u.2 * compute_group_size) compute_group_size.
Proof.
  unfold unit_positions. rewrite Hsize. cbn [default].
  change (Datatypes.id size) with size.
  destruct (decide (u.1 = t)) as [E|Hne].
  - rewrite elem_of_block_positions by assumption. tauto.
  - split; [intros []%elem_of_nil|tauto].
Qed.

Lemma elem_of_schedule z : z ∈ sched <-> 0 <= z < size.
Proof.
  unfold sched. rewrite list_elem_of_bind. split.
  - intros ([t' c] & Hz%elem_of_unit_positions & Hu%elem_of_partition).
    cbn [fst snd] in Hz. destruct Hz as [-> Hz].
    destruct Hu as (numel & Hrd & Hc). nia.
  - intros Hz. exists (t, z / compute_group_size).
    destruct (chunk_of_position z size Hz) as [Hc Hpos].
    split.
    + apply elem_of_unit_positions. cbn [fst snd]. auto.
    + apply elem_of_partition. exists size. rewrite Z.sub_0_r. auto.
Qed.

Lemma NoDup_schedule : NoDup sched.
Proof.
  unfold sched. apply NoDup_bind; [| |apply NoDup_partition].
  - intros [t1 c1] [t2 c2] z _ _ [E1 H1]%elem_of_unit_positions
      [E2 H2]%elem_of_unit_positions.
    cbn [fst snd] in *. f_equal; [congruence|nia].
  - intros [t' c] _. unfold unit_positions.
    destruct (decide _);
      [apply NoDup_block_positions; assumption|apply NoDup_nil_2].
Qed.

End Schedule.

End PartitionFacts.

Section TraceFacts.

Local Open Scope Z_scope.









End TraceFacts.

Section GatherFacts.
Context {T MT : Type}.
Variable mp : bool.

Lemma gather_all (tl : TensorLists T MT) : wf_lists mp tl ->
  exists bufs,
    mapM (gather mp tl) (seq 0 (length (tl_params tl))) = Some bufs /\
    length bufs = length (tl_params tl) /\
    Forall (fun b => wf_buffers mp (Z.of_nat (length (buf_p b))) b) bufs /\
    forall t b, bufs !! t = Some b -> gather mp tl t = Some b.
Proof.
  intros Hwf.
  assert (is_Some (mapM (gather mp tl) (seq 0 (length (tl_params tl)))))
    as [bufs Hbufs].
  { apply mapM_is_Some, Forall_forall. intros t Ht%elem_of_seq.
    destruct (Hwf t ltac:(lia)) as (b & Hg & _).
    unfold compose. rewrite Hg. eauto. }
  exists bufs. split; [assumption|].
  apply mapM_Some in Hbufs.
  assert (length bufs = length (tl_params tl)) as Hlen.
  { apply Forall2_length in Hbufs. rewrite length_seq in Hbufs. lia. }
  assert (forall t b, bufs !! t = Some b -> gather mp tl t = Some b) as Hlk.
  { intros t b Hb.
    destruct (Forall2_lookup_r _ _ _ _ _ Hbufs Hb) as (t' & Ht' & Hg).
    apply lookup_seq in Ht' as [-> _]. exact Hg. }
  split; [assumption|]. split; [|assumption].
  apply Forall_lookup. intros t b Hb.
  pose proof (lookup_lt_Some _ _ _ Hb) as Hlt.
  destruct (Hwf t ltac:(lia)) as (b0 & Hg & Hwfb).
  rewrite (Hlk t b Hb) in Hg. injection Hg as <-. exact Hwfb.
Qed.

End GatherFacts.

Section UtilityFacts.
Context {T MT : Type} `{WideArith MT} (to_MT : T -> MT) (to_T : MT -> T).
Variables (fuel : nat) (compute_group_size block_size : Z).
Variables (beta1 beta2 epsilon decay : MT).
Variables (beta1_pow_ beta2_pow_ learning_rate : list MT).
Variables (mode mp : bool).
Variables (lr0 b1p b2p : MT).
Hypothesis Hlr : rd learning_rate 0 = Some lr0.
Hypothesis Hb1p : rd beta1_pow_ 0 = Some b1p.
Hypothesis Hb2p : rd beta2_pow_ 0 = Some b2p.
Hypothesis Hfuel : (compute_group_size <= Z.of_nat fuel)%Z.
Hypothesis Hcgs : (0 < compute_group_size)%Z.
Hypothesis Hbs : (0 < block_size)%Z.

Local Open Scope Z_scope.

Let h : Hyper MT :=
  {| h_beta1 := beta1; h_beta2 := beta2; h_beta1_pow := b1p;
     h_beta2_pow := b2p; h_epsilon := epsilon; h_lr := lr0; h_mode := mode;
     h_decay := decay |}.

Lemma launch_ok (bufs : list (TensorBuffers T MT)) :
  Forall (fun b => wf_buffers mp (Z.of_nat (length (buf_p b))) b) bufs ->
  let numels := (fun b => Z.of_nat (length (buf_p b))) <$> bufs in
  let units := partition compute_group_size 0 numels in
  let tabi := {| tenosr_for_this_block := fst <$> units;
                 compute_group_for_this_block := snd <$> units;
                 start_compute_group_this_tensor := 0;
                 sizes := numels |} in
  exists bufs',
    multi_tensor_adam_utility_kernel to_MT to_T fuel
      (Z.of_nat (length units)) block_size compute_group_size beta1 beta2
      beta1_pow_ beta2_pow_ epsilon learning_rate mode mp decay tabi (bufs, [])
    = Finished (bufs', units ≫= unit_log fuel compute_group_size numels
                                  block_size) /\
    length bufs' = length bufs /\
    forall t b, rd bufs t = Some b ->
      exists b', rd bufs' t = Some b' /\ updated to_MT to_T h mp b b'.
Proof.
  intros Hwf numels units tabi.
  assert (Forall2 (wf_buffers mp) numels bufs) as Hwf2.
  { unfold numels. apply Forall2_fmap_l, Forall_Forall2_diag. exact Hwf. }
  destruct (grid_ok to_MT to_T fuel compute_group_size beta1 beta2 epsilon
              decay beta1_pow_ beta2_pow_ learning_rate mode mp lr0 b1p b2p
              Hlr Hb1p Hb2p Hfuel block_size numels Hbs units [] bufs []
              Hwf2) as (bufs' & Hrun & Hwf' & Hfin).
  { apply Forall_forall. intros [t c] (numel & Hrd & Hc)%elem_of_partition.
    apply rd_Some_range in Hrd. unfold numels in Hrd.
    rewrite length_fmap in Hrd. cbn [fst snd]. split; [lia|nia]. }
  exists bufs'. split; [exact Hrun|]. split.
  { apply Forall2_length in Hwf', Hwf2. lia. }
  intros t b Hb. destruct (Hfin t b Hb) as (b' & Hb' & Hupd).
  exists b'. split; [assumption|].
  assert (rd numels t = Some (Z.of_nat (length (buf_p b)))) as Hsz.
  { unfold numels, rd in *. destruct (t <? 0); [discriminate|].
    rewrite list_lookup_fmap, Hb. reflexivity. }
  assert (wf_buffers mp (Z.of_nat (length (buf_p b))) b) as Hwfb.
  { unfold rd in Hb. destruct (t <? 0); [discriminate|].
    rewrite Forall_lookup in Hwf. eapply Hwf, Hb. }
  assert (NoDup (units ≫= unit_positions fuel compute_group_size numels
                              block_size t)) as Hnd
    by (eapply NoDup_schedule; eassumption).
  destruct (run_updates_pointwise to_MT to_T h mp
              (Z.of_nat (length (buf_p b))) _ Hnd
              b b' Hwfb) as (Hg & Hwfb' & Hmp & Hpt); [|exact Hupd|].
  { apply Forall_forall. intros z Hz.
    eapply elem_of_schedule in Hz; eassumption. }
  split; [assumption|]. split; [assumption|]. split; [assumption|].
  intros j Hj. apply (Hpt j).
  eapply elem_of_schedule; eassumption.
Qed.

End UtilityFacts.

Section KernelFacts.
Context {T MT : Type} `{WideArith MT} (to_MT : T -> MT) (to_T : MT -> T).

Local Open Scope Z_scope.

Lemma scatter_same_length {A : Type} (new old : list A) :
  length new = length old -> scatter new old = new.
Proof.
  intros Hlen. unfold scatter. rewrite drop_ge by lia. apply app_nil_r.
Qed.

(** The update path of the kernel, as one equation. *)
Lemma kernel_update_ok fuel (inp : Inputs T MT) (a : Attrs MT)
    (o : Outputs T MT) :
  resolve_skip_update inp = Finished false ->
  update_ready fuel inp a o ->
  exists lr0 b1p b2p bufs bufs',
    rd (learning_rate inp) 0 = Some lr0 /\
    rd (beta1_pow inp) 0 = Some b1p /\
    rd (beta2_pow inp) 0 = Some b2p /\
    mapM (gather (multi_precision a) (lists_of inp o))
      (seq 0 (length (params_out o))) = Some bufs /\
    length bufs = length (params_out o) /\
    (forall t b, bufs !! t = Some b ->
       gather (multi_precision a) (lists_of inp o) t = Some b) /\
    length bufs' = length bufs /\
    (forall t b, rd bufs t = Some b ->
       exists b', rd bufs' t = Some b' /\
         updated to_MT to_T (hyper_of inp a lr0 b1p b2p) (multi_precision a)
           b b') /\
    let numels := (fun b => Z.of_nat (length (buf_p b))) <$> bufs in
    MultiTensorAdamKernel to_MT to_T fuel inp a o
    = Finished
        {| params_out := buf_p <$> bufs';
           moments1_out := scatter (buf_m <$> bufs') (moments1_out o);
           moments2_out := scatter (buf_v <$> bufs') (moments2_out o);
           master_param_out :=
             if multi_precision a
             then scatter (buf_mp <$> bufs') (master_param_out o)
             else master_param_out o;
           beta1_pow_out :=
             if use_global_beta_pow a then beta1_pow_out o
             else <[0%nat := (beta1_ a * b1p)%W]> (beta1_pow_out o);
           beta2_pow_out :=
             if use_global_beta_pow a then beta2_pow_out o
             else <[0%nat := (beta2_ a * b2p)%W]> (beta2_pow_out o);
           launched :=
             launched o
             ++ (partition (compute_group_size a) 0 numels
                   ≫= unit_log fuel (compute_group_size a) numels
                         BLOCK_SIZE) |}.
Proof.
  intros Hskip (Hwf & Hcgs & Hfuel & [lr0 Hlr] & [b1p Hb1] & [b2p Hb2] & Hout).
  destruct (gather_all (multi_precision a) _ Hwf)
    as (bufs & Hbufs & Hlen & Hwfb & Hgath).
  cbn [lists_of tl_params] in Hbufs, Hlen.
  destruct (launch_ok to_MT to_T fuel (compute_group_size a) BLOCK_SIZE
              (beta1_ a) (beta2_ a) (epsilon_ a) (weight_decay_ a)
              (beta1_pow inp) (beta2_pow inp) (learning_rate inp) (mode a)
              (multi_precision a) lr0 b1p b2p Hlr Hb1 Hb2 Hfuel Hcgs
              ltac:(unfold BLOCK_SIZE; lia) bufs Hwfb)
    as (bufs' & Hrun & Hlen' & Hupd).
  exists lr0, b1p, b2p, bufs, bufs'.
  repeat (split; [assumption|]).
  intros numels. unfold MultiTensorAdamKernel. rewrite Hskip.
  cbn [mbind run_bind]. unfold multi_tensor_adam_utility.
  cbn [lists_of tl_params tl_grads tl_moments1 tl_moments2 tl_master].
  change (gather (multi_precision a) _) with
    (gather (multi_precision a) (lists_of inp o)).
  rewrite Hbufs. cbn [of_access mbind run_bind]. fold numels.
  fold numels in Hrun. rewrite Hrun.
  cbn [mbind run_bind fst snd tl_params tl_grads tl_moments1 tl_moments2
       tl_master params_out moments1_out moments2_out master_param_out
       beta1_pow_out beta2_pow_out launched app].
  rewrite scatter_same_length by (rewrite length_fmap; lia).
  destruct (use_global_beta_pow a) eqn:Hg; cbn [negb]; [reflexivity|].
  destruct (Hout eq_refl) as [Ho1 Ho2].
  unfold UpdateBetaPow. rewrite Hb1, Hb2. cbn [of_access mbind run_bind].
  rewrite !wr_in_range by lia. cbn [of_access mbind run_bind fst snd].
  reflexivity.
Qed.

Lemma scatter_lookup {A : Type} (new old : list A) t :
  (t < length new)%nat -> scatter new old !! t = new !! t.
Proof. intros Ht. unfold scatter. apply lookup_app_l. exact Ht. Qed.





End KernelFacts.

Section TraceCoverage.

Variables (fuel : nat) (compute_group_size blockDim : Z) (numels : list Z).
Hypothesis Hcgs : (0 < compute_group_size)%Z.
Hypothesis Hbd : (0 < blockDim)%Z.
Hypothesis Hfuel : (compute_group_size <= Z.of_nat fuel)%Z.

Local Open Scope Z_scope.

Let units := partition compute_group_size 0 numels.
Let tr : Trace := units ≫= unit_log fuel compute_group_size numels blockDim.








End TraceCoverage.

Section SkipFacts.
Context {T MT : Type} `{WideArith MT} (to_MT : T -> MT) (to_T : MT -> T).

Local Open Scope Z_scope.

Lemma copy_to_ok {A : Type} (src dst : list (list A)) (i : Z) :
  0 <= i < Z.of_nat (length src) -> 0 <= i < Z.of_nat (length dst) ->
  exists x, rd src i = Some x /\
    copy_to (rd src i) dst i = Finished (<[Z.to_nat i := x]> dst).
Proof.
  intros Hs Hd. destruct (rd_in_range src i Hs) as [x Hx].
  exists x. split; [assumption|]. unfold copy_to. rewrite Hx.
  cbn [of_access mbind run_bind]. rewrite wr_in_range by assumption.
  reflexivity.
Qed.

Lemma copied_lookup {A : Type} (src dst dst' : list (list A)) (i : Z) k x
    (ixs : list Z) :
  0 <= i < Z.of_nat (length dst) -> rd src i = Some x ->
  (forall k : nat, dst' !! k
     = if decide (Z.of_nat k ∈ ixs) then src !! k
       else <[Z.to_nat i := x]> dst !! k) ->
  dst' !! k
  = if decide (Z.of_nat k ∈ i :: ixs) then src !! k else dst !! k.
Proof.
  intros Hi Hx Hd. rewrite Hd.
  destruct (decide (Z.of_nat k ∈ ixs)) as [Hin|Hnin].
  - rewrite decide_True by (by right). reflexivity.
  - destruct (decide (Z.of_nat k = i)) as [<-|Hne].
    + rewrite decide_True by (by left).
      rewrite Nat2Z.id, list_lookup_insert_eq by lia.
      unfold rd in Hx. destruct (Z.of_nat k <? 0); [discriminate|].
      rewrite Nat2Z.id in Hx. congruence.
    + rewrite decide_False by (intros [?|?]%elem_of_cons; auto).
      apply list_lookup_insert_ne. lia.
Qed.

Lemma skip_copy_loop (inp : Inputs T MT) ixs : forall (o : Outputs T MT),
  skip_ready inp o ->
  Forall (fun i => 0 <= i < Z.of_nat (length (params inp))) ixs ->
  exists o',
    for_each ixs (skip_copy inp) o = Finished o' /\
    (forall k : nat, params_out o' !! k
       = if decide (Z.of_nat k ∈ ixs) then params inp !! k
         else params_out o !! k) /\
    (forall k : nat, moments1_out o' !! k
       = if decide (Z.of_nat k ∈ ixs) then moments1 inp !! k
         else moments1_out o !! k) /\
    (forall k : nat, moments2_out o' !! k
       = if decide (Z.of_nat k ∈ ixs) then moments2 inp !! k
         else moments2_out o !! k) /\
    master_param_out o' = master_param_out o /\
    beta1_pow_out o' = beta1_pow_out o /\
    beta2_pow_out o' = beta2_pow_out o /\
    launched o' = launched o.
Proof.
  induction ixs as [|i ixs IH]; intros o Hready Hixs.
  - exists o. cbn [for_each]. split; [reflexivity|].
    repeat split; intros; rewrite ?decide_False by apply not_elem_of_nil;
      reflexivity.
  - apply Forall_cons in Hixs as [Hi Hixs].
    destruct Hready as (L1 & L2 & L3 & L4 & L5).
    destruct (copy_to_ok (params inp) (params_out o) i) as (p & Hp & Ep);
      [lia..|].
    destruct (copy_to_ok (moments1 inp) (moments1_out o) i) as (m & Hm & Em);
      [lia..|].
    destruct (copy_to_ok (moments2 inp) (moments2_out o) i) as (v & Hv & Ev);
      [lia..|].
    assert (skip_copy inp i o
            = Finished {| params_out := <[Z.to_nat i := p]> (params_out o);
                          moments1_out := <[Z.to_nat i := m]> (moments1_out o);
                          moments2_out := <[Z.to_nat i := v]> (moments2_out o);
                          master_param_out := master_param_out o;
                          beta1_pow_out := beta1_pow_out o;
                          beta2_pow_out := beta2_pow_out o;
                          launched := launched o |}) as Hstep
      by (unfold skip_copy; rewrite Ep, Em, Ev; reflexivity).
    cbn [for_each]. rewrite Hstep. cbn [mbind run_bind].
    edestruct IH as (o' & Hrun & Fp & Fm & Fv & E1 & E2 & E3 & E4);
      [|exact Hixs|].
    2:{ exists o'. split; [exact Hrun|].
        cbn [params_out moments1_out moments2_out master_param_out
             beta1_pow_out beta2_pow_out launched] in *.
        split; [intros k; eapply copied_lookup; eauto; lia|].
        split; [intros k; eapply copied_lookup; eauto; lia|].
        split; [intros k; eapply copied_lookup; eauto; lia|].
        auto. }
    unfold skip_ready.
    cbn [params_out moments1_out moments2_out]. rewrite !length_insert.
    auto.
Qed.

(** The skip path of the kernel, as one equation. *)
Lemma kernel_skip_ok fuel (inp : Inputs T MT) (a : Attrs MT)
    (o : Outputs T MT) :
  resolve_skip_update inp = Finished true ->
  skip_ready inp o ->
  MultiTensorAdamKernel to_MT to_T fuel inp a o
  = Finished {| params_out := params inp;
                moments1_out := moments1 inp;
                moments2_out := moments2 inp;
                master_param_out := master_param_out o;
                beta1_pow_out := beta1_pow inp;
                beta2_pow_out := beta2_pow inp;
                launched := launched o |}.
Proof.
  intros Hskip Hready. unfold MultiTensorAdamKernel. rewrite Hskip.
  cbn [mbind run_bind].
  destruct (skip_copy_loop inp (seqZ 0 (Z.of_nat (length (params inp)))) o
              Hready) as (o' & -> & Fp & Fm & Fv & E1 & E2 & E3 & E4).
  { apply Forall_seqZ. intros; lia. }
  cbn [mbind run_bind]. destruct Hready as (L1 & L2 & L3 & L4 & L5).
  assert (forall (A : Type) (src dst dst' : list A),
            length dst = length (params inp) ->
            length src = length (params inp) ->
            (forall k : nat, dst' !! k
               = if decide (Z.of_nat k
                            ∈ seqZ 0 (Z.of_nat (length (params inp))))
                 then src !! k else dst !! k) ->
            dst' = src) as Hall.
  { intros A src dst dst' Ld Ls Hk. apply list_eq. intros k. rewrite Hk.
    destruct (decide _) as [|Hnin]; [reflexivity|].
    rewrite elem_of_seqZ in Hnin.
    rewrite !(proj2 (lookup_ge_None _ _)) by lia. reflexivity. }
  rewrite (Hall _ _ _ _ L3 eq_refl Fp), (Hall _ _ _ _ L4 L1 Fm),
    (Hall _ _ _ _ L5 L2 Fv), E1, E4.
  reflexivity.
Qed.

End SkipFacts.

Section ModeFacts.
Context {T MT : Type} `{WideLaws MT} (to_MT : T -> MT) (to_T : MT -> T).

Local Open Scope Z_scope.







End ModeFacts.

Section KernelTheorems.
Context {T MT : Type} `{WideArith MT} (to_MT : T -> MT) (to_T : MT -> T).

Local Open Scope Z_scope.




(** C4: when [skip_update] resolves to true the call copies [params],
    [moments1] and [moments2] into their outputs and the two beta powers
    into theirs, launches nothing (whatever the chunk size and the fuel),
    and a second such call on the outputs of the first leaves them as
    they are. *)
Theorem skip_update_is_noop (fuel : nat) (inp : Inputs T MT) (a : Attrs MT)
    (o : Outputs T MT) :
  resolve_skip_update inp = Finished true ->
  skip_ready inp o ->
  exists o',
    MultiTensorAdamKernel to_MT to_T fuel inp a o = Finished o' /\
    params_out o' = params inp /\
    moments1_out o' = moments1 inp /\
    moments2_out o' = moments2 inp /\
    beta1_pow_out o' = beta1_pow inp /\
    beta2_pow_out o' = beta2_pow inp /\
    launched o' = launched o /\
    MultiTensorAdamKernel to_MT to_T fuel (fed_back inp o') a o'
    = Finished o'.
Proof.
  intros Hskip Hready. eexists. split.
  { apply kernel_skip_ok; assumption. }
  cbn [params_out moments1_out moments2_out beta1_pow_out beta2_pow_out
       launched].
  repeat (split; [reflexivity|]).
  rewrite kernel_skip_ok; [reflexivity|exact Hskip|].
  destruct Hready as (L1 & L2 & _). unfold skip_ready, fed_back.
  cbn [params moments1 moments2 params_out moments1_out moments2_out].
  auto.
Qed.

(** C10: on the skip path with multi-precision the master-parameter
    outputs are left as they were: nothing is copied into them, whatever
    [master_param] holds. *)
Theorem skip_leaves_master_param_out (fuel : nat) (inp : Inputs T MT)
    (a : Attrs MT) (o : Outputs T MT) :
  resolve_skip_update inp = Finished true ->
  skip_ready inp o ->
  multi_precision a = true ->
  exists o',
    MultiTensorAdamKernel to_MT to_T fuel inp a o = Finished o' /\
    master_param_out o' = master_param_out o.
Proof.
  intros Hskip Hready _. eexists. split.
  { apply kernel_skip_ok; assumption. }
  reflexivity.
Qed.

(** C5, on the update path: when the update is not skipped, with
    [use_global_beta_pow] false the call stores [beta1 * beta1_pow] and
    [beta2 * beta2_pow] of the input powers in the beta-power outputs, and
    with it true the call leaves those outputs as they were. *)
Theorem beta_pow_update (fuel : nat) (inp : Inputs T MT) (a : Attrs MT)
    (o : Outputs T MT) :
  resolve_skip_update inp = Finished false ->
  update_ready fuel inp a o ->
  exists b1p b2p o',
    rd (beta1_pow inp) 0 = Some b1p /\
    rd (beta2_pow inp) 0 = Some b2p /\
    MultiTensorAdamKernel to_MT to_T fuel inp a o = Finished o' /\
    (use_global_beta_pow a = false ->
       beta1_pow_out o' = <[0%nat := (beta1_ a * b1p)%W]> (beta1_pow_out o) /\
       beta2_pow_out o' = <[0%nat := (beta2_ a * b2p)%W]> (beta2_pow_out o)) /\
    (use_global_beta_pow a = true ->
       beta1_pow_out o' = beta1_pow_out o /\
       beta2_pow_out o' = beta2_pow_out o).
Proof.
  intros Hskip Hready.
  destruct (kernel_update_ok to_MT to_T fuel inp a o Hskip Hready)
    as (lr0 & b1p & b2p & bufs & bufs' & _ & Hb1 & Hb2 & _ & _ & _ & _ & _
        & Hrun).
  eexists b1p, b2p, _. split; [exact Hb1|]. split; [exact Hb2|].
  split; [exact Hrun|].
  cbn [beta1_pow_out beta2_pow_out].
  split; intros ->; split; reflexivity.
Qed.

End KernelTheorems.

Section AdamSamples.

Import Samples.

Local Open Scope Z_scope.

Ltac sample_ready :=
  unfold update_ready; cbn;
  repeat match goal with
         | |- _ /\ _ => split
         | |- wf_lists _ _ =>
             let t := fresh "t" in
             let Ht := fresh "Ht" in
             intros t Ht; cbn in Ht;
             destruct t as [|t]; [|lia];
             eexists; split; [reflexivity|];
             unfold wf_buffers; cbn;
             repeat split; first [reflexivity | discriminate]
         | |- is_Some _ => eexists; reflexivity
         | |- _ -> _ => intros _
         | |- (_ < _)%Z => lia
         | |- (_ <= _)%Z => lia
         end.

Ltac sample_skip_ready := unfold skip_ready; cbn; repeat split.




Lemma skip_update_is_noop_witness :
  exists o',
    MultiTensorAdamKernel id id 0 (adam_inp (Some [true]))
      (adam_attrs true false) adam_out = Finished o' /\
    params_out o' = [[1; 2; 3]]%R /\
    beta1_pow_out o' = [1 / 2]%R /\
    launched o' = [].
Proof.
  destruct (skip_update_is_noop (MT := R) id id 0 (adam_inp (Some [true]))
              (adam_attrs true false) adam_out eq_refl
              ltac:(sample_skip_ready))
    as (o' & Hrun & Hp & _ & _ & Hb1 & _ & Hl & _).
  exists o'. repeat split; assumption.
Defined.

Lemma skip_leaves_master_param_out_witness :
  exists o',
    MultiTensorAdamKernel id id 0 (adam_inp (Some [true]))
      (adam_attrs true false) adam_out = Finished o' /\
    master_param_out o' = [[7; 7; 7]]%R.
Proof.
  exact (skip_leaves_master_param_out (MT := R) id id 0
           (adam_inp (Some [true])) (adam_attrs true false) adam_out eq_refl
           ltac:(sample_skip_ready) eq_refl).
Defined.

Lemma beta_pow_update_witness :
  exists o',
    MultiTensorAdamKernel id id 2 (adam_inp None) (adam_attrs false false)
      adam_out = Finished o' /\
    beta1_pow_out o' = [1 / 2 * (1 / 2)]%R.
Proof.
  destruct (beta_pow_update (MT := R) id id 2 (adam_inp None)
              (adam_attrs false false) adam_out eq_refl ltac:(sample_ready))
    as (b1p & b2p & o' & Hb1 & _ & Hrun & Hupd & _).
  exists o'. split; [exact Hrun|].
  injection Hb1 as <-. exact (proj1 (Hupd eq_refl)).
Defined.

(** C5 does not hold on the skip path: with [use_global_beta_pow]
    false the output power is the input power, not its product with
    [beta1]. *)
Lemma beta_pow_copied_on_skip :
  use_global_beta_pow (adam_attrs false false) = false /\
  exists o',
    MultiTensorAdamKernel id id 2 (adam_inp (Some [true]))
      (adam_attrs false false) adam_out = Finished o' /\
    beta1_pow_out o' = beta1_pow (adam_inp (Some [true])) /\
    beta1_pow_out o' <> [beta1_ (adam_attrs false false) * (1 / 2)]%R.
Proof.
  split; [reflexivity|]. eexists. split.
  { apply kernel_skip_ok; [reflexivity|sample_skip_ready]. }
  split; [reflexivity|].
  cbn. intros [= E]. lra.
Qed.

End AdamSamples.

End AdamFacts.

(** ** The matmul kernels *)

Module MatMulFacts.

Import MatMul.

Section ExecuteFacts.

Local Open Scope Z_scope.



End ExecuteFacts.

Section HeadNumberFacts.

Local Open Scope Z_scope.

Lemma check_head_number_rejects {S : Type} (ctx : Attrs) n (s : S) :
  head_number ctx = Some n -> n <> 1 ->
  check_head_number ctx s = (inl (Unimplemented n), s).
Proof.
  intros Hn Hne. unfold check_head_number. rewrite Hn.
  destruct (Z.eqb_spec n 1); [contradiction|reflexivity].
Qed.

End HeadNumberFacts.

Section BroadcastFacts.

Local Open Scope Z_scope.

Lemma compatible_true xd yd :
  compatible xd yd = true <-> xd = yd \/ xd = 1 \/ yd = 1.
Proof.
  unfold compatible. rewrite !orb_true_iff, !Z.eqb_eq. tauto.
Qed.

Lemma compatible_false xd yd :
  compatible xd yd = false <-> xd <> yd /\ xd <> 1 /\ yd <> 1.
Proof.
  unfold compatible. rewrite !orb_false_iff, !Z.eqb_neq. tauto.
Qed.

(** The loop of lines 500-514 either runs through or stops at the first
    position that does not broadcast; it never touches the state. *)
Lemma check_loop_outcome (x_bd y_bd : list Z) (st : FwdState) (n : nat) :
  forall k out_dims,
  0 <= k ->
  k + Z.of_nat n <= len x_bd -> k + Z.of_nat n <= len y_bd ->
  k + Z.of_nat n <= len out_dims ->
  (exists out',
     for_loop (seqZ k (Z.of_nat n)) (check_batch_dim x_bd y_bd) out_dims st
     = (inr out', st) /\
     len out' = len out_dims /\
     (forall i, rd out' i
        = if decide (k <= i < k + Z.of_nat n)
          then xd ← rd x_bd i; yd ← rd y_bd i; Some (Z.max xd yd)
          else rd out_dims i) /\
     (forall i xd yd, k <= i < k + Z.of_nat n ->
        rd x_bd i = Some xd -> rd y_bd i = Some yd ->
        compatible xd yd = true)) \/
  (exists i xd yd,
     for_loop (seqZ k (Z.of_nat n)) (check_batch_dim x_bd y_bd) out_dims st
     = (inl (InvalidArgument i xd yd), st) /\
     k <= i < k + Z.of_nat n /\
     rd x_bd i = Some xd /\ rd y_bd i = Some yd /\
     compatible xd yd = false /\
     (forall j xd' yd', k <= j < i ->
        rd x_bd j = Some xd' -> rd y_bd j = Some yd' ->
        compatible xd' yd' = true)).
Proof.
  induction n as [|n IH]; intros k out_dims Hk Hx Hy Ho.
  - left. exists out_dims. cbn. split; [reflexivity|]. split; [reflexivity|].
    split; [|intros; lia].
    intros i. rewrite decide_False by lia. reflexivity.
  - unfold len in *.
    assert (is_Some (rd x_bd k)) as [xd Hxd] by (apply rd_in_range; lia).
    assert (is_Some (rd y_bd k)) as [yd Hyd] by (apply rd_in_range; lia).
    assert (for_loop (seqZ k (Z.of_nat (S n))) (check_batch_dim x_bd y_bd)
              out_dims st
            = if compatible xd yd
              then for_loop (seqZ (Z.succ k) (Z.of_nat n))
                     (check_batch_dim x_bd y_bd)
                     (<[Z.to_nat k := Z.max xd yd]> out_dims) st
              else (inl (InvalidArgument k xd yd), st)) as Hstep.
    { rewrite seqZ_cons by lia. cbn [for_loop].
      replace (Z.pred (Z.of_nat (S n))) with (Z.of_nat n) by lia.
      unfold mbind at 1, M_bind. unfold check_batch_dim at 1.
      unfold mbind at 1, M_bind. rewrite Hxd. cbn [lift mret M_ret].
      unfold mbind at 1, M_bind. rewrite Hyd. cbn [lift mret M_ret].
      fold (compatible xd yd).
      destruct (compatible xd yd); [|reflexivity].
      rewrite wr_in_range by lia. reflexivity. }
    rewrite Hstep. clear Hstep.
    destruct (compatible xd yd) eqn:Hc.
    + destruct (IH (Z.succ k) (<[Z.to_nat k := Z.max xd yd]> out_dims))
        as [(out' & Hrun & Hlen & Hlk & Hall)
           |(i & xd' & yd' & Hrun & Hi & Hxi & Hyi & Hci & Hbefore)];
        [lia|lia|lia|rewrite length_insert; lia| |].
      * left. exists out'. split; [exact Hrun|].
        split; [rewrite length_insert in Hlen; exact Hlen|].
        split.
        -- intros i. rewrite Hlk.
           destruct (decide (Z.succ k <= i < Z.succ k + Z.of_nat n)).
           ++ rewrite decide_True by lia. reflexivity.
           ++ rewrite rd_insert by lia.
              destruct (decide (i = k)) as [->|].
              ** rewrite decide_True by lia. rewrite Hxd, Hyd. reflexivity.
              ** rewrite decide_False by lia. reflexivity.
        -- intros i xi yi Hi Hxi Hyi.
           destruct (decide (i = k)) as [->|]; [congruence|].
           apply (Hall i); [lia|assumption..].
      * right. exists i, xd', yd'. split; [exact Hrun|].
        split; [lia|]. repeat (split; [assumption|]).
        intros j xj yj Hj Hxj Hyj.
        destruct (decide (j = k)) as [->|]; [congruence|].
        apply (Hbefore j); [lia|assumption..].
    + right. exists k, xd, yd. split; [reflexivity|].
      split; [lia|]. repeat (split; [assumption|]). intros; lia.
Qed.

Lemma place_fold (v bd : list Z) (k : nat) :
  (k <= length v)%nat -> (length v <= length bd)%nat ->
  foldl (fun acc i =>
           bd ← acc;
           d ← rd v i;
           wr bd (len bd - len v + i) d)
    (Some bd) (seqZ 0 (Z.of_nat k))
  = Some (take (length bd - length v) bd ++ take k v
          ++ drop (length bd - length v + k) bd).
Proof.
  intros Hk Hlen. induction k as [|k IH].
  - rewrite seqZ_nil by lia. cbn [foldl]. rewrite take_0. cbn [app].
    rewrite Nat.add_0_r, take_drop. reflexivity.
  - rewrite seqZ_S, foldl_app, IH by lia. cbn [foldl mbind option_bind].
    destruct (lookup_lt_is_Some_2 v k ltac:(lia)) as [d Hd].
    assert (rd v (0 + Z.of_nat k) = Some d) as ->.
    { unfold rd. destruct (Z.ltb_spec (0 + Z.of_nat k) 0); [lia|].
      replace (Z.to_nat (0 + Z.of_nat k)) with k by lia. exact Hd. }
    cbn [mbind option_bind].
    set (m := (length bd - length v)%nat).
    assert (length (take m bd ++ take k v ++ drop (m + k) bd) = length bd)
      as Hl.
    { rewrite !length_app, !length_take, length_drop. subst m. lia. }
    rewrite wr_in_range by (unfold len; rewrite Hl; lia).
    f_equal. unfold len. rewrite Hl.
    replace (Z.to_nat (Z.of_nat (length bd) - Z.of_nat (length v)
                       + (0 + Z.of_nat k))) with (m + k)%nat
      by (subst m; lia).
    destruct (lookup_lt_is_Some_2 bd (m + k) ltac:(subst m; lia)) as [c Hc].
    rewrite (drop_S bd c (m + k) Hc).
    rewrite insert_app_r_alt by (rewrite length_take; lia).
    rewrite insert_app_r_alt by (rewrite !length_take; lia).
    rewrite !length_take.
    replace (m + k - m `min` length bd - k `min` length v)%nat with 0%nat
      by lia.
    cbn [insert list_insert].
    rewrite (take_S_r v k d Hd), <- !app_assoc. cbn [app].
    replace (m + S k)%nat with (S (m + k)) by lia. reflexivity.
Qed.

Lemma place_dims_aligned (v : list Z) (n : nat) slot1 :
  2 < len v -> (length v <= n)%nat ->
  place_dims v (replicate n 1) slot1
  = Some (replicate (n - length v) 1 ++ v).
Proof.
  intros Hv Hn. unfold place_dims.
  destruct (Z.eqb_spec (len v) 1); [lia|].
  destruct (Z.eqb_spec (len v) 2); [lia|].
  unfold len at 3.
  rewrite (place_fold v (replicate n 1) (length v)) by
    (rewrite ?length_replicate; lia).
  rewrite length_replicate, take_replicate, firstn_all.
  rewrite drop_ge by (rewrite length_replicate; lia).
  rewrite app_nil_r. f_equal. f_equal. f_equal. lia.
Qed.

Lemma CalculateMatrixDims_outcome ctx x_dims y_dims (st : FwdState) :
  IsOutputFused ctx = false -> 2 < len x_dims -> 2 < len y_dims ->
  let n := ndims_of x_dims y_dims in
  n - 2 <= len (dims (out st)) ->
  let x_bd := bd_dims n x_dims in
  let y_bd := bd_dims n y_dims in
  let r := CalculateMatrixDims ctx x_dims y_dims (replicate (Z.to_nat n) 1)
             (replicate (Z.to_nat n) 1) st in
  (exists out_dims,
     r = (inr (x_bd, y_bd),
          {| out := Resize (out st) out_dims;
             fwd_executed := fwd_executed st |}) /\
     len out_dims = len (dims (out st)) /\
     (forall i, rd out_dims i
        = if decide (0 <= i < n - 2)
          then xd ← rd x_bd i; yd ← rd y_bd i; Some (Z.max xd yd)
          else rd (dims (out st)) i) /\
     (forall i xd yd, 0 <= i < n - 2 ->
        rd x_bd i = Some xd -> rd y_bd i = Some yd ->
        compatible xd yd = true)) \/
  (exists i xd yd,
     r = (inl (InvalidArgument i xd yd), st) /\
     0 <= i < n - 2 /\
     rd x_bd i = Some xd /\ rd y_bd i = Some yd /\
     compatible xd yd = false /\
     (forall j xd' yd', 0 <= j < i ->
        rd x_bd j = Some xd' -> rd y_bd j = Some yd' ->
        compatible xd' yd' = true)).
Proof.
  intros Hfused Hx Hy n Hout x_bd y_bd r.
  assert (len x_dims <= n /\ len y_dims <= n /\ 3 <= n) as (Hxn & Hyn & Hn3)
    by (unfold n, ndims_of; lia).
  assert (len x_bd = n /\ len y_bd = n) as [Lx Ly].
  { unfold x_bd, y_bd, bd_dims, len in *.
    rewrite !length_app, !length_replicate. lia. }
  assert (r = (_ ← when true
                     (st ← get;
                      out_dims ← for_loop (seqZ 0 (Z.of_nat (Z.to_nat (n - 2))))
                                   (check_batch_dim x_bd y_bd) (dims (out st));
                      put {| out := Resize (out st) out_dims;
                             fwd_executed := fwd_executed st |});
                mret (x_bd, y_bd)) st) as Hr.
  { unfold r, CalculateMatrixDims.
    rewrite place_dims_aligned by (unfold len in *; lia).
    cbn [lift]. unfold mbind at 1, M_bind. cbn [mret M_ret].
    rewrite place_dims_aligned by (unfold len in *; lia).
    cbn [lift]. unfold mbind at 1, M_bind. cbn [mret M_ret].
    change (replicate (Z.to_nat n - length x_dims) 1 ++ x_dims) with x_bd.
    change (replicate (Z.to_nat n - length y_dims) 1 ++ y_dims) with y_bd.
    rewrite Hfused, Lx.
    destruct (Z.ltb_spec 2 (len x_dims)); [|lia].
    destruct (Z.ltb_spec 2 (len y_dims)); [|lia].
    cbn [negb andb]. rewrite Z2Nat.id by lia. reflexivity. }
  rewrite Hr. clear Hr. cbn [when].
  destruct (check_loop_outcome x_bd y_bd st (Z.to_nat (n - 2)) 0
              (dims (out st)))
    as [(out' & Hrun & Hlen & Hlk & Hall)
       |(i & xd & yd & Hrun & Hi & Hxi & Hyi & Hc & Hbefore)];
    [lia..| |].
  - left. exists out'. split.
    { unfold mbind at 1, M_bind. unfold mbind at 1, M_bind.
      cbn [get]. unfold mbind at 1, M_bind. rewrite Hrun. reflexivity. }
    split; [assumption|]. split.
    + intros i. rewrite Hlk.
      destruct (decide (0 <= i < 0 + Z.of_nat (Z.to_nat (n - 2))));
        [rewrite decide_True by lia|rewrite decide_False by lia];
        reflexivity.
    + intros i xd yd Hi. apply Hall. lia.
  - right. exists i, xd, yd. split.
    { unfold mbind at 1, M_bind. unfold mbind at 1, M_bind.
      cbn [get]. unfold mbind at 1, M_bind. rewrite Hrun. reflexivity. }
    split; [lia|]. repeat (split; [assumption|]). exact Hbefore.
Qed.

(** With a fused output, or an operand of rank at most 2, the step checks
    nothing and leaves [out] alone. *)
Lemma CalculateMatrixDims_unchecked ctx x_dims y_dims x_bd0 y_bd0
    (st : FwdState) :
  IsOutputFused ctx = true \/ len x_dims <= 2 \/ len y_dims <= 2 ->
  (CalculateMatrixDims ctx x_dims y_dims x_bd0 y_bd0 st).2 = st /\
  forall e, (CalculateMatrixDims ctx x_dims y_dims x_bd0 y_bd0 st).1 = inl e ->
    e = OutOfRange.
Proof.
  intros Hcase. unfold CalculateMatrixDims.
  assert (negb (IsOutputFused ctx) && (2 <? len x_dims) && (2 <? len y_dims)
          = false) as ->.
  { destruct Hcase as [->|[Hl|Hl]]; [reflexivity| |].
    - destruct (Z.ltb_spec 2 (len x_dims)); [lia|].
      rewrite andb_false_r. reflexivity.
    - destruct (Z.ltb_spec 2 (len y_dims)); [lia|].
      rewrite andb_false_r. reflexivity. }
  unfold mbind, M_bind, lift, raise, when, mret, M_ret.
  destruct (place_dims x_dims x_bd0 _) as [x_bd|]; cbn [fst snd];
    [|split; [reflexivity|intros e [= <-]; reflexivity]].
  destruct (place_dims y_dims y_bd0 _) as [y_bd|]; cbn [fst snd];
    [|split; [reflexivity|intros e [= <-]; reflexivity]].
  split; [reflexivity|discriminate].
Qed.

End BroadcastFacts.

Section ProductFacts.

Local Open Scope Z_scope.

Lemma sum_over_ext K (f g : Z -> Z) :
  (forall k, f k = g k) -> sum_over K f = sum_over K g.
Proof.
  intros Hfg. unfold sum_over. f_equal. apply list_fmap_ext.
  intros _ k _. apply Hfg.
Qed.

Lemma fmap_bind_list {A B C : Type} (f : B -> C) (g : A -> list B)
    (l : list A) :
  f <$> (l ≫= g) = l ≫= fun x => f <$> g x.
Proof.
  induction l as [|x l IH]; [reflexivity|].
  cbn [mbind list_bind]. rewrite fmap_app, IH. reflexivity.
Qed.

Lemma bind_ext_list {A B : Type} (f g : A -> list B) (l : list A) :
  (forall x, f x = g x) -> l ≫= f = l ≫= g.
Proof. intros Hfg. apply list_bind_ext; [intros x|]; auto. Qed.

(** On two matrices the handler's strided product is the product of the
    two factors, transposition being the choice of strides. *)
Lemma handler_product_2d (A B out : Tensor) (tA tB : bool) (scale : Z)
    ra ca rb cb :
  dims A = [ra; ca] -> dims B = [rb; cb] ->
  (tB = true -> factor_cols A tA = cb) ->
  exists h,
    MatMulMKLDNNHandler A tA B tB out scale = Some h /\
    matmul_primitive h (data A) (data B)
    = scaled (if scale =? 1 then None else Some scale)
        <$> mat_product A tA B tB.
Proof.
  intros HA HB Hinner. unfold MatMulMKLDNNHandler, mat_product.
  unfold factor_rows, factor_cols, factor_at, mat_at in *.
  rewrite HA, HB in *.
  cbn [rev app CreateMatrixDescriptor mbind option_bind height_ width_
       batch_size_].
  eexists. split; [reflexivity|].
  unfold matmul_primitive.
  cbn [out_md x_md y_md md_dims md_strides output_scale Z.eqb negb orb
       Z.ltb Z.compare].
  change (seqZ 0 1) with [0]. rewrite bind_singleton.
  rewrite fmap_bind_list. apply bind_ext_list. intros i.
  rewrite fmap_bind_list. apply bind_ext_list. intros j.
  cbn [fmap list_fmap]. f_equal. f_equal.
  apply sum_over_ext. intros k. unfold view_at.
  cbn [md_dims md_strides Z.eqb]. 
  destruct tA, tB; cbn [negb]; try specialize (Hinner eq_refl); subst.
  all: cbn [Pos.eqb]; f_equal; f_equal; f_equal; lia.
Qed.

End ProductFacts.

Section GradFacts.

Variable reorder : list Z -> list Z -> list Z.

Local Open Scope Z_scope.

Lemma bind_ok {S A B : Type} (m : M S A) (k : A -> M S B) s a s' :
  m s = (inr a, s') -> (m ≫= k) s = k a s'.
Proof. intros Hm. unfold mbind, M_bind. rewrite Hm. reflexivity. Qed.

Lemma bind_raise {S A B : Type} (m : M S A) (k : A -> M S B) s e s' :
  m s = (inl e, s') -> (m ≫= k) s = (inl e, s').
Proof. intros Hm. unfold mbind, M_bind. rewrite Hm. reflexivity. Qed.

Lemma attr_or_value {S A : Type} (a b : option A) v (s : S) :
  attr_value a b = Some v -> attr_or a b s = (inr v, s).
Proof.
  unfold attr_value, attr_or. destruct a as [v'|].
  - intros [= ->]. reflexivity.
  - intros ->. reflexivity.
Qed.

Lemma check_head_number_accepts {S : Type} (ctx : Attrs) (s : S) :
  head_number ctx = None \/ head_number ctx = Some 1 ->
  check_head_number ctx s = (inr tt, s).
Proof.
  unfold check_head_number. intros [->| ->]; reflexivity.
Qed.

Lemma set_out_same sel st d :
  out_of sel st = Some d -> set_out sel d st = st.
Proof.
  destruct sel, st as [dx0 dy0 ex]; cbn; intros ->; reflexivity.
Qed.

Lemma out_of_set_out sel t st : out_of sel (set_out sel t st) = Some t.
Proof. destruct sel; reflexivity. Qed.

Lemma out_of_log h sel st : out_of sel (log_execution h st) = out_of sel st.
Proof. destruct sel; reflexivity. Qed.

Lemma resize_to_spec sel x st d :
  out_of sel st = Some d ->
  resize_to sel x st = (inr (dims d), set_out sel (Resize d (dims x)) st).
Proof.
  intros Hd. unfold resize_to. unfold mbind at 1, M_bind. cbn [get].
  rewrite Hd. destruct (bool_decide_reflect (dims d = dims x)) as [E|_];
    cbn [negb when].
  - unfold mbind, M_bind, mret, M_ret. rewrite <- E.
    replace (Resize d (dims d)) with d by (destruct d; reflexivity).
    rewrite set_out_same by assumption. reflexivity.
  - unfold mbind, M_bind, mret, M_ret, put. reflexivity.
Qed.

Lemma restore_dims_spec sel d_dims x st d :
  out_of sel st = Some d ->
  restore_dims sel d_dims x st = (inr tt, set_out sel (restored d d_dims x) st).
Proof.
  intros Hd. unfold restore_dims, restored. unfold mbind at 1, M_bind.
  cbn [get]. rewrite Hd.
  destruct (bool_decide (d_dims = dims x)); cbn [negb when].
  - rewrite set_out_same by assumption. reflexivity.
  - reflexivity.
Qed.



End GradFacts.

Section MatMulTheorems.

Local Open Scope Z_scope.

(** C9.  A call of the forward kernel or of the gradient kernel whose
    [head_number] attribute is present and differs from 1 stops at its first
    statement with the [Unimplemented] error that carries the value
    received; the outputs and the log of executions are as they were. *)
Theorem head_number_rejected
    (reorder ddim_reshape ddim_transpose : list Z -> list Z -> list Z)
    (ExecuteMatMulV2 :
       OutType -> Attrs -> Tensor -> list Z -> bool -> Tensor -> list Z ->
       bool -> M FwdState unit)
    (T : ElemType) (ctx : Attrs) (x y dout : Tensor)
    (st_fwd : FwdState) (st_grad : GradState) (n : Z) :
  head_number ctx = Some n -> n <> 1 ->
  MatMulV2_Compute ddim_reshape ddim_transpose ExecuteMatMulV2 T ctx x y
    st_fwd = (inl (Unimplemented n), st_fwd) /\
  MatMulGrad_Compute reorder ctx x y dout st_grad
  = (inl (Unimplemented n), st_grad).
Proof.
  intros Hn Hne. split.
  - unfold MatMulV2_Compute.
    apply bind_raise, check_head_number_rejects; assumption.
  - unfold MatMulGrad_Compute.
    apply bind_raise, check_head_number_rejects; assumption.
Qed.


Lemma place_dims_Some (v bd : list Z) (slot1 : Z) :
  (length v <= length bd)%nat -> (2 <= length bd)%nat ->
  0 <= slot1 < len bd ->
  exists bd', place_dims v bd slot1 = Some bd' /\ length bd' = length bd.
Proof.
  intros Hv Hbd Hslot. unfold place_dims.
  destruct (Z.eqb_spec (len v) 1) as [H1|H1].
  - assert (is_Some (rd v 0)) as [d0 ->]
      by (apply rd_in_range; unfold len in H1; lia).
    cbn [mbind option_bind]. rewrite wr_in_range by (unfold len in *; lia).
    eexists. split; [reflexivity|]. apply length_insert.
  - destruct (Z.eqb_spec (len v) 2) as [H2|H2].
    + assert (is_Some (rd v 1)) as [d1 ->]
        by (apply rd_in_range; unfold len in H2; lia).
      assert (is_Some (rd v 0)) as [d0 Hd0]
        by (apply rd_in_range; unfold len in H2; lia).
      cbn [mbind option_bind].
      rewrite wr_in_range by (unfold len in *; lia).
      cbn [mbind option_bind]. rewrite Hd0. cbn [mbind option_bind].
      rewrite wr_in_range by (unfold len; rewrite length_insert; lia).
      eexists. split; [reflexivity|]. rewrite !length_insert. reflexivity.
    + unfold len at 3.
      rewrite (place_fold v bd (length v)) by lia.
      eexists. split; [reflexivity|].
      rewrite !length_app, !length_take, length_drop. lia.
Qed.

(** C3.  The forward kernel brings both shapes to [ndims] extents,
    right-aligned and filled with 1.  When the output is not fused and both
    operands have rank above 2, it walks the leading [ndims - 2] positions
    in order: at the first one whose two extents differ with neither equal
    to 1 it fails with [InvalidArgument] carrying that position and the two
    extents, and [out] is as it was; when there is none, [out] is resized so
    that each leading extent is the larger of the two and the others are
    kept.  When the output is fused, or an operand has rank at most 2,
    nothing is checked and [out] is as it was. *)
Theorem CalculateMatrixDims_broadcast ctx x_dims y_dims (st : FwdState) :
  let n := ndims_of x_dims y_dims in
  let x_bd := bd_dims n x_dims in
  let y_bd := bd_dims n y_dims in
  let r := CalculateMatrixDims ctx x_dims y_dims (replicate (Z.to_nat n) 1)
             (replicate (Z.to_nat n) 1) st in
  n - 2 <= len (dims (out st)) ->
  if negb (IsOutputFused ctx) && (2 <? len x_dims) && (2 <? len y_dims)
  then
    (exists out_dims,
       r = (inr (x_bd, y_bd),
            {| out := Resize (out st) out_dims;
               fwd_executed := fwd_executed st |}) /\
       len out_dims = len (dims (out st)) /\
       (forall i, rd out_dims i
          = if decide (0 <= i < n - 2)
            then xd ← rd x_bd i; yd ← rd y_bd i; Some (Z.max xd yd)
            else rd (dims (out st)) i) /\
       (forall i xd yd, 0 <= i < n - 2 ->
          rd x_bd i = Some xd -> rd y_bd i = Some yd ->
          compatible xd yd = true)) \/
    (exists i xd yd,
       r = (inl (InvalidArgument i xd yd), st) /\
       0 <= i < n - 2 /\
       rd x_bd i = Some xd /\ rd y_bd i = Some yd /\
       compatible xd yd = false /\
       (forall j xd' yd', 0 <= j < i ->
          rd x_bd j = Some xd' -> rd y_bd j = Some yd' ->
          compatible xd' yd' = true))
  else exists bd, r = (inr bd, st).
Proof.
  intros n x_bd y_bd r Hout.
  destruct (negb (IsOutputFused ctx) && (2 <? len x_dims)
            && (2 <? len y_dims)) eqn:Hguard.
  - apply andb_prop in Hguard as [Hguard Hy].
    apply andb_prop in Hguard as [Hfused Hx].
    apply negb_true_iff in Hfused.
    apply Z.ltb_lt in Hx, Hy.
    exact (CalculateMatrixDims_outcome ctx x_dims y_dims st Hfused Hx Hy
             Hout).
  - assert (len x_dims <= n /\ len y_dims <= n /\ 3 <= n) as (Hxn & Hyn & Hn3)
      by (unfold n, ndims_of; lia).
    destruct (place_dims_Some x_dims (replicate (Z.to_nat n) 1)
                (len (replicate (Z.to_nat n) 1) - 1))
      as (x_bd' & Hpx & Lx);
      [unfold len in *; rewrite ?length_replicate; lia..|].
    rewrite length_replicate in Lx.
    destruct (place_dims_Some y_dims (replicate (Z.to_nat n) 1)
                (len x_bd' - 2))
      as (y_bd' & Hpy & Ly);
      [unfold len in *; rewrite ?length_replicate; lia..|].
    exists (x_bd', y_bd'). unfold r, CalculateMatrixDims.
    rewrite Hpx. cbn [lift]. unfold mbind at 1, M_bind. cbn [mret M_ret].
    rewrite Hpy. cbn [lift]. unfold mbind at 1, M_bind. cbn [mret M_ret].
    rewrite Hguard. reflexivity.
Qed.

End MatMulTheorems.

Section MatMulSamples.

Import Samples.

Local Open Scope Z_scope.

Lemma head_number_rejected_witness :
  MatMulV2_Compute no_reshape no_reshape no_execute Float32
    (matmul_ctx (Some 2) false false []) mat_x mat_y (fwd_state [2; 2])
  = (inl (Unimplemented 2), fwd_state [2; 2]) /\
  MatMulGrad_Compute no_reorder (matmul_ctx (Some 2) false false []) mat_x
    mat_y mat_dout grad_state
  = (inl (Unimplemented 2), grad_state).
Proof.
  exact (head_number_rejected no_reorder no_reshape no_reshape no_execute
           Float32 (matmul_ctx (Some 2) false false []) mat_x mat_y mat_dout
           (fwd_state [2; 2]) grad_state 2 eq_refl ltac:(lia)).
Defined.

(** C3 does not hold when the output is fused: the leading extents 3
    and 2 do not broadcast, yet the step reports nothing. *)
Lemma fused_output_skips_broadcast_check :
  compatible 3 2 = false /\
  CalculateMatrixDims (matmul_ctx None false false [2; 2]) [3; 2; 2]
    [2; 2; 2] [1; 1; 1] [1; 1; 1] (fwd_state [3; 2; 2])
  = (inr ([3; 2; 2], [2; 2; 2]), fwd_state [3; 2; 2]).
Proof. split; reflexivity. Qed.

Lemma CalculateMatrixDims_broadcast_witness :
  exists i xd yd,
    CalculateMatrixDims (matmul_ctx None false false []) [3; 2; 2] [2; 2; 2]
      [1; 1; 1] [1; 1; 1] (fwd_state [3; 2; 2])
    = (inl (MatMul.InvalidArgument i xd yd), fwd_state [3; 2; 2]) /\
    compatible xd yd = false.
Proof.
  destruct (CalculateMatrixDims_broadcast (matmul_ctx None false false [])
              [3; 2; 2] [2; 2; 2] (fwd_state [3; 2; 2])
              ltac:(vm_compute; discriminate)
            : _ \/ _)
    as [(od & Hr & _)|(i & xd & yd & Hr & _ & _ & _ & Hc & _)].
  - vm_compute in Hr. discriminate Hr.
  - exists i, xd, yd. split; assumption.
Defined.



(** A gradient that is not requested is not skipped: the first execution
    dereferences the null output. *)
Lemma grad_absent_output_fails :
  MatMulGrad_Compute no_reorder (matmul_ctx None false false []) mat_x mat_y
    mat_dout {| dx := None; dy := dy grad_state; executed := [] |}
  = (inl NullPointer, {| dx := None; dy := dy grad_state; executed := [] |}).
Proof. reflexivity. Qed.


End MatMulSamples.

End MatMulFacts.

(** ** More on the Adam kernel *)

Module AdamMore.

Import Adam AdamFacts.

Section TensorwiseFacts.
Context {T MT : Type} `{WideArith MT} (to_MT : T -> MT) (to_T : MT -> T).

Local Open Scope Z_scope.

Lemma gather_fields mp (tl : TensorLists T MT) t b :
  gather mp tl t = Some b ->
  tl_grads tl !! t = Some (buf_g b) /\
  tl_params tl !! t = Some (buf_p b) /\
  tl_moments1 tl !! t = Some (buf_m b) /\
  tl_moments2 tl !! t = Some (buf_v b) /\
  (mp = true -> tl_master tl !! t = Some (buf_mp b)).
Proof.
  unfold gather.
  destruct (tl_grads tl !! t); cbn [mbind option_bind]; [|discriminate].
  destruct (tl_params tl !! t); cbn [mbind option_bind]; [|discriminate].
  destruct (tl_moments1 tl !! t); cbn [mbind option_bind]; [|discriminate].
  destruct (tl_moments2 tl !! t); cbn [mbind option_bind]; [|discriminate].
  destruct mp.
  - destruct (tl_master tl !! t); cbn [mbind option_bind]; [|discriminate].
    intros [= <-]. repeat split; reflexivity.
  - cbn [mbind option_bind]. intros [= <-]. repeat split; try reflexivity.
    discriminate.
Qed.

Lemma rd_of_nat {A : Type} (l : list A) (t : nat) :
  rd l (Z.of_nat t) = l !! t.
Proof.
  unfold rd. destruct (Z.ltb_spec (Z.of_nat t) 0); [lia|].
  rewrite Nat2Z.id. reflexivity.
Qed.

Lemma scatter_lookup_ge {A : Type} (new old : list A) t :
  (length new <= t)%nat -> scatter new old !! t = old !! t.
Proof.
  intros Ht. unfold scatter. rewrite lookup_app_r by exact Ht.
  rewrite lookup_drop. f_equal. lia.
Qed.

(** The update path tensor by tensor: each tensor of [params_out] has its
    buffers replaced by their update, and what lies beyond is kept. *)
Lemma kernel_tensorwise fuel (inp : Inputs T MT) (a : Attrs MT)
    (o : Outputs T MT) :
  resolve_skip_update inp = Finished false ->
  update_ready fuel inp a o ->
  exists lr0 b1p b2p o',
    rd (learning_rate inp) 0 = Some lr0 /\
    rd (beta1_pow inp) 0 = Some b1p /\
    rd (beta2_pow inp) 0 = Some b2p /\
    MultiTensorAdamKernel to_MT to_T fuel inp a o = Finished o' /\
    length (params_out o') = length (params_out o) /\
    (forall t, (t < length (params_out o))%nat ->
       exists b b',
         gather (multi_precision a) (lists_of inp o) t = Some b /\
         wf_buffers (multi_precision a) (Z.of_nat (length (buf_p b))) b /\
         updated to_MT to_T (hyper_of inp a lr0 b1p b2p) (multi_precision a)
           b b' /\
         params_out o' !! t = Some (buf_p b') /\
         moments1_out o' !! t = Some (buf_m b') /\
         moments2_out o' !! t = Some (buf_v b') /\
         (multi_precision a = true ->
            master_param_out o' !! t = Some (buf_mp b'))) /\
    (forall t, (length (params_out o) <= t)%nat ->
       moments1_out o' !! t = moments1_out o !! t /\
       moments2_out o' !! t = moments2_out o !! t /\
       master_param_out o' !! t = master_param_out o !! t) /\
    (multi_precision a = false ->
       master_param_out o' = master_param_out o) /\
    beta1_pow_out o'
    = (if use_global_beta_pow a then beta1_pow_out o
       else <[0%nat := (beta1_ a * b1p)%W]> (beta1_pow_out o)) /\
    beta2_pow_out o'
    = (if use_global_beta_pow a then beta2_pow_out o
       else <[0%nat := (beta2_ a * b2p)%W]> (beta2_pow_out o)).
Proof.
  intros Hskip Hready.
  destruct (kernel_update_ok to_MT to_T fuel inp a o Hskip Hready)
    as (lr0 & b1p & b2p & bufs & bufs' & Hlr & Hb1 & Hb2 & _ & Hlen & Hgath
        & Hlen' & Hupd & Hrun).
  eexists lr0, b1p, b2p, _.
  split; [exact Hlr|]. split; [exact Hb1|]. split; [exact Hb2|].
  split; [exact Hrun|].
  cbn [params_out moments1_out moments2_out master_param_out beta1_pow_out
       beta2_pow_out].
  split; [rewrite length_fmap; lia|].
  split; [|split; [|split; [|split; reflexivity]]].
  - intros t Ht.
    destruct (lookup_lt_is_Some_2 bufs t ltac:(lia)) as [b Hb].
    pose proof (Hgath t b Hb) as Hg.
    destruct (Hupd (Z.of_nat t) b) as (b' & Hb' & Hu).
    { rewrite rd_of_nat. exact Hb. }
    rewrite rd_of_nat in Hb'.
    destruct Hready as (Hwf & _).
    destruct (Hwf t Ht) as (b0 & Hg0 & Hwfb). rewrite Hg in Hg0.
    injection Hg0 as <-.
    exists b, b'. split; [exact Hg|]. split; [exact Hwfb|].
    split; [exact Hu|].
    rewrite !scatter_lookup by (rewrite length_fmap; lia).
    rewrite !list_lookup_fmap, Hb'. cbn [fmap option_fmap option_map].
    repeat (split; [reflexivity|]).
    intros ->. rewrite scatter_lookup by (rewrite length_fmap; lia).
    rewrite list_lookup_fmap, Hb'. reflexivity.
  - intros t Ht.
    rewrite !scatter_lookup_ge by (rewrite length_fmap; lia).
    repeat (split; [reflexivity|]).
    destruct (multi_precision a); [|reflexivity].
    apply scatter_lookup_ge. rewrite length_fmap. lia.
  - intros ->. reflexivity.
Qed.

End TensorwiseFacts.

Section KernelProperties.
Context {T MT : Type} `{WideArith MT} (to_MT : T -> MT) (to_T : MT -> T).

Local Open Scope Z_scope.

(** X1.  A [skip_update] tensor that does not hold exactly one element
    stops the kernel with [InvalidArgument] carrying the count received,
    whatever the other arguments: no output is produced. *)
Theorem skip_update_count_rejected (fuel : nat) (inp : Inputs T MT)
    (a : Attrs MT) (o : Outputs T MT) (sk : list bool) :
  skip_update inp = Some sk ->
  length sk <> 1%nat ->
  MultiTensorAdamKernel to_MT to_T fuel inp a o
  = InvalidArgument (Z.of_nat (length sk)).
Proof.
  intros Hsk Hlen. unfold MultiTensorAdamKernel, resolve_skip_update.
  rewrite Hsk. destruct (Z.eqb_spec (Z.of_nat (length sk)) 1); [lia|].
  reflexivity.
Qed.

(** X2.  When the update is not skipped the kernel works in place on the
    output tensors: [params], [moments1], [moments2] and [master_param]
    are never read, so two calls that differ in them alone have the same
    outcome. *)
Theorem update_reads_outputs_only (fuel : nat) (inp inp' : Inputs T MT)
    (a : Attrs MT) (o : Outputs T MT) :
  resolve_skip_update inp = Finished false ->
  resolve_skip_update inp' = Finished false ->
  grads inp' = grads inp ->
  beta1_pow inp' = beta1_pow inp ->
  beta2_pow inp' = beta2_pow inp ->
  learning_rate inp' = learning_rate inp ->
  MultiTensorAdamKernel to_MT to_T fuel inp' a o
  = MultiTensorAdamKernel to_MT to_T fuel inp a o.
Proof.
  intros Hs Hs' Hg Hb1 Hb2 Hlr. unfold MultiTensorAdamKernel, lists_of.
  rewrite Hs, Hs', Hg, Hb1, Hb2, Hlr. reflexivity.
Qed.

(** X3.  The update keeps every shape: the output lists have the tensors
    they had, each with its element count. *)
Theorem update_keeps_shapes (fuel : nat) (inp : Inputs T MT) (a : Attrs MT)
    (o : Outputs T MT) :
  resolve_skip_update inp = Finished false ->
  update_ready fuel inp a o ->
  exists o',
    MultiTensorAdamKernel to_MT to_T fuel inp a o = Finished o' /\
    length <$> params_out o' = length <$> params_out o /\
    length <$> moments1_out o' = length <$> moments1_out o /\
    length <$> moments2_out o' = length <$> moments2_out o /\
    length <$> master_param_out o' = length <$> master_param_out o.
Proof.
  intros Hskip Hready.
  destruct (kernel_tensorwise to_MT to_T fuel inp a o Hskip Hready)
    as (lr0 & b1p & b2p & o' & _ & _ & _ & Hrun & Hlen & Hin & Hout & Hmp
        & _).
  exists o'. split; [exact Hrun|].
  assert (forall t, (t < length (params_out o))%nat ->
            length <$> params_out o' !! t = length <$> params_out o !! t /\
            length <$> moments1_out o' !! t
            = length <$> moments1_out o !! t /\
            length <$> moments2_out o' !! t
            = length <$> moments2_out o !! t /\
            (multi_precision a = true ->
               length <$> master_param_out o' !! t
               = length <$> master_param_out o !! t)) as Hsame.
  { intros t Ht.
    destruct (Hin t Ht) as (b & b' & Hg & Hwf & Hu & Hp & Hm & Hv & Hq).
    destruct (gather_fields _ _ _ _ Hg) as (_ & Gp & Gm & Gv & Gq).
    cbn [lists_of tl_params tl_moments1 tl_moments2 tl_master] in *.
    destruct Hu as (_ & (_ & Lp & Lm & Lv & Lq) & _).
    destruct Hwf as (_ & _ & Km & Kv & Kq).
    rewrite Hp, Hm, Hv, Gp, Gm, Gv. cbn [fmap option_fmap option_map].
    repeat split; try (f_equal; lia).
    intros E. rewrite (Hq E), (Gq E). cbn [fmap option_fmap option_map].
    f_equal. specialize (Lq E). specialize (Kq E). lia. }
  repeat split; apply list_eq; intros t; rewrite !list_lookup_fmap.
  - destruct (decide (t < length (params_out o))%nat) as [Ht|Ht].
    + apply Hsame. exact Ht.
    + rewrite !(proj2 (lookup_ge_None _ _)) by lia. reflexivity.
  - destruct (decide (t < length (params_out o))%nat) as [Ht|Ht].
    + apply Hsame. exact Ht.
    + destruct (Hout t ltac:(lia)) as (-> & _). reflexivity.
  - destruct (decide (t < length (params_out o))%nat) as [Ht|Ht].
    + apply Hsame. exact Ht.
    + destruct (Hout t ltac:(lia)) as (_ & -> & _). reflexivity.
  - destruct (multi_precision a) eqn:E.
    + destruct (decide (t < length (params_out o))%nat) as [Ht|Ht].
      * apply Hsame; [exact Ht|reflexivity].
      * destruct (Hout t ltac:(lia)) as (_ & _ & ->). reflexivity.
    + rewrite (Hmp eq_refl). reflexivity.
Qed.

(** X4.  Without multi-precision the update leaves [master_param_out]
    as it was. *)
Theorem update_keeps_master_without_multi_precision (fuel : nat)
    (inp : Inputs T MT) (a : Attrs MT) (o : Outputs T MT) :
  resolve_skip_update inp = Finished false ->
  update_ready fuel inp a o ->
  multi_precision a = false ->
  exists o',
    MultiTensorAdamKernel to_MT to_T fuel inp a o = Finished o' /\
    master_param_out o' = master_param_out o.
Proof.
  intros Hskip Hready Hmp.
  destruct (kernel_tensorwise to_MT to_T fuel inp a o Hskip Hready)
    as (lr0 & b1p & b2p & o' & _ & _ & _ & Hrun & _ & _ & _ & Hkeep & _).
  exists o'. split; [exact Hrun|exact (Hkeep Hmp)].
Qed.

(** X5.  With multi-precision every updated parameter is the cast of its
    updated master copy: an element of a tensor of [params_out] is
    [static_cast<T>] of the element of [master_param_out] at the same
    place. *)
Theorem update_param_is_cast_of_master (fuel : nat) (inp : Inputs T MT)
    (a : Attrs MT) (o : Outputs T MT) :
  resolve_skip_update inp = Finished false ->
  update_ready fuel inp a o ->
  multi_precision a = true ->
  exists o',
    MultiTensorAdamKernel to_MT to_T fuel inp a o = Finished o' /\
    forall t j x, (t < length (params_out o))%nat ->
      elem_at (master_param_out o') t j = Some x ->
      elem_at (params_out o') t j = Some (to_T x).
Proof.
  intros Hskip Hready Hmp.
  destruct (kernel_tensorwise to_MT to_T fuel inp a o Hskip Hready)
    as (lr0 & b1p & b2p & o' & _ & _ & _ & Hrun & _ & Hin & _).
  exists o'. split; [exact Hrun|].
  intros t j x Ht Hx.
  destruct (Hin t Ht) as (b & b' & _ & _ & Hu & Hp & _ & _ & Hq).
  unfold elem_at in *. rewrite (Hq Hmp) in Hx. rewrite Hp.
  cbn [mbind option_bind] in *.
  destruct Hu as (_ & (_ & Lp & _ & _ & Lq) & _ & Hpt).
  pose proof (rd_Some_range _ _ _ Hx) as Hj. rewrite (Lq Hmp) in Hj.
  destruct (Hpt j Hj) as (r & _ & Hview).
  unfold elem_view, stored_view in Hview. rewrite Hmp in Hview.
  injection Hview as Vp _ _ Vq. rewrite Hx in Vq. injection Vq as ->.
  exact Vp.
Qed.

(** X6.  What the update asks of its arguments it also leaves behind: the
    outputs of an update are ready for the next update with the same
    inputs, which therefore finishes too. *)
Theorem update_ready_is_kept (fuel : nat) (inp : Inputs T MT) (a : Attrs MT)
    (o : Outputs T MT) :
  resolve_skip_update inp = Finished false ->
  update_ready fuel inp a o ->
  exists o' o'',
    MultiTensorAdamKernel to_MT to_T fuel inp a o = Finished o' /\
    update_ready fuel inp a o' /\
    MultiTensorAdamKernel to_MT to_T fuel inp a o' = Finished o''.
Proof.
  intros Hskip Hready.
  destruct (kernel_tensorwise to_MT to_T fuel inp a o Hskip Hready)
    as (lr0 & b1p & b2p & o' & _ & _ & _ & Hrun & Hlen & Hin & _ & _ & Ho1
        & Ho2).
  assert (update_ready fuel inp a o') as Hready'.
  { destruct Hready as (Hwf & Hcgs & Hfuel & Hl & Hp1 & Hp2 & Hout).
    split; [|repeat (split; [assumption|])].
    - intros t Ht. cbn [lists_of tl_params] in Ht. rewrite Hlen in Ht.
      destruct (Hin t Ht) as (b & b' & Hg & Hwfb & Hu & Hp & Hm & Hv & Hq).
      destruct (gather_fields _ _ _ _ Hg) as (Gg & _).
      destruct Hu as (Eg & Hwf' & Hkeep & _).
      cbn [lists_of tl_grads] in Gg.
      exists {| buf_g := buf_g b; buf_p := buf_p b'; buf_m := buf_m b';
                buf_v := buf_v b';
                buf_mp := if multi_precision a then buf_mp b' else [] |}.
      split.
      + unfold gather. cbn [lists_of tl_grads tl_params tl_moments1
                            tl_moments2 tl_master].
        rewrite Gg, Hp, Hm, Hv. cbn [mbind option_bind].
        destruct (multi_precision a); [rewrite (Hq eq_refl)|]; reflexivity.
      + destruct Hwf' as (Lg & Lp & Lm & Lv & Lq).
        unfold wf_buffers. cbn [buf_g buf_p buf_m buf_v buf_mp].
        rewrite <- Eg.
        repeat (split; [lia|]).
        intros E. rewrite E. specialize (Lq E). lia.
    - intros E. destruct (Hout E) as [L1 L2]. rewrite Ho1, Ho2, E.
      rewrite !length_insert. split; assumption. }
  destruct (kernel_tensorwise to_MT to_T fuel inp a o' Hskip Hready')
    as (_ & _ & _ & o'' & _ & _ & _ & Hrun' & _).
  exists o', o''. split; [exact Hrun|]. split; [exact Hready'|exact Hrun'].
Qed.

(** X7.  One thread of one work-unit touches its own tensor alone, leaves
    the gradient of that tensor as it was, and changes no element outside
    its chunk, beyond the tensor's length, or off its own stride
    [threadIdx + q * blockDim] from the start of the chunk. *)
Theorem functor_thread_frame (fuel : nat) (compute_group_size : Z)
    (tabi : TensorAndBlockInf) (beta1 beta2 : MT)
    (beta1_pow_ beta2_pow_ : list MT) (epsilon : MT)
    (learning_rate : list MT) (mode mp : bool) (decay : MT)
    (blockIdx threadIdx blockDim : Z) (mem : list (TensorBuffers T MT))
    (log : Trace) (t cg sz : Z) (b : TensorBuffers T MT) :
  is_Some (rd learning_rate 0) ->
  is_Some (rd beta1_pow_ 0) ->
  is_Some (rd beta2_pow_ 0) ->
  compute_group_size <= Z.of_nat fuel ->
  rd (tenosr_for_this_block tabi) blockIdx = Some t ->
  rd (compute_group_for_this_block tabi) blockIdx = Some cg ->
  rd (sizes tabi) t = Some sz ->
  0 <= (cg + start_compute_group_this_tensor tabi) * compute_group_size ->
  0 < blockDim -> 0 <= threadIdx ->
  rd mem t = Some b -> wf_buffers mp sz b ->
  let off := (cg + start_compute_group_this_tensor tabi)
             * compute_group_size in
  exists mem' log' b',
    CudaKernelFunctor to_MT to_T fuel compute_group_size tabi beta1 beta2
      beta1_pow_ beta2_pow_ epsilon learning_rate mode mp decay blockIdx
      threadIdx blockDim (mem, log) = Finished (mem', log') /\
    length mem' = length mem /\
    (forall t', t' <> t -> rd mem' t' = rd mem t') /\
    rd mem' t = Some b' /\
    buf_g b' = buf_g b /\
    (mp = false -> buf_mp b' = buf_mp b) /\
    forall j,
      j < off \/ off + compute_group_size <= j \/ sz <= j
      \/ (j - off - threadIdx) mod blockDim <> 0 ->
      elem_view mp b' j = elem_view mp b j.
Proof.
  intros [lr0 Hlr] [b1p Hb1] [b2p Hb2] Hfuel Ht Hcg Hsz Hoff Hbd Htid Hb Hwf
    off.
  destruct (functor_ok to_MT to_T fuel compute_group_size beta1 beta2
              epsilon decay beta1_pow_ beta2_pow_ learning_rate mode mp lr0
              b1p b2p Hlr Hb1 Hb2 Hfuel tabi blockIdx blockDim t cg sz Ht Hcg
              Hsz Hoff Hbd threadIdx mem log b Hb Hwf Htid)
    as (b' & Hrun & Hupd & Hwf').
  cbn beta in Hrun, Hupd. fold off in Hrun, Hupd.
  pose proof (rd_Some_range _ _ _ Hb) as Htr.
  set (js := concat (trips fuel (sz - off) compute_group_size off threadIdx
                       blockDim 0)) in *.
  assert (forall z, z ∈ js ->
            off <= z < off + compute_group_size /\ z < sz /\
            (z - off - threadIdx) mod blockDim = 0) as Hjs.
  { intros z Hz.
    apply (elem_of_trips (sz - off) compute_group_size off z fuel threadIdx
             blockDim Htid Hbd 0 ltac:(lia) ltac:(lia)) in Hz
      as (q & Hq & -> & Hlt1 & Hlt2).
    repeat split; try nia.
    replace (off + (0 + threadIdx + q * blockDim) - off - threadIdx)
      with (q * blockDim) by lia.
    apply Z.mod_mul. lia. }
  assert (Forall (fun j => 0 <= j < sz) js) as Hrange.
  { apply Forall_forall. intros z Hz. destruct (Hjs z Hz). lia. }
  destruct (run_updates_pointwise to_MT to_T _ mp sz js
              (NoDup_trips (sz - off) compute_group_size off fuel threadIdx
                 blockDim Htid Hbd 0 ltac:(lia) ltac:(lia))
              b b' Hwf Hrange Hupd) as (Hg & _ & Hq & Hpt).
  eexists _, _, b'. split; [exact Hrun|].
  split; [apply length_insert|].
  split; [|split; [|split; [exact Hg|split; [exact Hq|]]]].
  - intros t' Hne. rewrite rd_insert by lia.
    destruct (decide (t' = t)); [contradiction|reflexivity].
  - rewrite rd_insert by lia. rewrite decide_True by reflexivity.
    reflexivity.
  - intros j Hj. apply (Hpt j). intros Hin.
    destruct (Hjs j Hin) as (H1 & H2 & H3). lia.
Qed.

(** X8.  A thread whose chunk starts at or past the end of its tensor,
    or whose launch has a chunk size that is not positive, does nothing:
    no trip of the loop is made, the memory and the trace of accesses are
    as they were. *)
Theorem functor_beyond_tensor_is_noop (fuel : nat) (compute_group_size : Z)
    (tabi : TensorAndBlockInf) (beta1 beta2 : MT)
    (beta1_pow_ beta2_pow_ : list MT) (epsilon : MT)
    (learning_rate : list MT) (mode mp : bool) (decay : MT)
    (blockIdx threadIdx blockDim : Z) (mem : list (TensorBuffers T MT))
    (log : Trace) (t cg sz : Z) (b : TensorBuffers T MT) :
  is_Some (rd learning_rate 0) ->
  is_Some (rd beta1_pow_ 0) ->
  is_Some (rd beta2_pow_ 0) ->
  rd (tenosr_for_this_block tabi) blockIdx = Some t ->
  rd (compute_group_for_this_block tabi) blockIdx = Some cg ->
  rd (sizes tabi) t = Some sz ->
  rd mem t = Some b ->
  sz <= (cg + start_compute_group_this_tensor tabi) * compute_group_size
  \/ compute_group_size <= 0 ->
  CudaKernelFunctor to_MT to_T fuel compute_group_size tabi beta1 beta2
    beta1_pow_ beta2_pow_ epsilon learning_rate mode mp decay blockIdx
    threadIdx blockDim (mem, log) = Finished (mem, log).
Proof.
  intros [lr0 Hlr] [b1p Hb1] [b2p Hb2] Ht Hcg Hsz Hb Hedge.
  unfold CudaKernelFunctor. cbn [fst snd].
  rewrite Hlr, Hb1, Hb2, Ht. cbn [of_access mbind run_bind].
  rewrite Hcg. cbn [of_access mbind run_bind].
  rewrite Hsz, Hb. cbn [of_access mbind run_bind].
  set (off := (cg + start_compute_group_this_tensor tabi)
              * compute_group_size).
  assert ((0 <? sz - off) && (0 <? compute_group_size) = false) as Hguard.
  { apply andb_false_iff. fold off in Hedge.
    destruct Hedge; [left|right]; apply Z.ltb_ge; lia. }
  assert (forall h, element_loop to_MT to_T fuel h mp (sz - off)
                      compute_group_size off threadIdx blockDim 0 (b, [])
                    = Finished (b, [])) as ->.
  { intros h. destruct fuel; cbn [element_loop]; rewrite Hguard;
      reflexivity. }
  cbn [mbind run_bind fst snd fmap list_fmap].
  rewrite app_nil_r. unfold rd in Hb. destruct (t <? 0); [discriminate|].
  rewrite list_insert_id by exact Hb. reflexivity.
Qed.

End KernelProperties.

Section RealProperties.
Context {T : Type} (to_MT : T -> R) (to_T : R -> T).

Local Open Scope Z_scope.

(** X9.  In real arithmetic, with [beta2] between 0 and 1, the update
    keeps the second moments non-negative: if no element of
    [moments2_out] is negative before the call, none is after it, so the
    square root of the next update is taken of a non-negative number. *)
Theorem second_moment_stays_nonnegative (fuel : nat) (inp : Inputs T R)
    (a : Attrs R) (o : Outputs T R) :
  resolve_skip_update inp = Finished false ->
  update_ready fuel inp a o ->
  (0 <= beta2_ a <= 1)%R ->
  (forall t j v, elem_at (moments2_out o) t j = Some v -> (0 <= v)%R) ->
  exists o',
    MultiTensorAdamKernel to_MT to_T fuel inp a o = Finished o' /\
    forall t j v, elem_at (moments2_out o') t j = Some v -> (0 <= v)%R.
Proof.
  intros Hskip Hready Hbeta Hpos.
  destruct (kernel_tensorwise to_MT to_T fuel inp a o Hskip Hready)
    as (lr0 & b1p & b2p & o' & _ & _ & _ & Hrun & _ & Hin & Hout & _).
  exists o'. split; [exact Hrun|].
  intros t j v' Hv'.
  destruct (decide (t < length (params_out o))%nat) as [Ht|Ht].
  - destruct (Hin t Ht) as (b & b' & Hg & _ & Hu & _ & _ & Hv & _).
    destruct (gather_fields _ _ _ _ Hg) as (_ & _ & _ & Gv & _).
    cbn [lists_of tl_moments2] in Gv.
    unfold elem_at in Hv'. rewrite Hv in Hv'. cbn [mbind option_bind] in Hv'.
    destruct Hu as (_ & (_ & _ & _ & Lv & _) & _ & Hpt).
    pose proof (rd_Some_range _ _ _ Hv') as Hj. rewrite Lv in Hj.
    destruct (Hpt j Hj) as (r & Hr & Hview).
    unfold elem_view, stored_view in Hview.
    injection Hview as _ _ Vv _. rewrite Hv' in Vv. injection Vv as ->.
    assert (0 <= r_v r)%R as Hv0.
    { apply (Hpos t j). unfold elem_at. rewrite Gv. cbn [mbind option_bind].
      unfold read_elem in Hr.
      destruct (rd (buf_g b) j); cbn [mbind option_bind] in Hr;
        [|discriminate].
      destruct (if multi_precision a then _ else _);
        cbn [mbind option_bind] in Hr; [|discriminate].
      destruct (rd (buf_m b) j); cbn [mbind option_bind] in Hr;
        [|discriminate].
      destruct (rd (buf_v b) j); cbn [mbind option_bind] in Hr;
        [|discriminate].
      injection Hr as <-. reflexivity. }
    unfold compute_lane, adam_element, hyper_of.
    cbn [h_mode h_beta2 h_beta1 h_lr h_decay h_epsilon h_beta1_pow
         h_beta2_pow].
    pose proof (Rle_0_sqr (r_g r)) as Hsq. unfold Rsqr in Hsq.
    destruct (mode a); cbn [negb r_v]; cbn [w_add w_mul w_sub w_one R_arith];
      nra.
  - destruct (Hout t ltac:(lia)) as (_ & E & _).
    unfold elem_at in Hv'. rewrite E in Hv'. exact (Hpos t j v' Hv').
Qed.



End RealProperties.

Section MoreSamples.

Import Samples.

Local Open Scope Z_scope.

Ltac ready_sample :=
  unfold update_ready; cbn;
  repeat match goal with
         | |- _ /\ _ => split
         | |- wf_lists _ _ =>
             let t := fresh "t" in
             let Ht := fresh "Ht" in
             intros t Ht; cbn in Ht;
             destruct t as [|t]; [|lia];
             eexists; split; [reflexivity|];
             unfold wf_buffers; cbn;
             repeat split; first [reflexivity | discriminate]
         | |- is_Some _ => eexists; reflexivity
         | |- _ -> _ => intros _
         | |- (_ < _)%Z => lia
         | |- (_ <= _)%Z => lia
         end.

Lemma skip_update_count_rejected_witness :
  MultiTensorAdamKernel id id 2 (adam_inp (Some [true; false]))
    (adam_attrs false false) adam_out = Adam.InvalidArgument 2.
Proof.
  exact (skip_update_count_rejected (MT := R) id id 2
           (adam_inp (Some [true; false])) (adam_attrs false false) adam_out
           [true; false] eq_refl ltac:(simpl; lia)).
Defined.

Lemma update_reads_outputs_only_witness :
  MultiTensorAdamKernel id id 2
    {| params := [[9; 9; 9]]%R; grads := [[1; 1; 1]]%R;
       moments1 := []; moments2 := []; master_param := None;
       beta1_pow := [1 / 2]%R; beta2_pow := [1 / 2]%R;
       learning_rate := [1]%R; skip_update := Some [false] |}
    (adam_attrs false false) adam_out
  = MultiTensorAdamKernel id id 2 (adam_inp None) (adam_attrs false false)
      adam_out.
Proof.
  apply (update_reads_outputs_only (MT := R)); reflexivity.
Defined.

Lemma update_keeps_shapes_witness :
  exists o',
    MultiTensorAdamKernel id id 2 (adam_inp None) (adam_attrs true false)
      adam_out = Finished o' /\
    length <$> params_out o' = [3%nat] /\
    length <$> master_param_out o' = [3%nat].
Proof.
  destruct (update_keeps_shapes (MT := R) id id 2 (adam_inp None)
              (adam_attrs true false) adam_out eq_refl ltac:(ready_sample))
    as (o' & Hrun & Hp & _ & _ & Hq).
  exists o'. split; [exact Hrun|]. split; [exact Hp|exact Hq].
Defined.

Lemma update_keeps_master_without_multi_precision_witness :
  exists o',
    MultiTensorAdamKernel id id 2 (adam_inp None) (adam_attrs false false)
      adam_out = Finished o' /\
    master_param_out o' = [[7; 7; 7]]%R.
Proof.
  exact (update_keeps_master_without_multi_precision (MT := R) id id 2
           (adam_inp None) (adam_attrs false false) adam_out eq_refl
           ltac:(ready_sample) eq_refl).
Defined.

Lemma update_param_is_cast_of_master_witness :
  exists o',
    MultiTensorAdamKernel id id 2 (adam_inp None) (adam_attrs true false)
      adam_out = Finished o' /\
    forall x, elem_at (master_param_out o') 0 2 = Some x ->
      elem_at (params_out o') 0 2 = Some x.
Proof.
  destruct (update_param_is_cast_of_master (MT := R) id id 2 (adam_inp None)
              (adam_attrs true false) adam_out eq_refl ltac:(ready_sample)
              eq_refl) as (o' & Hrun & Hcast).
  exists o'. split; [exact Hrun|].
  intros x. apply (Hcast 0%nat 2 x). simpl. lia.
Defined.

Lemma update_ready_is_kept_witness :
  exists o' o'',
    MultiTensorAdamKernel id id 2 (adam_inp None) (adam_attrs false false)
      adam_out = Finished o' /\
    MultiTensorAdamKernel id id 2 (adam_inp None) (adam_attrs false false)
      o' = Finished o''.
Proof.
  destruct (update_ready_is_kept (MT := R) id id 2 (adam_inp None)
              (adam_attrs false false) adam_out eq_refl ltac:(ready_sample))
    as (o' & o'' & Hrun & _ & Hrun').
  exists o', o''. split; [exact Hrun|exact Hrun'].
Defined.

Lemma second_moment_stays_nonnegative_witness :
  exists o',
    MultiTensorAdamKernel id id 2 (adam_inp None) (adam_attrs false false)
      adam_out = Finished o' /\
    forall v, elem_at (moments2_out o') 0 1 = Some v -> (0 <= v)%R.
Proof.
  destruct (second_moment_stays_nonnegative id id 2 (adam_inp None)
              (adam_attrs false false) adam_out eq_refl ltac:(ready_sample))
    as (o' & Hrun & Hpos).
  - simpl. lra.
  - intros t j v. unfold elem_at. simpl.
    destruct t as [|t]; simpl; [|discriminate].
    unfold rd. destruct (j <? 0); [discriminate|].
    destruct (Z.to_nat j) as [|[|[|k]]]; simpl; intros [= <-]; lra.
  - exists o'. split; [exact Hrun|]. intros v. apply (Hpos 0%nat 1 v).
Defined.

Lemma functor_thread_frame_witness :
  let b := {| buf_g := [1; 1; 1]%R; buf_p := [1; 2; 3]%R;
              buf_m := [0; 0; 0]%R; buf_v := [0; 0; 0]%R;
              buf_mp := [] |} in
  let tabi := {| tenosr_for_this_block := [0; 0];
                 compute_group_for_this_block := [0; 1];
                 start_compute_group_this_tensor := 0;
                 sizes := [3] |} in
  exists mem' log' b',
    CudaKernelFunctor (MT := R) id id 2 2 tabi (1 / 2)%R (1 / 2)%R
      [1 / 2]%R [1 / 2]%R 1%R [1]%R false false 0%R 0 1 2 ([b], [])
    = Finished (mem', log') /\
    rd mem' 0 = Some b' /\
    elem_view false b' 0 = elem_view false b 0 /\
    elem_view false b' 2 = elem_view false b 2.
Proof.
  intros b tabi.
  destruct (functor_thread_frame (MT := R) id id 2 2 tabi (1 / 2)%R
              (1 / 2)%R [1 / 2]%R [1 / 2]%R 1%R [1]%R false false 0%R 0 1 2
              [b] [] 0 0 3 b)
    as (mem' & log' & b' & Hrun & _ & _ & Hb' & _ & _ & Hframe);
    try (eexists; reflexivity); try reflexivity; try (simpl; lia).
  { unfold wf_buffers. simpl. repeat split; try reflexivity. discriminate. }
  exists mem', log', b'. split; [exact Hrun|]. split; [exact Hb'|].
  split; apply Hframe.
  - right. right. right. vm_compute. discriminate.
  - right. left. simpl. lia.
Defined.

Lemma functor_beyond_tensor_is_noop_witness :
  let b := {| buf_g := [1; 1; 1]%R; buf_p := [1; 2; 3]%R;
              buf_m := [0; 0; 0]%R; buf_v := [0; 0; 0]%R;
              buf_mp := [] |} in
  let tabi := {| tenosr_for_this_block := [0; 0; 0];
                 compute_group_for_this_block := [0; 1; 2];
                 start_compute_group_this_tensor := 0;
                 sizes := [3] |} in
  CudaKernelFunctor (MT := R) id id 0 2 tabi (1 / 2)%R (1 / 2)%R
    [1 / 2]%R [1 / 2]%R 1%R [1]%R false false 0%R 2 0 2 ([b], [])
  = Finished ([b], []).
Proof.
  intros b tabi.
  apply (functor_beyond_tensor_is_noop (MT := R) id id 0 2 tabi (1 / 2)%R
           (1 / 2)%R [1 / 2]%R [1 / 2]%R 1%R [1]%R false false 0%R 2 0 2
           [b] [] 0 2 3 b);
    try (eexists; reflexivity); try reflexivity.
  left. simpl. lia.
Defined.


End MoreSamples.

End AdamMore.

(** ** More on the matmul kernels *)

Module MatMulMore.

Import MatMul MatMulFacts.

Section TransposeFacts.

Local Open Scope Z_scope.

Lemma remove_dups_length_le (l : list Z) :
  (length (remove_dups l) <= length l)%nat.
Proof.
  induction l as [|a l IH]; cbn [remove_dups length]; [lia|].
  destruct (decide_rel elem_of a l); cbn [length]; lia.
Qed.

Lemma remove_dups_NoDup (l : list Z) : NoDup l -> remove_dups l = l.
Proof.
  induction 1 as [|a l Ha _ IH]; cbn [remove_dups]; [reflexivity|].
  destruct (decide_rel elem_of a l); [contradiction|]. rewrite IH.
  reflexivity.
Qed.

Lemma remove_dups_same_length (l : list Z) :
  length (remove_dups l) = length l -> NoDup l.
Proof.
  induction l as [|a l IH]; cbn [remove_dups length]; [constructor|].
  destruct (decide_rel elem_of a l) as [Hin|Hin]; cbn [length]; intros Hl.
  - pose proof (remove_dups_length_le l). lia.
  - constructor; [exact Hin|]. apply IH. lia.
Qed.

Lemma foldl_max_ge (l : list Z) (a : Z) :
  a <= foldl Z.max a l /\ Forall (fun b => b <= foldl Z.max a l) l /\
  (foldl Z.max a l = a \/ foldl Z.max a l ∈ l).
Proof.
  revert a. induction l as [|b l IH]; intros a; cbn [foldl].
  - split; [lia|]. split; [constructor|left; reflexivity].
  - destruct (IH (Z.max a b)) as (H1 & H2 & H3).
    split; [lia|]. split.
    + constructor; [lia|exact H2].
    + destruct H3 as [H3|H3].
      * rewrite H3. destruct (Z.max_spec a b) as [[_ ->]|[_ ->]];
          [right; left|left; reflexivity].
      * right. right. exact H3.
Qed.

Lemma max_element_spec (l : list Z) m :
  max_element l = Some m -> m ∈ l /\ Forall (fun b => b <= m) l.
Proof.
  destruct l as [|a l]; [discriminate|]. cbn [max_element]. intros [= <-].
  destruct (foldl_max_ge l a) as (H1 & H2 & H3). split.
  - destruct H3 as [-> | H3]; [left|right; exact H3].
  - constructor; assumption.
Qed.

Lemma rd_nth (l : list Z) (j : Z) :
  0 <= j < len l -> rd l j = Some (nth (Z.to_nat j) l 0).
Proof.
  intros Hj. unfold rd. destruct (Z.ltb_spec j 0); [lia|].
  destruct (lookup_lt_is_Some_2 l (Z.to_nat j)) as [x Hx];
    [unfold len in Hj; lia|].
  rewrite Hx. f_equal. symmetry. apply nth_lookup_Some with (d := 0) in Hx.
  exact Hx.
Qed.

(** With an axis that names each position once, the three checks pass and
    entry [i] of the result is entry [axis[i]] of [x]. *)
Lemma Transpose_ok (x axis : list Z) :
  x <> [] -> axis_of_rank (len x) axis ->
  Transpose x axis = inr ((fun a => nth (Z.to_nat a) x 0) <$> axis).
Proof.
  intros Hx (Hnd & Hlen & Hrange). unfold Transpose.
  rewrite (remove_dups_NoDup axis Hnd), Z.eqb_refl. cbn [negb].
  rewrite Hlen, Z.eqb_refl. cbn [negb].
  destruct (max_element axis) as [largest|] eqn:Hmax.
  2:{ destruct axis; [|discriminate]. destruct x; [contradiction|].
      unfold len in Hlen. cbn in Hlen. lia. }
  destruct (max_element_spec axis largest Hmax) as (Hin & _).
  rewrite Forall_forall in Hrange. pose proof (Hrange largest Hin) as Hl.
  cbn beta in Hl.
  assert ((size_t_of largest <? len x) = true) as ->.
  { apply Z.ltb_lt. unfold size_t_of.
    assert (0 < 2 ^ 64) as Hpow by reflexivity.
    assert (0 <= largest) as Hnn by lia.
    apply Z.le_lt_trans with largest; [|lia].
    apply Z.mod_le; assumption. }
  cbn [negb].
  rewrite (mapM_Some_2 _ _ ((fun a => nth (Z.to_nat a) x 0) <$> axis));
    [reflexivity|].
  apply Forall2_same_length_lookup. split.
  - rewrite length_seqZ, length_fmap. unfold len in *. lia.
  - intros i j y Hj Hy. apply lookup_seqZ in Hj as [-> Hi].
    rewrite list_lookup_fmap in Hy.
    destruct (axis !! i) as [a|] eqn:Ha; [|discriminate].
    injection Hy as <-. rewrite Z.add_0_l.
    assert (rd axis (Z.of_nat i) = Some a) as ->.
    { unfold rd. destruct (Z.ltb_spec (Z.of_nat i) 0); [lia|].
      rewrite Nat2Z.id. exact Ha. }
    cbn [mbind option_bind].
    apply rd_nth, Hrange. eapply list_elem_of_lookup_2. exact Ha.
Qed.

Lemma axis_of_rank_Permutation n (axis : list Z) :
  axis_of_rank n axis -> axis ≡ₚ seqZ 0 n.
Proof.
  intros (Hnd & Hlen & Hrange).
  apply submseteq_length_Permutation.
  - apply NoDup_submseteq; [exact Hnd|].
    intros a Ha. apply elem_of_seqZ. rewrite Forall_forall in Hrange.
    specialize (Hrange a Ha). lia.
  - rewrite length_seqZ. unfold len in Hlen. lia.
Qed.

Lemma fmap_nth_seqZ (x : list Z) :
  (fun a => nth (Z.to_nat a) x 0) <$> seqZ 0 (len x) = x.
Proof.
  apply list_eq. intros i. rewrite list_lookup_fmap.
  destruct (x !! i) as [v|] eqn:Hv.
  - rewrite lookup_seqZ_lt
      by (apply lookup_lt_Some in Hv; unfold len; lia).
    cbn [fmap option_fmap option_map]. rewrite Z.add_0_l, Nat2Z.id.
    f_equal. apply nth_lookup_Some. exact Hv.
  - rewrite lookup_seqZ_ge
      by (apply lookup_ge_None in Hv; unfold len; lia).
    reflexivity.
Qed.

(** X11.  Given an axis that names each position of [x] once, [Transpose]
    succeeds, puts entry [axis[i]] of [x] at place [i], and so returns a
    rearrangement of [x]. *)
Theorem Transpose_rearranges (x axis : list Z) :
  x <> [] -> axis_of_rank (len x) axis ->
  exists y,
    Transpose x axis = inr y /\
    length y = length x /\
    (forall i a, rd axis i = Some a -> rd y i = rd x a) /\
    y ≡ₚ x.
Proof.
  intros Hx Hax. eexists. split; [apply Transpose_ok; assumption|].
  pose proof Hax as (Hnd & Hlen & Hrange).
  split; [rewrite length_fmap; unfold len in Hlen; lia|]. split.
  - intros i a Ha. pose proof (rd_Some_range _ _ _ Ha) as Hi.
    unfold rd in Ha |- *. destruct (Z.ltb_spec i 0); [lia|].
    rewrite list_lookup_fmap, Ha. cbn [fmap option_fmap option_map].
    rewrite Forall_forall in Hrange.
    pose proof (Hrange a (list_elem_of_lookup_2 _ _ _ Ha)) as Hr.
    destruct (Z.ltb_spec a 0); [lia|].
    destruct (lookup_lt_is_Some_2 x (Z.to_nat a)) as [v Hv];
      [unfold len in Hr; lia|].
    rewrite Hv. f_equal. apply nth_lookup_Some. exact Hv.
  - rewrite (axis_of_rank_Permutation _ _ Hax). rewrite fmap_nth_seqZ.
    reflexivity.
Qed.

(** X12.  [Transpose] reports the first of its checks that fails: a
    repeated axis entry, then an axis whose size is not the rank of [x],
    then an entry that is not below the size. *)
Theorem Transpose_rejects (x axis : list Z) :
  (~ NoDup axis -> Transpose x axis = inl AxisNotUnique) /\
  (NoDup axis -> len x <> len axis ->
   Transpose x axis = inl (AxisSizeMismatch (len x) (len axis))) /\
  (NoDup axis -> len x = len axis ->
   forall a, a ∈ axis -> len axis <= a < 2 ^ 31 ->
   Forall (fun b => b < 2 ^ 31) axis ->
   Transpose x axis = inl AxisTooLarge).
Proof.
  unfold Transpose. split; [|split].
  - intros Hdup.
    destruct (Z.eqb_spec (len (remove_dups axis)) (len axis)) as [E|E];
      [|reflexivity].
    exfalso. apply Hdup, remove_dups_same_length. unfold len in E. lia.
  - intros Hnd Hne. rewrite (remove_dups_NoDup axis Hnd), Z.eqb_refl.
    cbn [negb]. destruct (Z.eqb_spec (len x) (len axis)); [contradiction|].
    reflexivity.
  - intros Hnd Hlen a Ha Hbig Hint.
    rewrite (remove_dups_NoDup axis Hnd), Z.eqb_refl. cbn [negb].
    rewrite Hlen, Z.eqb_refl. cbn [negb].
    destruct (max_element axis) as [largest|] eqn:Hmax.
    2:{ destruct axis; [|discriminate]. apply elem_of_nil in Ha. contradiction. }
    destruct (max_element_spec axis largest Hmax) as (Hin & Hall).
    rewrite Forall_forall in Hall, Hint.
    pose proof (Hall a Ha). pose proof (Hint largest Hin).
    assert (size_t_of largest = largest) as ->.
    { unfold size_t_of. apply Z.mod_small.
      assert (2 ^ 31 < 2 ^ 64) as Hpow by reflexivity.
      cbn beta in *. unfold len in *. split; [lia|].
      apply Z.lt_trans with (2 ^ 31); [|exact Hpow].
      generalize dependent (2 ^ 31). intros. lia. }
    destruct (Z.ltb_spec largest (len axis)); [lia|]. reflexivity.
Qed.

(** X13.  Transposing by an axis and then by its inverse gives back the
    vector. *)
Theorem Transpose_inverse (x axis inv : list Z) :
  x <> [] ->
  axis_of_rank (len x) axis -> axis_of_rank (len x) inv ->
  (forall i a, rd inv i = Some a -> rd axis a = Some i) ->
  exists y, Transpose x axis = inr y /\ Transpose y inv = inr x.
Proof.
  intros Hx Hax Hinv Hinverse. eexists. split; [apply Transpose_ok; assumption|].
  set (y := (fun a => nth (Z.to_nat a) x 0) <$> axis).
  pose proof Hax as (_ & Hlen & Hrange).
  assert (len y = len x) as Hly.
  { unfold y, len. rewrite length_fmap. unfold len in Hlen. lia. }
  rewrite Transpose_ok.
  - f_equal. apply list_eq. intros i. rewrite list_lookup_fmap.
    destruct Hinv as (_ & Hleni & Hrangei).
    destruct (inv !! i) as [a|] eqn:Ha; cbn [fmap option_fmap option_map].
    + assert (rd inv (Z.of_nat i) = Some a) as Hrd.
      { unfold rd. destruct (Z.ltb_spec (Z.of_nat i) 0); [lia|].
        rewrite Nat2Z.id. exact Ha. }
      pose proof (Hinverse _ _ Hrd) as Hai.
      pose proof (rd_Some_range _ _ _ Hai) as Har.
      unfold rd in Hai. destruct (Z.ltb_spec a 0); [lia|].
      unfold y. rewrite (nth_lookup_Some _ _ 0 (nth (Z.to_nat (Z.of_nat i)) x 0)).
      2:{ rewrite list_lookup_fmap, Hai. reflexivity. }
      rewrite Nat2Z.id. symmetry.
      destruct (lookup_lt_is_Some_2 x i) as [v Hv].
      { apply lookup_lt_Some in Ha. unfold len in Hleni. lia. }
      rewrite Hv. f_equal. symmetry. apply nth_lookup_Some. exact Hv.
    + apply lookup_ge_None in Ha. symmetry. apply lookup_ge_None.
      unfold len in Hleni. lia.
  - intros E. apply Hx. destruct x; [reflexivity|].
    rewrite E in Hly. unfold len in Hly. cbn in Hly. lia.
  - rewrite Hly. exact Hinv.
Qed.

End TransposeFacts.

Section StridesFacts.

Variable ddim_reshape : list Z -> list Z -> list Z.
Variable ddim_transpose : list Z -> list Z -> list Z.

Local Open Scope Z_scope.

(** The stride of position [j] in a row-major layout of [shape2]. *)
Let row_major (shape2 : list Z) (j : nat) : Z := product (drop (S j) shape2).

Lemma shape_strides_loop (shape2 : list Z) (m : nat) :
  (S m <= length shape2)%nat ->
  foldl (push_stride shape2)
    (Some (row_major shape2 <$> seq m (length shape2 - m)))
    (reverse (seqZ 1 (Z.of_nat m)))
  = Some (row_major shape2 <$> seq 0 (length shape2)).
Proof.
  induction m as [|m IH]; intros Hm.
  - cbn [seqZ Z.of_nat reverse foldl]. rewrite Nat.sub_0_r. reflexivity.
  - rewrite seqZ_S, reverse_snoc. cbn [foldl].
    rewrite <- IH by lia. f_equal.
    destruct (length shape2 - S m)%nat as [|k] eqn:Hk; [lia|].
    replace (length shape2 - m)%nat with (S (S k)) by lia.
    cbn [seq fmap list_fmap]. unfold push_stride.
    cbn [mbind option_bind rd Z.ltb Z.compare Z.to_nat lookup list_lookup].
    destruct (lookup_lt_is_Some_2 shape2 (S m) ltac:(lia)) as [d Hd].
    assert (rd shape2 (1 + Z.of_nat m) = Some d) as ->.
    { unfold rd. destruct (Z.ltb_spec (1 + Z.of_nat m) 0); [lia|].
      replace (Z.to_nat (1 + Z.of_nat m)) with (S m) by lia. exact Hd. }
    change (Z.to_nat 0) with 0%nat.
    cbn [mbind option_bind lookup list_lookup]. f_equal. f_equal.
    unfold row_major. rewrite (drop_S shape2 d (S m) Hd).
    unfold product. cbn [foldr]. lia.
Qed.

Lemma shape_strides_row_major (shape2 : list Z) :
  shape2 <> [] ->
  shape_strides shape2 = Some (row_major shape2 <$> seq 0 (length shape2)).
Proof.
  intros Hne. unfold shape_strides.
  destruct shape2 as [|d0 rest]; [contradiction|].
  replace (len (d0 :: rest) - 1) with (Z.of_nat (length rest))
    by (unfold len; cbn [length]; lia).
  rewrite <- (shape_strides_loop (d0 :: rest) (length rest))
    by (cbn [length]; lia).
  f_equal. f_equal.
  replace (length (d0 :: rest) - length rest)%nat with 1%nat
    by (cbn [length]; lia).
  cbn [seq fmap list_fmap]. unfold row_major.
  rewrite drop_ge by (cbn [length]; lia). reflexivity.
Qed.

Lemma descriptor_exists (d : list Z) (name : InputName) (trans : bool) :
  d <> [] ->
  exists mat_dim,
    CreateMatrixDescriptor
      (match name with
       | InputX => RowMatrixDimsFromVector
       | InputY => ColumnMatrixDimsFromVector
       end d) 0 trans = Some mat_dim /\
    trans_ mat_dim = trans.
Proof.
  intros Hd.
  assert (forall v : list Z, (2 <= length v)%nat ->
            exists mat_dim, CreateMatrixDescriptor v 0 trans = Some mat_dim /\
                            trans_ mat_dim = trans) as Hrank.
  { intros v Hv. unfold CreateMatrixDescriptor.
    destruct (rev v) as [|w [|h lead]] eqn:Hrev.
    - apply (f_equal (@length Z)) in Hrev. rewrite length_rev in Hrev.
      cbn in Hrev. lia.
    - apply (f_equal (@length Z)) in Hrev. rewrite length_rev in Hrev.
      cbn in Hrev. lia.
    - eexists. split; reflexivity. }
  destruct d as [|a [|b rest]]; [contradiction| |].
  - destruct name; apply Hrank; cbn; lia.
  - destruct name; apply Hrank; cbn; lia.
Qed.

(** X14.  For an input with a fused reshape of other than two entries and
    no transposition, [GetInputStrides] returns the row-major strides of
    the reshaped shape, rearranged by the fused transposition: entry [i]
    is the product of the extents after position [axis[i]]. *)
Theorem GetInputStrides_permuted_row_major (ctx : Attrs) (name : InputName)
    (input : Tensor) (shape axis : list Z) :
  match name with
  | InputX => fused_reshape_X ctx
  | InputY => fused_reshape_Y ctx
  end = shape ->
  match name with
  | InputX => fused_transpose_X ctx
  | InputY => fused_transpose_Y ctx
  end = axis ->
  let shape2 := ddim_reshape (dims input) shape in
  shape <> [] -> len shape <> 2 -> shape2 <> [] ->
  axis_of_rank (len shape2) axis ->
  ddim_transpose shape2 axis <> [] ->
  trans_attr ctx name = Some false ->
  GetInputStrides ddim_reshape ddim_transpose ctx name input
  = inr ((fun a => product (drop (S (Z.to_nat a)) shape2)) <$> axis).
Proof.
  intros Hshape Haxis shape2 Hs Hs2 Hne Hax Hnew Htr.
  assert (axis <> []) as Ha.
  { intros ->. destruct Hax as (_ & Hl & _). destruct shape2; [contradiction|].
    unfold len in Hl. cbn in Hl. lia. }
  unfold GetInputStrides. rewrite Hshape, Haxis, Htr.
  rewrite !bool_decide_eq_false_2 by assumption. cbn [negb andb].
  fold shape2.
  destruct (descriptor_exists (ddim_transpose shape2 axis) name false Hnew)
    as (mat_dim & Hd & Ht).
  destruct name; rewrite Hd, Ht;
    rewrite (shape_strides_row_major shape2 Hne);
    (rewrite Transpose_ok;
     [|intros E; apply fmap_nil_inv in E; destruct shape2;
         [contradiction|discriminate]
      |unfold len; rewrite length_fmap, length_seq; exact Hax]);
    destruct (Z.eqb_spec (len shape) 2); try contradiction;
    (destruct axis as [|a0 axis']; [contradiction|]);
    cbn [fmap list_fmap rd Z.ltb Z.compare Z.to_nat lookup list_lookup];
    f_equal; (apply list_fmap_ext
              || (f_equal; [|apply list_fmap_ext])).
  all: try (intros i a Hia).
  all: destruct Hax as (_ & _ & Hrange); rewrite Forall_forall in Hrange.
  all: match goal with
       | |- nth (Z.to_nat ?a) _ 0 = _ =>
           assert (0 <= a < len shape2) as Hr
             by (apply Hrange;
                 first [left
                       |right; eapply list_elem_of_lookup_2; eassumption]);
           unfold len in Hr;
           apply nth_lookup_Some;
           rewrite list_lookup_fmap, lookup_seq_lt by lia;
           reflexivity
       end.
Qed.


End StridesFacts.

Section PlacementFacts.

Local Open Scope Z_scope.

Lemma insert_replicate (m k : nat) (d : Z) :
  <[m := d]> (replicate (m + S k) 1) = replicate m 1 ++ d :: replicate k 1.
Proof.
  induction m as [|m IH]; cbn [Nat.add replicate insert list_insert app].
  - reflexivity.
  - f_equal. exact IH.
Qed.

Lemma insert2_replicate (m : nat) (d0 d1 : Z) :
  <[m := d0]> (<[S m := d1]> (replicate (m + 2) 1))
  = replicate m 1 ++ [d0; d1].
Proof.
  induction m as [|m IH]; cbn [Nat.add replicate insert list_insert app].
  - reflexivity.
  - f_equal. exact IH.
Qed.

Lemma place_dims_not_vector (v : list Z) (n : nat) (slot1 : Z) :
  (3 <= n)%nat -> (length v <= n)%nat -> length v <> 1%nat ->
  place_dims v (replicate n 1) slot1 = Some (bd_dims (Z.of_nat n) v).
Proof.
  intros Hn Hv H1. unfold bd_dims. rewrite Nat2Z.id.
  destruct (Z.ltb_spec 2 (len v)) as [H2|H2].
  { apply place_dims_aligned; assumption. }
  unfold len in H2.
  destruct v as [|d0 [|d1 [|d2 v]]]; cbn [length] in *; try lia.
  - rewrite Nat.sub_0_r, app_nil_r. reflexivity.
  - unfold place_dims, len. cbn [length].
    change (Z.of_nat 2) with 2. cbn [Z.eqb Pos.eqb].
    assert (rd [d0; d1] 1 = Some d1) as -> by reflexivity.
    assert (rd [d0; d1] 0 = Some d0) as -> by reflexivity.
    cbn [mbind option_bind].
    rewrite wr_in_range by (rewrite length_replicate; lia).
    cbn [mbind option_bind].
    rewrite wr_in_range by (rewrite length_insert, length_replicate; lia).
    f_equal. rewrite length_insert, length_replicate.
    assert (exists m, n = (m + 2)%nat) as [m ->] by (exists (n - 2)%nat; lia).
    replace (Z.to_nat (Z.of_nat (m + 2) - 1)) with (S m) by lia.
    replace (Z.to_nat (Z.of_nat (m + 2) - 2)) with m by lia.
    replace (m + 2 - 2)%nat with m by lia.
    apply insert2_replicate.
Qed.

Lemma place_dims_vector (d0 : Z) (n : nat) (slot1 : Z) :
  0 <= slot1 < Z.of_nat n ->
  place_dims [d0] (replicate n 1) slot1
  = Some (<[Z.to_nat slot1 := d0]> (replicate n 1)).
Proof.
  intros Hs. unfold place_dims, len. cbn [length].
  change (Z.of_nat 1) with 1. cbn [Z.eqb Pos.eqb].
  assert (rd [d0] 0 = Some d0) as -> by reflexivity.
  cbn [mbind option_bind].
  apply wr_in_range. rewrite length_replicate. lia.
Qed.

Lemma place_dims_row (v : list Z) (n : nat) :
  (3 <= n)%nat -> (length v <= n)%nat ->
  place_dims v (replicate n 1) (Z.of_nat n - 1)
  = Some (bd_dims (Z.of_nat n) v).
Proof.
  intros Hn Hv.
  destruct (decide (length v = 1%nat)) as [E|E];
    [|apply place_dims_not_vector; assumption].
  destruct v as [|d0 [|d1 v]]; try discriminate E.
  rewrite place_dims_vector by lia. f_equal. unfold bd_dims.
  rewrite Nat2Z.id. cbn [length].
  assert (exists m, n = (m + 1)%nat) as [m ->] by (exists (n - 1)%nat; lia).
  replace (Z.to_nat (Z.of_nat (m + 1) - 1)) with m by lia.
  replace (m + 1 - 1)%nat with m by lia.
  apply (insert_replicate m 0).
Qed.

Lemma place_dims_column (v : list Z) (n : nat) :
  (3 <= n)%nat -> (length v <= n)%nat ->
  place_dims v (replicate n 1) (Z.of_nat n - 2)
  = Some (bd_dims (Z.of_nat n) (ColumnMatrixDimsFromVector v)).
Proof.
  intros Hn Hv.
  destruct (decide (length v = 1%nat)) as [E|E].
  - destruct v as [|d0 [|d1 v]]; try discriminate E.
    rewrite place_dims_vector by lia. f_equal. unfold bd_dims.
    rewrite Nat2Z.id. cbn [length ColumnMatrixDimsFromVector].
    assert (exists m, n = (m + 2)%nat) as [m ->] by (exists (n - 2)%nat; lia).
    replace (Z.to_nat (Z.of_nat (m + 2) - 2)) with m by lia.
    replace (m + 2 - 2)%nat with m by lia.
    apply (insert_replicate m 1).
  - rewrite place_dims_not_vector by assumption.
    destruct v as [|d0 [|d1 v]]; try reflexivity. contradiction E.
    reflexivity.
Qed.

(** X16.  The two vectors the forward kernel broadcasts over are the
    shape of [X] right-aligned in [ndims] places and the shape of [Y]
    right-aligned after a rank-1 [Y] is made a column [{n, 1}] (a rank-1
    [X] is a row); places not covered hold 1.  The step returns them unless
    it reports a mismatch. *)
Theorem CalculateMatrixDims_vectors (ctx : Attrs) (x_dims y_dims : list Z)
    (st : FwdState) :
  let n := ndims_of x_dims y_dims in
  let r := CalculateMatrixDims ctx x_dims y_dims (replicate (Z.to_nat n) 1)
             (replicate (Z.to_nat n) 1) st in
  n - 2 <= len (dims (out st)) ->
  (exists st',
     r = (inr (bd_dims n x_dims,
               bd_dims n (ColumnMatrixDimsFromVector y_dims)), st')) \/
  (exists i xd yd, r = (inl (InvalidArgument i xd yd), st)).
Proof.
  intros n r Hout.
  assert (len x_dims <= n /\ len y_dims <= n /\ 3 <= n) as (Hxn & Hyn & Hn3)
    by (unfold n, ndims_of; lia).
  destruct (negb (IsOutputFused ctx) && (2 <? len x_dims)
            && (2 <? len y_dims)) eqn:Hguard.
  - apply andb_prop in Hguard as [Hguard Hy].
    apply andb_prop in Hguard as [Hfused Hx].
    apply negb_true_iff in Hfused. apply Z.ltb_lt in Hx, Hy.
    destruct (CalculateMatrixDims_outcome ctx x_dims y_dims st Hfused Hx Hy
                Hout) as [(od & Hr & _)|(i & xd & yd & Hr & _)].
    + left. eexists. fold n in Hr. fold r in Hr. rewrite Hr.
      destruct y_dims as [|d0 [|d1 v]]; try reflexivity.
      unfold len in Hy. cbn in Hy. lia.
    + right. exists i, xd, yd. exact Hr.
  - left. exists st. unfold r, CalculateMatrixDims.
    replace (len (replicate (Z.to_nat n) 1) - 1)
      with (Z.of_nat (Z.to_nat n) - 1)
      by (unfold len; rewrite length_replicate; reflexivity).
    rewrite place_dims_row by (unfold len in *; lia).
    cbn [lift]. unfold mbind at 1, M_bind. cbn [mret M_ret].
    replace (len (bd_dims (Z.of_nat (Z.to_nat n)) x_dims) - 2)
      with (Z.of_nat (Z.to_nat n) - 2).
    2:{ unfold bd_dims, len. rewrite length_app, length_replicate.
        unfold len in *. lia. }
    rewrite place_dims_column by (unfold len in *; lia).
    cbn [lift]. unfold mbind at 1, M_bind. cbn [mret M_ret].
    rewrite Hguard. cbn [when]. unfold mbind, M_bind, mret, M_ret.
    rewrite Z2Nat.id by lia. reflexivity.
Qed.

End PlacementFacts.

Section ForwardFacts.

Variable reorder : list Z -> list Z -> list Z.
Variable ddim_reshape : list Z -> list Z -> list Z.
Variable ddim_transpose : list Z -> list Z -> list Z.
Variable ExecuteMatMulV2 :
  OutType -> Attrs -> Tensor -> list Z -> bool -> Tensor -> list Z -> bool ->
  M FwdState unit.

Local Open Scope Z_scope.

(** X17.  Once the head number and the shapes are accepted, the forward
    kernel is one call of [ExecuteMatMulV2]: on the broadcast vectors, with
    the flags read from [trans_x]/[trans_y] when the op carries them and
    from [transpose_X]/[transpose_Y] otherwise, and with a [float] output
    for [float] inputs or under [force_fp32_output], a [bfloat16] output for
    [bfloat16] inputs, and an [int8_t] output for both [int8_t] and
    [uint8_t] inputs. *)
Theorem forward_dispatch (T : ElemType) (ctx : Attrs) (x y : Tensor)
    (st st' : FwdState) (tx ty : bool) (bd : list Z * list Z) :
  head_number ctx = None \/ head_number ctx = Some 1 ->
  attr_value (trans_x ctx) (transpose_X ctx) = Some tx ->
  attr_value (trans_y ctx) (transpose_Y ctx) = Some ty ->
  let x_dims := GetDimForInput ddim_reshape ddim_transpose
                  (fused_reshape_X ctx) (fused_transpose_X ctx) x in
  let y_dims := GetDimForInput ddim_reshape ddim_transpose
                  (fused_reshape_Y ctx) (fused_transpose_Y ctx) y in
  let n := ndims_of x_dims y_dims in
  CalculateMatrixDims ctx x_dims y_dims (replicate (Z.to_nat n) 1)
    (replicate (Z.to_nat n) 1) st = (inr bd, st') ->
  MatMulV2_Compute ddim_reshape ddim_transpose ExecuteMatMulV2 T ctx x y st
  = ExecuteMatMulV2
      (if default false (force_fp32_output ctx) then OutFloat
       else match T with
            | Float32 => OutFloat
            | BFloat16 => OutBFloat16
            | Int8 | UInt8 => OutInt8
            end)
      ctx x bd.1 tx y bd.2 ty st'.
Proof.
  intros Hhead Htx Hty x_dims y_dims n Hcalc. unfold MatMulV2_Compute.
  rewrite (bind_ok _ _ _ _ _ (check_head_number_accepts ctx _ Hhead)).
  rewrite (bind_ok _ _ _ _ _ (attr_or_value _ _ _ _ Htx)).
  rewrite (bind_ok _ _ _ _ _ (attr_or_value _ _ _ _ Hty)).
  fold x_dims y_dims. fold n.
  rewrite (bind_ok _ _ _ _ _ Hcalc). destruct bd as [x_bd y_bd].
  cbn [fst snd].
  destruct (default false (force_fp32_output ctx)), T; reflexivity.
Qed.

(** X18.  When the output is not fused and both shapes have rank above 2,
    a leading position whose extents do not broadcast makes the forward
    kernel fail with [InvalidArgument] before anything is executed: the
    state is as it was, whatever [ExecuteMatMulV2] would do. *)
Theorem forward_mismatch_stops (T : ElemType) (ctx : Attrs) (x y : Tensor)
    (st : FwdState) (tx ty : bool) (j xj yj : Z) :
  head_number ctx = None \/ head_number ctx = Some 1 ->
  attr_value (trans_x ctx) (transpose_X ctx) = Some tx ->
  attr_value (trans_y ctx) (transpose_Y ctx) = Some ty ->
  let x_dims := GetDimForInput ddim_reshape ddim_transpose
                  (fused_reshape_X ctx) (fused_transpose_X ctx) x in
  let y_dims := GetDimForInput ddim_reshape ddim_transpose
                  (fused_reshape_Y ctx) (fused_transpose_Y ctx) y in
  let n := ndims_of x_dims y_dims in
  IsOutputFused ctx = false -> 2 < len x_dims -> 2 < len y_dims ->
  n - 2 <= len (dims (out st)) ->
  0 <= j < n - 2 ->
  rd (bd_dims n x_dims) j = Some xj -> rd (bd_dims n y_dims) j = Some yj ->
  compatible xj yj = false ->
  exists i xd yd,
    MatMulV2_Compute ddim_reshape ddim_transpose ExecuteMatMulV2 T ctx x y st
    = (inl (InvalidArgument i xd yd), st) /\
    rd (bd_dims n x_dims) i = Some xd /\ rd (bd_dims n y_dims) i = Some yd /\
    compatible xd yd = false.
Proof.
  intros Hhead Htx Hty x_dims y_dims n Hfused Hx Hy Hout Hj Hxj Hyj Hbad.
  destruct (CalculateMatrixDims_outcome ctx x_dims y_dims st Hfused Hx Hy
              Hout) as [(od & _ & _ & _ & Hall)
                       |(i & xd & yd & Hr & _ & Hxi & Hyi & Hc & _)].
  - rewrite (Hall j xj yj Hj Hxj Hyj) in Hbad. discriminate Hbad.
  - exists i, xd, yd. split; [|repeat split; assumption].
    unfold MatMulV2_Compute.
    rewrite (bind_ok _ _ _ _ _ (check_head_number_accepts ctx _ Hhead)).
    rewrite (bind_ok _ _ _ _ _ (attr_or_value _ _ _ _ Htx)).
    rewrite (bind_ok _ _ _ _ _ (attr_or_value _ _ _ _ Hty)).
    apply bind_raise. exact Hr.
Qed.

(** X19.  An op that carries neither transposition attribute of [X] stops
    both kernels with the missing-attribute fault, nothing done: the
    forward kernel looks for [trans_x] first, the gradient kernel for
    [transpose_X] first. *)
Theorem missing_transposition_attribute (T : ElemType) (ctx : Attrs)
    (x y dout : Tensor) (st_fwd : FwdState) (st_grad : GradState) :
  head_number ctx = None \/ head_number ctx = Some 1 ->
  trans_x ctx = None -> transpose_X ctx = None ->
  MatMulV2_Compute ddim_reshape ddim_transpose ExecuteMatMulV2 T ctx x y
    st_fwd = (inl AttrNotFound, st_fwd) /\
  MatMulGrad_Compute reorder ctx x y dout st_grad
  = (inl AttrNotFound, st_grad).
Proof.
  intros Hhead H1 H2. split.
  - unfold MatMulV2_Compute.
    rewrite (bind_ok _ _ _ _ _ (check_head_number_accepts ctx _ Hhead)).
    apply bind_raise. unfold attr_or. rewrite H1, H2. reflexivity.
  - unfold MatMulGrad_Compute.
    rewrite (bind_ok _ _ _ _ _ (check_head_number_accepts ctx _ Hhead)).
    apply bind_raise. unfold attr_or. rewrite H1, H2. reflexivity.
Qed.

End ForwardFacts.

Section BatchFacts.

Variable reorder : list Z -> list Z -> list Z.

Local Open Scope Z_scope.

Lemma sum_list_app (l k : list Z) :
  foldr Z.add 0 (l ++ k) = foldr Z.add 0 l + foldr Z.add 0 k.
Proof.
  induction l as [|a l IH]; cbn [app foldr]; [reflexivity|]. rewrite IH. lia.
Qed.

Lemma sum_over_shift (m M : Z) (f : Z -> Z) :
  foldr Z.add 0 (f <$> seqZ m M) = sum_over M (fun i => f (m + i)).
Proof.
  unfold sum_over. rewrite <- (Z.add_0_r m) at 1.
  rewrite <- fmap_add_seqZ, <- list_fmap_compose. reflexivity.
Qed.

(** A sum over [P * M] consecutive indices, batch by batch. *)
Lemma sum_over_batches (P : nat) (M : Z) (f : Z -> Z) :
  0 <= M ->
  sum_over (Z.of_nat P * M) f
  = sum_over (Z.of_nat P) (fun p => sum_over M (fun m => f (p * M + m))).
Proof.
  intros HM. induction P as [|P IH].
  - reflexivity.
  - replace (Z.of_nat (S P) * M) with (Z.of_nat P * M + M) by lia.
    unfold sum_over at 1. rewrite seqZ_app by lia.
    rewrite fmap_app, sum_list_app. fold (sum_over (Z.of_nat P * M) f).
    rewrite IH. unfold sum_over at 3. rewrite seqZ_S, fmap_app, sum_list_app.
    cbn [fmap list_fmap foldr]. rewrite sum_over_shift.
    unfold sum_over at 2. f_equal. rewrite Z.add_0_r. reflexivity.
Qed.

Lemma ExecuteMatMulGrad_folded (ctx : Attrs) (A B : Tensor)
    (sel : OutSel) (st : GradState) (out : Tensor) (P : nat) (M K N : Z) :
  out_of sel st = Some out -> rank out = 2 ->
  dims A = [Z.of_nat P; M; K] -> dims B = [Z.of_nat P; M; N] -> 0 <= M ->
  exists h,
    ExecuteMatMulGrad reorder ctx A true true B false true sel st
    = (inr tt,
       log_execution h
         (set_out sel
            {| dims := dims out;
               data :=
                 k ← seqZ 0 K;
                 n ← seqZ 0 N;
                 [scaled (alpha_scale (alpha ctx))
                    (sum_over (Z.of_nat P) (fun p =>
                       sum_over M (fun m =>
                         tensor3_at A p m k * tensor3_at B p m n)))];
               mem_desc := dims out |} st)).
Proof.
  intros Hout Hrank HA HB HM.
  destruct (handler_product_2d (FoldOuterDims A) (FoldOuterDims B) out true
              false (default 1 (alpha ctx)) (Z.of_nat P * M) K
              (Z.of_nat P * M) N) as (h & Hh & Hprod).
  { unfold FoldOuterDims. rewrite HA. reflexivity. }
  { unfold FoldOuterDims. rewrite HB. reflexivity. }
  { discriminate. }
  exists h. unfold ExecuteMatMulGrad.
  unfold mbind at 1, M_bind. cbn [get]. rewrite Hout. cbn [lift].
  unfold mbind at 1, M_bind. cbn [mret M_ret].
  assert (((rank A =? 3) || (rank B =? 3)) && (rank out =? 2) = true) as ->.
  { unfold rank in *. rewrite HA, Hrank. reflexivity. }
  cbn [negb]. rewrite Hh. cbn [lift]. unfold mbind at 1, M_bind.
  cbn [mret M_ret]. unfold put. rewrite Hprod.
  f_equal. f_equal. f_equal. f_equal.
  unfold mat_product, factor_rows, factor_cols, factor_at, mat_at,
    FoldOuterDims.
  rewrite HA, HB. cbn [dims Resize data].
  rewrite fmap_bind_list. apply bind_ext_list. intros k.
  rewrite fmap_bind_list. apply bind_ext_list. intros n.
  cbn [fmap list_fmap]. f_equal.
  assert (scaled (if default 1 (alpha ctx) =? 1 then None
                  else Some (default 1 (alpha ctx)))
          = scaled (alpha_scale (alpha ctx))) as ->.
  { unfold alpha_scale. destruct (alpha ctx); reflexivity. }
  f_equal. rewrite sum_over_batches by exact HM.
  apply sum_over_ext. intros p. apply sum_over_ext. intros m.
  unfold tensor3_at. rewrite HA, HB. reflexivity.
Qed.

(** X20.  The gradient of a matrix operand that was broadcast over the
    batches of the other is summed over the batches: for rank-3 [A] and [B]
    of [P] batches of [M] rows each and a rank-2 output, the execution
    with the first factor transposed and both folded leaves at [(k, n)] the
    sum over all batches [p] and rows [m] of [A[p,m,k] * B[p,m,n]], scaled
    by [alpha]. *)
Theorem ExecuteMatMulGrad_sums_batches (ctx : Attrs) (A B : Tensor)
    (sel : OutSel) (st : GradState) (out : Tensor) (P : nat) (M K N : Z) :
  out_of sel st = Some out -> rank out = 2 ->
  dims A = [Z.of_nat P; M; K] -> dims B = [Z.of_nat P; M; N] -> 0 <= M ->
  exists h,
    ExecuteMatMulGrad reorder ctx A true true B false true sel st
    = (inr tt,
       log_execution h
         (set_out sel
            {| dims := dims out;
               data :=
                 k ← seqZ 0 K;
                 n ← seqZ 0 N;
                 [scaled (alpha_scale (alpha ctx))
                    (sum_over (Z.of_nat P) (fun p =>
                       sum_over M (fun m =>
                         tensor3_at A p m k * tensor3_at B p m n)))];
               mem_desc := dims out |} st)).
Proof. apply ExecuteMatMulGrad_folded. Qed.

(** On a batched left factor and a matrix on the right the handler's
    strided product multiplies every batch by the same matrix. *)
Lemma handler_product_batched (A B out : Tensor) (tB : bool) (scale : Z)
    (P M Nn rb cb : Z) :
  dims A = [P; M; Nn] -> dims B = [rb; cb] -> 0 < P ->
  (tB = true -> cb = Nn) ->
  exists h,
    MatMulMKLDNNHandler A false B tB out scale = Some h /\
    matmul_primitive h (data A) (data B)
    = (p ← seqZ 0 P;
       i ← seqZ 0 M;
       j ← seqZ 0 (factor_cols B tB);
       [scaled (if scale =? 1 then None else Some scale)
          (sum_over Nn (fun k => tensor3_at A p i k * factor_at B tB k j))]).
Proof.
  intros HA HB HP Hinner. unfold MatMulMKLDNNHandler.
  unfold factor_cols, factor_at, mat_at, tensor3_at. rewrite HA, HB.
  cbn [rev app CreateMatrixDescriptor mbind option_bind height_ width_
       batch_size_ product foldr].
  eexists. split; [reflexivity|].
  unfold matmul_primitive.
  cbn [out_md x_md y_md md_dims md_strides output_scale].
  rewrite Z.mul_1_r.
  destruct (Z.eqb_spec P 0); [lia|]. cbn [negb orb].
  destruct (Z.ltb_spec 0 P); [|lia].
  rewrite Z.max_l by lia.
  assert (forall b, b ∈ seqZ 0 P -> (if P =? 1 then 0 else b) = b) as Hb.
  { intros b Hin. apply elem_of_seqZ in Hin.
    destruct (Z.eqb_spec P 1); lia. }
  apply Forall_bind_ext, Forall_forall. intros p Hp.
  apply bind_ext_list. intros i.
  apply bind_ext_list. intros j. f_equal. f_equal.
  apply sum_over_ext. intros k. unfold view_at.
  cbn [md_dims md_strides]. rewrite (Hb p Hp).
  destruct tB; cbn [negb Z.eqb Pos.eqb]; try specialize (Hinner eq_refl);
    subst; cbn [Z.ltb Z.compare Z.eqb Pos.eqb];
    f_equal; f_equal; f_equal; lia.
Qed.

Lemma ExecuteMatMulGrad_batched (ctx : Attrs) (A : Tensor) (fA : bool)
    (B : Tensor) (tB fB : bool) (sel : OutSel) (st : GradState)
    (out : Tensor) (P M Nn rb cb : Z) :
  out_of sel st = Some out -> rank out <> 2 ->
  dims A = [P; M; Nn] -> dims B = [rb; cb] -> 0 < P ->
  (tB = true -> cb = Nn) ->
  exists h,
    ExecuteMatMulGrad reorder ctx A false fA B tB fB sel st
    = (inr tt,
       log_execution h
         (set_out sel
            {| dims := dims out;
               data :=
                 p ← seqZ 0 P;
                 i ← seqZ 0 M;
                 j ← seqZ 0 (factor_cols B tB);
                 [scaled (alpha_scale (alpha ctx))
                    (sum_over Nn (fun k =>
                       tensor3_at A p i k * factor_at B tB k j))];
               mem_desc := dims out |} st)).
Proof.
  intros Hout Hrank HA HB HP Hinner.
  destruct (handler_product_batched A B out tB (default 1 (alpha ctx))
              P M Nn rb cb HA HB HP Hinner) as (h & Hh & Hprod).
  exists h. unfold ExecuteMatMulGrad.
  unfold mbind at 1, M_bind. cbn [get]. rewrite Hout. cbn [lift].
  unfold mbind at 1, M_bind. cbn [mret M_ret].
  assert (((rank A =? 3) || (rank B =? 3)) && (rank out =? 2) = false) as ->.
  { destruct (Z.eqb_spec (rank out) 2); [contradiction|].
    apply andb_false_r. }
  cbn [negb]. rewrite Hh. cbn [lift]. unfold mbind at 1, M_bind.
  cbn [mret M_ret]. unfold put. rewrite Hprod.
  unfold alpha_scale. destruct (alpha ctx) as [v|]; reflexivity.
Qed.

(** X21.  The gradient kernel on a batched [X] of shape [P x M x K] and a
    matrix [Y] of shape [K x N], neither transposed, with both gradients
    requested: [dX] holds, batch by batch, [dOut[p] . Y^T], and [dY] holds
    the sum over the batches of [X[p]^T . dOut[p]]; both scaled by [alpha],
    with the outputs back at their declared shapes after two executions. *)
Theorem grad_compute_batched_left (ctx : Attrs)
    (x0 y0 dout0 dx0 dy0 : Tensor) (ex : list Execution) (P M K N : Z) :
  head_number ctx = None \/ head_number ctx = Some 1 ->
  attr_value (transpose_X ctx) (trans_x ctx) = Some false ->
  attr_value (transpose_Y ctx) (trans_y ctx) = Some false ->
  dims x0 = [P; M; K] -> dims y0 = [K; N] -> 0 < P -> 0 <= M ->
  let dout := Resize dout0 [P; M; N] in
  exists st',
    MatMulGrad_Compute reorder ctx x0 y0 dout0
      {| dx := Some dx0; dy := Some dy0; executed := ex |}
    = (inr tt, st') /\
    data <$> dx st'
    = Some (p ← seqZ 0 P;
            m ← seqZ 0 M;
            k ← seqZ 0 K;
            [scaled (alpha_scale (alpha ctx))
               (sum_over N (fun n => tensor3_at dout p m n * mat_at y0 k n))])
    /\
    data <$> dy st'
    = Some (k ← seqZ 0 K;
            n ← seqZ 0 N;
            [scaled (alpha_scale (alpha ctx))
               (sum_over P (fun p =>
                  sum_over M (fun m =>
                    tensor3_at x0 p m k * tensor3_at dout p m n)))]) /\
    dims <$> dx st' = Some (dims dx0) /\
    dims <$> dy st' = Some (dims dy0) /\
    length (executed st') = S (S (length ex)).
Proof.
  intros Hhead Htx Hty Hx Hy HP HM dout.
  destruct x0 as [dimsx datax mdx], y0 as [dimsy datay mdy].
  cbn [dims] in Hx, Hy. subst dimsx dimsy.
  unfold MatMulGrad_Compute.
  rewrite (bind_ok _ _ _ _ _ (check_head_number_accepts ctx _ Hhead)).
  rewrite (bind_ok _ _ _ _ _ (attr_or_value _ _ _ _ Htx)).
  rewrite (bind_ok _ _ _ _ _ (attr_or_value _ _ _ _ Hty)).
  set (x := {| dims := [P; M; K]; data := datax; mem_desc := mdx |}).
  set (y := {| dims := [K; N]; data := datay; mem_desc := mdy |}).
  assert (ReshapeXYOutToMatrixSequence x y dout0 false false
          = Some (x, y, dout)) as Hreshape.
  { unfold ReshapeXYOutToMatrixSequence, ReshapeTensorToMatrixSequence.
    cbn [x y dims RowMatrixDimsFromVector ColumnMatrixDimsFromVector
         CreateMatrixDescriptor rev app mbind option_bind height_ width_
         batch_size_ trans_ product foldr].
    rewrite Z.mul_1_r. destruct (Z.eqb_spec P 0); [lia|].
    cbn [andb Z.eqb]. rewrite Z.max_l by lia. reflexivity. }
  rewrite Hreshape.
  rewrite (bind_ok (lift BadRank (Some (x, y, dout))) _ _ (x, y, dout) _
             eq_refl).
  set (st0 := {| dx := Some dx0; dy := Some dy0; executed := ex |}).
  rewrite (bind_ok _ _ _ _ _ (resize_to_spec DX x st0 dx0 eq_refl)).
  set (st1 := set_out DX (Resize dx0 (dims x)) st0).
  rewrite (bind_ok _ _ _ _ _ (resize_to_spec DY y st1 dy0 eq_refl)).
  set (st2 := set_out DY (Resize dy0 (dims y)) st1).
  cbn [andb].
  destruct (ExecuteMatMulGrad_batched ctx dout false y true false DX st2 _
              P M N K N eq_refl ltac:(discriminate) eq_refl eq_refl HP
              ltac:(reflexivity)) as (h1 & E1).
  set (st3 := log_execution h1 _) in E1.
  destruct (ExecuteMatMulGrad_folded ctx x dout DY st3 _ (Z.to_nat P) M K N
              eq_refl eq_refl) as (h2 & E2);
    [cbn [x dims]; rewrite Z2Nat.id by lia; reflexivity
    |cbn [dout dims Resize]; rewrite Z2Nat.id by lia; reflexivity
    |exact HM|].
  set (st4 := log_execution h2 _) in E2.
  eexists. split.
  { rewrite (bind_ok _ _ st2 tt st4).
    - cbn beta. erewrite bind_ok; [|apply (restore_dims_spec DX _ x st4); reflexivity].
      apply restore_dims_spec. reflexivity.
    - rewrite (bind_ok _ _ _ _ _ E1). exact E2. }
  cbn [dx dy executed set_out log_execution st4 st3 st2 st1 st0 fmap
       option_fmap option_map].
  unfold restored. cbn [dims data Resize set_mem_desc x y].
  rewrite Z2Nat.id by lia.
  repeat split.
  - destruct (bool_decide (dims dx0 = [P; M; K])); reflexivity.
  - destruct (bool_decide (dims dy0 = [K; N])); reflexivity.
  - destruct (bool_decide_reflect (dims dx0 = [P; M; K])) as [E|];
      [rewrite E|]; reflexivity.
  - destruct (bool_decide_reflect (dims dy0 = [K; N])) as [E|];
      [rewrite E|]; reflexivity.
  - rewrite !length_app. cbn. lia.
Qed.

End BatchFacts.

Section ShapeStepFacts.

Local Open Scope Z_scope.

Lemma rd_ext (l k : list Z) : (forall i, rd l i = rd k i) -> l = k.
Proof.
  intros Hext. apply list_eq. intros i. specialize (Hext (Z.of_nat i)).
  unfold rd in Hext. destruct (Z.ltb_spec (Z.of_nat i) 0); [lia|].
  rewrite Nat2Z.id in Hext. exact Hext.
Qed.

Lemma compatible_sym (a b : Z) : compatible a b = compatible b a.
Proof.
  unfold compatible. rewrite (Z.eqb_sym a b).
  destruct (b =? a), (a =? 1), (b =? 1); reflexivity.
Qed.

Lemma ndims_of_sym (x_dims y_dims : list Z) :
  ndims_of x_dims y_dims = ndims_of y_dims x_dims.
Proof. unfold ndims_of. lia. Qed.

(** X22.  The shape step of the forward kernel does the same to [out]
    whichever way round the two operands are given: for an unfused output
    and shapes of rank above 2, it succeeds on [(X, Y)] with a given state
    exactly when it succeeds on [(Y, X)] with that state. *)
Theorem CalculateMatrixDims_symmetric (ctx : Attrs) (x_dims y_dims : list Z)
    (st st' : FwdState) :
  IsOutputFused ctx = false -> 2 < len x_dims -> 2 < len y_dims ->
  let n := ndims_of x_dims y_dims in
  n - 2 <= len (dims (out st)) ->
  (exists bd,
     CalculateMatrixDims ctx x_dims y_dims (replicate (Z.to_nat n) 1)
       (replicate (Z.to_nat n) 1) st = (inr bd, st')) <->
  (exists bd,
     CalculateMatrixDims ctx y_dims x_dims (replicate (Z.to_nat n) 1)
       (replicate (Z.to_nat n) 1) st = (inr bd, st')).
Proof.
  intros Hfused Hx Hy n Hout.
  assert (forall xs ys : list Z, 2 < len xs -> 2 < len ys ->
            ndims_of xs ys = n ->
            (exists bd,
               CalculateMatrixDims ctx xs ys (replicate (Z.to_nat n) 1)
                 (replicate (Z.to_nat n) 1) st = (inr bd, st')) ->
            exists bd,
              CalculateMatrixDims ctx ys xs (replicate (Z.to_nat n) 1)
                (replicate (Z.to_nat n) 1) st = (inr bd, st')) as Hdir.
  { intros xs ys Hxs Hys Hn [bd Hr].
    pose proof (CalculateMatrixDims_outcome ctx xs ys st Hfused Hxs Hys)
      as Hxy.
    pose proof (CalculateMatrixDims_outcome ctx ys xs st Hfused Hys Hxs)
      as Hyx.
    rewrite (ndims_of_sym ys xs) in Hyx. rewrite Hn in Hxy, Hyx.
    cbn zeta in Hxy, Hyx.
    destruct (Hxy Hout) as [(od & Hr1 & Hl1 & Hlk1 & Hall)
                           |(i & xd & yd & Hr1 & _)];
      [|rewrite Hr1 in Hr; discriminate Hr].
    rewrite Hr1 in Hr. injection Hr as <- <-.
    destruct (Hyx Hout) as [(od' & Hr2 & Hl2 & Hlk2 & _)
                           |(i & yd & xd & Hr2 & Hi & Hyi & Hxi & Hc & _)].
    - eexists. rewrite Hr2. f_equal. f_equal. f_equal.
      apply rd_ext. intros i. rewrite Hlk1, Hlk2.
      destruct (decide (0 <= i < n - 2)); [|reflexivity].
      destruct (rd (bd_dims n xs) i) as [xd|], (rd (bd_dims n ys) i) as [yd|];
        cbn [mbind option_bind]; try reflexivity.
      rewrite Z.max_comm. reflexivity.
    - rewrite compatible_sym in Hc.
      rewrite (Hall i xd yd Hi Hxi Hyi) in Hc. discriminate Hc. }
  split.
  - apply Hdir; [assumption..|reflexivity].
  - apply Hdir; [assumption..|apply ndims_of_sym].
Qed.

(** X23.  The shape step is idempotent: run again on the state it has
    left, it succeeds with the same vectors and leaves that state as it
    is. *)
Theorem CalculateMatrixDims_idempotent (ctx : Attrs) (x_dims y_dims : list Z)
    (st st' : FwdState) (bd : list Z * list Z) :
  let n := ndims_of x_dims y_dims in
  n - 2 <= len (dims (out st)) ->
  CalculateMatrixDims ctx x_dims y_dims (replicate (Z.to_nat n) 1)
    (replicate (Z.to_nat n) 1) st = (inr bd, st') ->
  CalculateMatrixDims ctx x_dims y_dims (replicate (Z.to_nat n) 1)
    (replicate (Z.to_nat n) 1) st' = (inr bd, st').
Proof.
  intros n Hout Hr.
  destruct (negb (IsOutputFused ctx) && (2 <? len x_dims)
            && (2 <? len y_dims)) eqn:Hguard.
  - apply andb_prop in Hguard as [Hguard Hy].
    apply andb_prop in Hguard as [Hfused Hx].
    apply negb_true_iff in Hfused. apply Z.ltb_lt in Hx, Hy.
    destruct (CalculateMatrixDims_outcome ctx x_dims y_dims st Hfused Hx Hy
                Hout) as [(od & Hr1 & Hl1 & Hlk1 & Hall)
                         |(i & xd & yd & Hr1 & _)];
      [|fold n in Hr1; rewrite Hr1 in Hr; discriminate Hr].
    fold n in Hr1, Hlk1, Hall. rewrite Hr1 in Hr. injection Hr as <- <-.
    set (st1 := {| out := Resize (out st) od;
                   fwd_executed := fwd_executed st |}).
    destruct (CalculateMatrixDims_outcome ctx x_dims y_dims st1 Hfused Hx Hy)
      as [(od' & Hr2 & Hl2 & Hlk2 & _)
         |(i & xd & yd & Hr2 & Hi & Hxi & Hyi & Hc & _)].
    + fold n. cbn [st1 out dims Resize]. lia.
    + fold n in Hr2, Hlk2. rewrite Hr2. f_equal. unfold st1. f_equal.
      cbn [out fwd_executed Resize data mem_desc]. unfold Resize. f_equal.
      apply rd_ext. intros i. rewrite Hlk2. cbn [st1 out dims Resize].
      rewrite Hlk1. destruct (decide (0 <= i < n - 2)); reflexivity.
    + fold n in Hi, Hxi, Hyi. rewrite (Hall i xd yd Hi Hxi Hyi) in Hc.
      discriminate Hc.
  - unfold CalculateMatrixDims in *. rewrite Hguard in *.
    unfold mbind, M_bind, lift, raise, when, mret, M_ret in *.
    destruct (place_dims x_dims _ _) as [x_bd|]; [|discriminate Hr].
    destruct (place_dims y_dims _ _) as [y_bd|]; [|discriminate Hr].
    injection Hr as <- <-. reflexivity.
Qed.

End ShapeStepFacts.

Section MoreSamples.

Import Samples Cases.

Local Open Scope Z_scope.

Ltac axis_sample :=
  split; [apply (bool_decide_unpack _); vm_compute; exact I
         |split; [reflexivity|repeat constructor; lia]].

Lemma Transpose_rearranges_witness :
  exists y, Transpose [10; 20; 30] [2; 0; 1] = inr y /\ y ≡ₚ [10; 20; 30].
Proof.
  destruct (Transpose_rearranges [10; 20; 30] [2; 0; 1])
    as (y & Hy & _ & _ & Hperm); [discriminate|axis_sample|].
  exists y. split; [exact Hy|exact Hperm].
Defined.

Lemma Transpose_rejects_witness :
  Transpose [10; 20; 30] [0; 0; 1] = inl AxisNotUnique /\
  Transpose [10; 20; 30] [0; 1] = inl (AxisSizeMismatch 3 2) /\
  Transpose [10; 20; 30] [0; 1; 3] = inl AxisTooLarge.
Proof.
  split; [|split].
  - apply (proj1 (Transpose_rejects [10; 20; 30] [0; 0; 1])).
    intros Hnd. apply NoDup_cons in Hnd as [Hin _]. apply Hin. left.
  - apply (proj1 (proj2 (Transpose_rejects [10; 20; 30] [0; 1]))).
    + apply (bool_decide_unpack _). vm_compute. exact I.
    + vm_compute. discriminate.
  - apply (proj2 (proj2 (Transpose_rejects [10; 20; 30] [0; 1; 3]))
             ltac:(apply (bool_decide_unpack _); vm_compute; exact I)
             eq_refl 3).
    + right. right. left.
    + vm_compute. split; [discriminate|reflexivity].
    + repeat constructor.
Defined.

Lemma Transpose_inverse_witness :
  exists y,
    Transpose [10; 20; 30] [2; 0; 1] = inr y /\
    Transpose y [1; 2; 0] = inr [10; 20; 30].
Proof.
  apply (Transpose_inverse [10; 20; 30] [2; 0; 1] [1; 2; 0]);
    [discriminate|axis_sample|axis_sample|].
  intros i a. unfold rd at 1. destruct (Z.ltb_spec i 0); [discriminate|].
  destruct (Z.to_nat i) as [|[|[|k]]] eqn:E; simpl; intros [= <-].
  - replace i with 0 by lia. reflexivity.
  - replace i with 1 by lia. reflexivity.
  - replace i with 2 by lia. reflexivity.
Defined.

Lemma GetInputStrides_permuted_row_major_witness :
  GetInputStrides reshape_to permute_dims
    (fused_ctx [2; 3; 4] [0; 2; 1] [] [] (Some false) (Some false) None None)
    InputX mat_x
  = inr [12; 1; 4].
Proof.
  apply (GetInputStrides_permuted_row_major reshape_to permute_dims
           (fused_ctx [2; 3; 4] [0; 2; 1] [] [] (Some false) (Some false)
              None None) InputX mat_x [2; 3; 4] [0; 2; 1] eq_refl eq_refl);
    try discriminate; [axis_sample|reflexivity].
Defined.


Lemma CalculateMatrixDims_vectors_witness :
  exists st',
    CalculateMatrixDims (matmul_ctx None false false []) [4] [4] [1; 1; 1]
      [1; 1; 1] (fwd_state [1])
    = (inr ([1; 1; 4], [1; 4; 1]), st').
Proof.
  destruct (CalculateMatrixDims_vectors (matmul_ctx None false false []) [4]
              [4] (fwd_state [1]) ltac:(vm_compute; discriminate))
    as [(st' & Hr)|(i & xd & yd & Hr)].
  - exists st'. exact Hr.
  - vm_compute in Hr. discriminate Hr.
Defined.

Lemma forward_dispatch_witness :
  MatMulV2_Compute no_reshape no_reshape no_execute UInt8
    (matmul_ctx None false true []) mat_x mat_y (fwd_state [2; 2])
  = no_execute OutInt8 (matmul_ctx None false true []) mat_x [1; 2; 2] false
      mat_y [1; 2; 2] true (fwd_state [2; 2]).
Proof.
  exact (forward_dispatch no_reshape no_reshape no_execute UInt8
           (matmul_ctx None false true []) mat_x mat_y (fwd_state [2; 2])
           (fwd_state [2; 2]) false true ([1; 2; 2], [1; 2; 2])
           (or_introl eq_refl) eq_refl eq_refl eq_refl).
Defined.

Lemma forward_mismatch_stops_witness :
  exists i xd yd,
    MatMulV2_Compute no_reshape no_reshape no_execute Float32
      (matmul_ctx None false false [])
      {| dims := [3; 2; 2]; data := []; mem_desc := [] |}
      {| dims := [2; 2; 2]; data := []; mem_desc := [] |}
      (fwd_state [3; 2; 2])
    = (inl (MatMul.InvalidArgument i xd yd), fwd_state [3; 2; 2]).
Proof.
  destruct (forward_mismatch_stops no_reshape no_reshape no_execute Float32
              (matmul_ctx None false false [])
              {| dims := [3; 2; 2]; data := []; mem_desc := [] |}
              {| dims := [2; 2; 2]; data := []; mem_desc := [] |}
              (fwd_state [3; 2; 2]) false false 0 3 2 (or_introl eq_refl)
              eq_refl eq_refl eq_refl ltac:(reflexivity) ltac:(reflexivity)
              ltac:(vm_compute; discriminate)
              ltac:(split; [vm_compute; discriminate|reflexivity])
              eq_refl eq_refl eq_refl)
    as (i & xd & yd & Hr & _).
  exists i, xd, yd. exact Hr.
Defined.

Lemma missing_transposition_attribute_witness :
  MatMulGrad_Compute no_reorder
    (fused_ctx [] [] [] [] None (Some false) None (Some false)) mat_x mat_y
    mat_dout grad_state
  = (inl AttrNotFound, grad_state).
Proof.
  exact (proj2 (missing_transposition_attribute no_reorder no_reshape
                  no_reshape no_execute Float32
                  (fused_ctx [] [] [] [] None (Some false) None (Some false))
                  mat_x mat_y mat_dout (fwd_state [2; 2]) grad_state
                  (or_introl eq_refl) eq_refl eq_refl)).
Defined.

Lemma ExecuteMatMulGrad_sums_batches_witness :
  exists h st',
    ExecuteMatMulGrad no_reorder (matmul_ctx None false false []) batch_x
      true true batch_dout false true DY batch_grad_state
    = (inr tt, log_execution h st') /\
    data <$> dy st' = Some [7; 9; 10; 12].
Proof.
  destruct (ExecuteMatMulGrad_sums_batches no_reorder
              (matmul_ctx None false false []) batch_x batch_dout DY
              batch_grad_state
              {| dims := [2; 2]; data := [0; 0; 0; 0]; mem_desc := [2; 2] |}
              2 1 2 2 eq_refl eq_refl eq_refl eq_refl ltac:(lia))
    as (h & Hr).
  eexists h, _. split; [exact Hr|reflexivity].
Defined.

Lemma grad_compute_batched_left_witness :
  exists st',
    MatMulGrad_Compute no_reorder (matmul_ctx None false false []) batch_x
      mat_y batch_dout batch_grad_state = (inr tt, st') /\
    data <$> dx st' = Some [5; 7; 28; 38] /\
    data <$> dy st' = Some [7; 9; 10; 12].
Proof.
  destruct (grad_compute_batched_left no_reorder
              (matmul_ctx None false false []) batch_x mat_y batch_dout
              {| dims := [2; 1; 2]; data := [0; 0; 0; 0];
                 mem_desc := [2; 1; 2] |}
              {| dims := [2; 2]; data := [0; 0; 0; 0]; mem_desc := [2; 2] |}
              [] 2 1 2 2 (or_introl eq_refl) eq_refl eq_refl eq_refl eq_refl
              ltac:(lia) ltac:(lia))
    as (st' & Hr & Hdx & Hdy & _).
  exists st'. split; [exact Hr|]. split; [exact Hdx|exact Hdy].
Defined.

Lemma CalculateMatrixDims_symmetric_witness :
  exists bd,
    CalculateMatrixDims (matmul_ctx None false false []) [1; 2; 2] [3; 2; 2]
      [1; 1; 1] [1; 1; 1] (fwd_state [3; 2; 2])
    = (inr bd, fwd_state [3; 2; 2]).
Proof.
  apply (proj1 (CalculateMatrixDims_symmetric (matmul_ctx None false false [])
                  [3; 2; 2] [1; 2; 2] (fwd_state [3; 2; 2])
                  (fwd_state [3; 2; 2]) eq_refl ltac:(reflexivity)
                  ltac:(reflexivity) ltac:(vm_compute; discriminate))).
  eexists. reflexivity.
Defined.

Lemma CalculateMatrixDims_idempotent_witness :
  CalculateMatrixDims (matmul_ctx None false false []) [3; 2; 2] [1; 2; 2]
    [1; 1; 1] [1; 1; 1] (fwd_state [3; 2; 2])
  = (inr ([3; 2; 2], [1; 2; 2]), fwd_state [3; 2; 2]).
Proof.
  exact (CalculateMatrixDims_idempotent (matmul_ctx None false false [])
           [3; 2; 2] [1; 2; 2] (fwd_state [3; 2; 2]) (fwd_state [3; 2; 2])
           ([3; 2; 2], [1; 2; 2]) ltac:(vm_compute; discriminate) eq_refl).
Defined.

End MoreSamples.

End MatMulMore.
